(** * nghttp3_map: Robin Hood hash table of lib/nghttp3_map.c

    A shallow embedding of the open-addressing table of nghttp3
    (64-bit keys, opaque pointer values, 8-bit probe-sequence-length
    bytes) together with the properties of its public operations. *)

From Stdlib Require Import String DecimalString.
From Stdlib Require Import ZArith List Lia Bool.
Import ListNotations.
Open Scope Z_scope.

(* ================================================================== *)
(** * Machine integers and arrays *)
(* ================================================================== *)

(** [uint64_t] arithmetic wraps modulo 2^64. *)
Definition u64 (x : Z) : Z := x mod 2 ^ 64.

(** [size_t] is taken to be 64 bits wide (LP64), so that
    [sizeof(size_t) * 8 - 1 = 63]. *)
Definition size_t (x : Z) : Z := x mod 2 ^ 64.

(** The cast [(uint8_t)x]. *)
Definition u8 (x : Z) : Z := x mod 2 ^ 8.

(** A C array is a list of cells; [rd a i] is [a[i]] and [wr a i v] is
    [a[i] = v].  Every access made by the code on a well-formed table is
    inside the array (indices are masked to the table length). *)
Definition rd (a : list Z) (i : Z) : Z := nth (Z.to_nat i) a 0.

Fixpoint upd (a : list Z) (n : nat) (v : Z) : list Z :=
  match a, n with
  | [], _ => []
  | _ :: t, O => v :: t
  | x :: t, S n' => x :: upd t n' v
  end.

Definition wr (a : list Z) (i : Z) (v : Z) : list Z := upd a (Z.to_nat i) v.

(** A buffer obtained from [nghttp3_mem_calloc]: [n] zeroed cells. *)
Definition calloc (n : Z) : list Z := repeat 0 (Z.to_nat n).

(* ================================================================== *)
(** * Results of running the code *)
(* ================================================================== *)

(** The probing loops of the source are [for (;;)]; they are modelled
    with an explicit iteration budget.  [OutOfFuel] means the budget was
    too small, [AssertFail] that an [assert] of the source failed. *)
Inductive outcome (A : Type) : Type :=
| Done (a : A)
| AssertFail
| OutOfFuel.
Arguments Done {A} a.
Arguments AssertFail {A}.
Arguments OutOfFuel {A}.

Definition bind {A B : Type} (o : outcome A) (k : A -> outcome B) : outcome B :=
  match o with
  | Done a => k a
  | AssertFail => AssertFail
  | OutOfFuel => OutOfFuel
  end.

Notation "x <- c ;; k" := (bind c (fun x => k))
  (at level 61, c at next level, right associativity).

(* ================================================================== *)
(** * The table *)
(* ================================================================== *)

(** [nghttp3_map]: three parallel arrays carved out of one buffer, the
    per-instance seed, the number of entries and log2 of the slot
    count.  Pointers are integers, [0] being [NULL]; unallocated arrays
    are empty.  The allocator handle [mem] is not part of the state: the
    single allocation of a growth event either succeeds or fails, which
    is an input of [nghttp3_map_insert]. *)
Record nghttp3_map : Type := mk_map {
  keys : list Z;
  data : list Z;
  psl : list Z;
  seed : Z;
  size : Z;
  hashbits : Z
}.

Definition set_keys (m : nghttp3_map) (a : list Z) : nghttp3_map :=
  mk_map a (data m) (psl m) (seed m) (size m) (hashbits m).
Definition set_data (m : nghttp3_map) (a : list Z) : nghttp3_map :=
  mk_map (keys m) a (psl m) (seed m) (size m) (hashbits m).
Definition set_psl (m : nghttp3_map) (a : list Z) : nghttp3_map :=
  mk_map (keys m) (data m) a (seed m) (size m) (hashbits m).
Definition set_size (m : nghttp3_map) (n : Z) : nghttp3_map :=
  mk_map (keys m) (data m) (psl m) (seed m) n (hashbits m).

Definition NGHTTP3_INITIAL_HASHBITS : Z := 4.
Definition NGHTTP3_MAP_HASHER : Z := 0xf1357aea2e62a9c5.
Definition NGHTTP3_MAP_FIBO : Z := 0x9e3779b97f4a7c15.
(** [sizeof(size_t) * 8 - 1] *)
Definition NGHTTP3_MAP_MAX_HASHBITS : Z := 63.

(** Modelled from the spec: the error codes are declared in nghttp3.h,
    which is not part of the source at hand.  The specification names
    two error kinds, InvalidArgument and OutOfMemory, both different
    from success (0); the values are the ones of the library's header,
    and the proofs use only that they are nonzero and distinct. *)
Definition NGHTTP3_ERR_INVALID_ARGUMENT : Z := -101.
Definition NGHTTP3_ERR_NOMEM : Z := -901.

Definition nghttp3_map_init (seed0 : Z) : nghttp3_map :=
  mk_map [] [] [] seed0 0 0.

(** ** Enumeration

    The callback [int func(void *data, void *ptr)] acts on the caller's
    state behind [ptr]; it is a function from the stored value and that
    state to a return code and a new state. *)
Section Each.
Context {St : Type}.
Variable func : Z -> St -> Z * St.

Fixpoint each_loop (n : nat) (m : nghttp3_map) (i : Z) (s : St) : Z * St :=
  match n with
  | O => (0, s)
  | S n' =>
      if rd (psl m) i =? 0 then each_loop n' m (i + 1) s
      else
        let '(rv, s') := func (rd (data m) i) s in
        if rv =? 0 then each_loop n' m (i + 1) s' else (rv, s')
  end.

Definition nghttp3_map_each (m : nghttp3_map) (s : St) : Z * St :=
  if size m =? 0 then (0, s)
  else
    let tablelen := size_t (Z.shiftl 1 (hashbits m)) in
    each_loop (Z.to_nat tablelen) m 0 s.
End Each.

(** ** Hashing *)
Definition map_index (m : nghttp3_map) (key : Z) : Z :=
  let key := u64 (key + seed m) in
  let key := u64 (key * NGHTTP3_MAP_HASHER) in
  Z.shiftr (u64 (key * NGHTTP3_MAP_FIBO)) (64 - hashbits m).

(** ** Printing the distances

    [nghttp3_map_print_distance] (compiled unless [WIN32] is defined)
    writes one line per slot to [stderr].  The text written is the list
    of the strings of the [fprintf] calls, appended to what was written
    before.  [%zu] and [PRIu64] print a decimal number; [%u] prints the
    [int] [map->psl[i] - 1] as an [unsigned int] of 32 bits. *)
Definition dec (n : Z) : string :=
  NilZero.string_of_uint (N.to_uint (Z.to_N n)).

Definition newline : string := String (Ascii.ascii_of_nat 10) EmptyString.

Definition empty_line (i : Z) : string :=
  ("@" ++ dec i ++ " <EMPTY>" ++ newline)%string.

Definition entry_line (i key idx d : Z) : string :=
  ("@" ++ dec i ++ " key=" ++ dec key ++ " base=" ++ dec idx
       ++ " distance=" ++ dec d ++ newline)%string.

Fixpoint print_distance_loop (n : nat) (m : nghttp3_map) (i : Z)
    (out : list string) : list string :=
  match n with
  | O => out
  | S n' =>
      if rd (psl m) i =? 0 then
        print_distance_loop n' m (i + 1) (out ++ [empty_line i])
      else
        let idx := map_index m (rd (keys m) i) in
        print_distance_loop n' m (i + 1)
          (out ++ [entry_line i (rd (keys m) i) idx
                              ((rd (psl m) i - 1) mod 2 ^ 32)])
  end.

Definition nghttp3_map_print_distance (m : nghttp3_map) (out : list string)
  : list string :=
  if size m =? 0 then out
  else
    let tablelen := size_t (Z.shiftl 1 (hashbits m)) in
    print_distance_loop (Z.to_nat tablelen) m 0 out.

(** ** Insertion *)
Definition map_set_entry (m : nghttp3_map) (idx key val p : Z) : nghttp3_map :=
  let m := set_keys m (wr (keys m) idx key) in
  let m := set_data m (wr (data m) idx val) in
  set_psl m (wr (psl m) idx (u8 p)).

(** [map_insert]: [p] is the local [psl], [val] the [data] pointer. *)
Fixpoint map_insert_loop (fuel : nat) (m : nghttp3_map)
    (mask idx key val p : Z) : outcome (Z * nghttp3_map) :=
  match fuel with
  | O => OutOfFuel
  | S fuel' =>
      let kpsl := rd (psl m) idx in
      if kpsl =? 0 then
        let m := map_set_entry m idx key val p in
        Done (0, set_size m (size_t (size m + 1)))
      else if p >? kpsl then
        (* NGHTTP3_SWAP on key, data and psl *)
        let key' := rd (keys m) idx in
        let m := set_keys m (wr (keys m) idx key) in
        let val' := rd (data m) idx in
        let m := set_data m (wr (data m) idx val) in
        let t := u8 p in
        let p' := rd (psl m) idx in
        let m := set_psl m (wr (psl m) idx t) in
        map_insert_loop fuel' m mask
          (Z.land (size_t (idx + 1)) mask) key' val' (size_t (p' + 1))
      else if rd (keys m) idx =? key then
        Done (NGHTTP3_ERR_INVALID_ARGUMENT, m)
      else
        map_insert_loop fuel' m mask
          (Z.land (size_t (idx + 1)) mask) key val (size_t (p + 1))
  end.

Definition map_insert (fuel : nat) (m : nghttp3_map) (key val : Z)
  : outcome (Z * nghttp3_map) :=
  let idx := map_index m key in
  let mask := size_t (size_t (Z.shiftl 1 (hashbits m)) - 1) in
  map_insert_loop fuel m mask idx key val 1.

(** ** Growth

    [resize_loop] is the re-insertion loop over the old table; the
    [assert(0 == rv)] after each [map_insert] is kept. *)
Fixpoint resize_loop (fuel : nat) (n : nat) (old : nghttp3_map) (i : Z)
    (new_map : nghttp3_map) : outcome nghttp3_map :=
  match n with
  | O => Done new_map
  | S n' =>
      if rd (psl old) i =? 0 then resize_loop fuel n' old (i + 1) new_map
      else
        r <- map_insert fuel new_map (rd (keys old) i) (rd (data old) i) ;;
        if fst r =? 0 then resize_loop fuel n' old (i + 1) (snd r)
        else AssertFail
  end.

(** [calloc_ok] tells whether [nghttp3_mem_calloc] returns a buffer. *)
Definition map_resize (fuel : nat) (calloc_ok : bool) (m : nghttp3_map)
    (new_hashbits : Z) : outcome (Z * nghttp3_map) :=
  let tablelen := size_t (Z.shiftl 1 new_hashbits) in
  if negb calloc_ok then Done (NGHTTP3_ERR_NOMEM, m)
  else
    let new_map :=
      mk_map (calloc tablelen) (calloc tablelen) (calloc tablelen)
             (seed m) 0 new_hashbits in
    new_map <-
      (if size m =? 0 then Done new_map
       else
         let tablelen := size_t (Z.shiftl 1 (hashbits m)) in
         resize_loop fuel (Z.to_nat tablelen) m 0 new_map) ;;
    Done (0, mk_map (keys new_map) (data new_map) (psl new_map)
                    (seed m) (size m) new_hashbits).

Definition nghttp3_map_insert (fuel : nat) (calloc_ok : bool)
    (m : nghttp3_map) (key val : Z) : outcome (Z * nghttp3_map) :=
  if val =? 0 then AssertFail (* assert(data) *)
  else
    let tablelen := size_t (Z.shiftl 1 (hashbits m)) in
    if size_t (size m + 1) >=? size_t (tablelen - Z.shiftr tablelen 3) then
      let new_hashbits :=
        if hashbits m =? 0 then NGHTTP3_INITIAL_HASHBITS
        else size_t (hashbits m + 1) in
      if new_hashbits >? NGHTTP3_MAP_MAX_HASHBITS then
        Done (NGHTTP3_ERR_NOMEM, m)
      else
        r <- map_resize fuel calloc_ok m new_hashbits ;;
        if negb (fst r =? 0) then Done r
        else map_insert fuel (snd r) key val
    else map_insert fuel m key val.

(** ** Lookup *)
Fixpoint find_loop (fuel : nat) (m : nghttp3_map) (mask idx key p : Z)
  : outcome Z :=
  match fuel with
  | O => OutOfFuel
  | S fuel' =>
      if p >? rd (psl m) idx then Done 0
      else if rd (keys m) idx =? key then Done (rd (data m) idx)
      else find_loop fuel' m mask (Z.land (size_t (idx + 1)) mask) key
                     (size_t (p + 1))
  end.

Definition nghttp3_map_find (fuel : nat) (m : nghttp3_map) (key : Z)
  : outcome Z :=
  if size m =? 0 then Done 0
  else
    let idx := map_index m key in
    let mask := size_t (size_t (Z.shiftl 1 (hashbits m)) - 1) in
    find_loop fuel m mask idx key 1.

(** ** Removal *)

(** The inner backward-shift loop of [nghttp3_map_remove]. *)
Fixpoint shift_loop (fuel : nat) (m : nghttp3_map) (mask dest idx : Z)
  : outcome nghttp3_map :=
  match fuel with
  | O => OutOfFuel
  | S fuel' =>
      let kpsl := rd (psl m) idx in
      if kpsl <=? 1 then Done (set_psl m (wr (psl m) dest 0))
      else
        let m := map_set_entry m dest (rd (keys m) idx) (rd (data m) idx)
                               (size_t (kpsl - 1)) in
        shift_loop fuel' m mask idx (Z.land (size_t (idx + 1)) mask)
  end.

(** The outer search loop; [fuel2] is the budget of the inner loop. *)
Fixpoint remove_loop (fuel fuel2 : nat) (m : nghttp3_map)
    (mask idx key p : Z) : outcome (Z * nghttp3_map) :=
  match fuel with
  | O => OutOfFuel
  | S fuel' =>
      if p >? rd (psl m) idx then Done (NGHTTP3_ERR_INVALID_ARGUMENT, m)
      else if rd (keys m) idx =? key then
        let dest := idx in
        let idx := Z.land (size_t (idx + 1)) mask in
        m <- shift_loop fuel2 m mask dest idx ;;
        Done (0, set_size m (size_t (size m - 1)))
      else remove_loop fuel' fuel2 m mask (Z.land (size_t (idx + 1)) mask)
                       key (size_t (p + 1))
  end.

Definition nghttp3_map_remove (fuel : nat) (m : nghttp3_map) (key : Z)
  : outcome (Z * nghttp3_map) :=
  if size m =? 0 then Done (NGHTTP3_ERR_INVALID_ARGUMENT, m)
  else
    let idx := map_index m key in
    let mask := size_t (size_t (Z.shiftl 1 (hashbits m)) - 1) in
    remove_loop fuel fuel m mask idx key 1.

(** ** Clear *)
Definition nghttp3_map_clear (m : nghttp3_map) : nghttp3_map :=
  if size m =? 0 then m
  else
    let m := set_psl m (calloc (size_t (Z.shiftl 1 (hashbits m)))) in
    set_size m 0.

(** ** Size

    [nghttp3_map_size] returns [map->size]. *)
Definition nghttp3_map_size (m : nghttp3_map) : Z := size m.

(* ================================================================== *)
(** * Slots, distances and counts *)
(* ================================================================== *)

(** Number of nonzero cells of an array (live slots of a [psl] array). *)
Fixpoint nonzero_count (a : list Z) : Z :=
  match a with
  | [] => 0
  | x :: t => (if x =? 0 then 0 else 1) + nonzero_count t
  end.

(** 1 for a nonzero cell, 0 for a zero cell. *)
Definition nz (x : Z) : Z := if x =? 0 then 0 else 1.

(** The successor of a slot, with wrap-around at the table length. *)
Definition nxt (T i : Z) : Z := (i + 1) mod T.

(** Number of forward steps from slot [a] to slot [i]. *)
Definition dist (T a i : Z) : Z := (i - a) mod T.

(** The slot [t] steps before slot [j]. *)
Definition back (T j t : Z) : Z := (j - t) mod T.

(** Slot count of an allocated table. *)
Definition tablelen (m : nghttp3_map) : Z := 2 ^ hashbits m.

(** Number of slots with nonzero [psl]. *)
Definition live_count (m : nghttp3_map) : Z := nonzero_count (psl m).

(** Live slots of the old table among its first [i] slots. *)
Definition live_before (old : nghttp3_map) (i : Z) : Z :=
  nonzero_count (firstn (Z.to_nat i) (psl old)).

(** The load-factor bound of [nghttp3_map_insert]:
    [tablelen - (tablelen >> 3)]. *)
Definition threshold (T : Z) : Z := T - Z.shiftr T 3.

(** Some budget that is large enough for a table and at least [fuel]. *)
Definition enough (fuel : nat) (m : nghttp3_map) : nat :=
  Nat.max fuel (Z.to_nat (Z.max 16 (2 * tablelen m))).

(* ================================================================== *)
(** * Well-formed tables and what they hold *)
(* ================================================================== *)

(** An allocated table: the three arrays have [2^hashbits] cells and the
    [psl] cells hold bytes. *)
Record wf (m : nghttp3_map) : Prop := {
  wf_bits : 4 <= hashbits m <= 63;
  wf_keys : Z.of_nat (length (keys m)) = tablelen m;
  wf_data : Z.of_nat (length (data m)) = tablelen m;
  wf_psl : Z.of_nat (length (psl m)) = tablelen m;
  wf_byte : forall i, 0 <= i < tablelen m -> 0 <= rd (psl m) i <= 255
}.

(** A live slot holding [key] with value [val]. *)
Definition entry_at (m : nghttp3_map) (i key val : Z) : Prop :=
  0 <= i < tablelen m /\ rd (psl m) i <> 0 /\
  rd (keys m) i = key /\ rd (data m) i = val.

(** The table holds [key] with value [val] in some live slot. *)
Definition holds (m : nghttp3_map) (key val : Z) : Prop :=
  exists i, entry_at m i key val.

(** A table that was never grown. *)
Definition unallocated (m : nghttp3_map) : Prop :=
  hashbits m = 0 /\ size m = 0 /\
  keys m = [] /\ data m = [] /\ psl m = [].

(** What every table built by the public functions satisfies, whatever
    happened to the stored probe lengths: it is unallocated, or its
    arrays are sized by [hashbits], it has no more live slots than
    [size], and [size] is below 7/8 of the slot count. *)
Definition WInv (m : nghttp3_map) : Prop :=
  unallocated m \/
  (wf m /\ live_count m <= size m /\
   size m < threshold (tablelen m)).

(** The live slots hold pairwise distinct keys. *)
Definition keys_distinct (m : nghttp3_map) : Prop :=
  forall i j, 0 <= i < tablelen m -> 0 <= j < tablelen m ->
    rd (psl m) i <> 0 -> rd (psl m) j <> 0 ->
    rd (keys m) i = rd (keys m) j -> i = j.

(* ================================================================== *)
(** * The Robin Hood invariant *)
(* ================================================================== *)

(** The invariants of the data model, for an allocated table:
    - every live slot stores the number of probe steps from the ideal
      slot of its key, plus one;
    - going one slot forward, the stored psl grows by at most one (an
      empty slot is followed by an empty slot or by an entry at its
      ideal position): the Robin Hood ordering;
    - live slots hold pairwise distinct keys and non-null values. *)
Record Inv_core (m : nghttp3_map) : Prop := {
  ic_wf : wf m;
  ic_exact : forall i, 0 <= i < tablelen m -> rd (psl m) i <> 0 ->
    rd (psl m) i = dist (tablelen m) (map_index m (rd (keys m) i)) i + 1;
  ic_order : forall i, 0 <= i < tablelen m ->
    rd (psl m) (nxt (tablelen m) i) <= rd (psl m) i + 1;
  ic_distinct : forall i j, 0 <= i < tablelen m -> 0 <= j < tablelen m ->
    rd (psl m) i <> 0 -> rd (psl m) j <> 0 ->
    rd (keys m) i = rd (keys m) j -> i = j;
  ic_data : forall i, 0 <= i < tablelen m -> rd (psl m) i <> 0 ->
    rd (data m) i <> 0
}.

(** The full invariant: [size] counts the live slots and stays below
    the load factor. *)
Definition Inv (m : nghttp3_map) : Prop :=
  unallocated m \/
  (Inv_core m /\ live_count m = size m /\ size m < threshold (tablelen m)).

(** No stored probe length has been truncated: every entry counted by
    [size] is a live slot. *)
Definition intact (m : nghttp3_map) : Prop := live_count m = size m.

(** The state of the probing loop of [map_insert] for a key that is not
    in the table: [p] is the exact probe length of the carried entry at
    [idx]; the slot before [idx] holds an entry at least as far from
    home as the carried one minus one step; [e] is an empty slot
    ahead. *)
Record carried (m : nghttp3_map) (idx key val p e : Z) : Prop := {
  cr_core : Inv_core m;
  cr_idx : 0 <= idx < tablelen m;
  cr_exact : p = dist (tablelen m) (map_index m key) idx + 1;
  cr_absent : forall v, ~ holds m key v;
  cr_val : val <> 0;
  cr_prev : forall i0, 0 <= i0 < tablelen m -> nxt (tablelen m) i0 = idx ->
                       p <= rd (psl m) i0 + 1;
  cr_hole : 0 <= e < tablelen m /\ rd (psl m) e = 0;
  cr_room : p + dist (tablelen m) idx e <= tablelen m;
  cr_size : 0 <= size m < 2 ^ 63
}.

(** The invariant while the backward shift is under way: slot [h] is a
    hole (its content is stale and will be overwritten or cleared); the
    other slots satisfy the invariant, and the entry after the hole may
    be up to two steps further from home than the entry before it. *)
Record Inv_hole (m : nghttp3_map) (h : Z) : Prop := {
  ih_wf : wf m;
  ih_exact : forall i, 0 <= i < tablelen m -> i <> h -> rd (psl m) i <> 0 ->
    rd (psl m) i = dist (tablelen m) (map_index m (rd (keys m) i)) i + 1;
  ih_order : forall i, 0 <= i < tablelen m -> i <> h ->
    nxt (tablelen m) i <> h ->
    rd (psl m) (nxt (tablelen m) i) <= rd (psl m) i + 1;
  ih_across : forall i, 0 <= i < tablelen m -> nxt (tablelen m) i = h ->
    rd (psl m) (nxt (tablelen m) h) <= rd (psl m) i + 2;
  ih_distinct : forall i j, 0 <= i < tablelen m -> 0 <= j < tablelen m ->
    i <> h -> j <> h -> rd (psl m) i <> 0 -> rd (psl m) j <> 0 ->
    rd (keys m) i = rd (keys m) j -> i = j;
  ih_data : forall i, 0 <= i < tablelen m -> i <> h -> rd (psl m) i <> 0 ->
    rd (data m) i <> 0
}.

(** The entries of [m] outside slot [h]. *)
Definition others (m : nghttp3_map) (h k v : Z) : Prop :=
  exists i, i <> h /\ entry_at m i k v.

(* ================================================================== *)
(** * Histories of calls *)
(* ================================================================== *)

(** A call of a mutating public function with its return value. *)
Inductive event : Type :=
| EvInsert (key val rv : Z)
| EvRemove (key rv : Z)
| EvClear.

(** [reach tr m]: the table [m] is obtained from [nghttp3_map_init] by
    the calls of [tr] (latest call first).  Keys and the seed are
    [uint64_t] values; the allocator may fail at any growth. *)
Inductive reach : list event -> nghttp3_map -> Prop :=
| reach_init (seed0 : Z) :
    0 <= seed0 < 2 ^ 64 -> reach [] (nghttp3_map_init seed0)
| reach_insert (tr : list event) (m : nghttp3_map) (fuel : nat) (ok : bool)
    (key val rv : Z) (m' : nghttp3_map) :
    reach tr m -> 0 <= key < 2 ^ 64 ->
    nghttp3_map_insert fuel ok m key val = Done (rv, m') ->
    reach (EvInsert key val rv :: tr) m'
| reach_remove (tr : list event) (m : nghttp3_map) (fuel : nat)
    (key rv : Z) (m' : nghttp3_map) :
    reach tr m -> 0 <= key < 2 ^ 64 ->
    nghttp3_map_remove fuel m key = Done (rv, m') ->
    reach (EvRemove key rv :: tr) m'
| reach_clear (tr : list event) (m : nghttp3_map) :
    reach tr m -> reach (EvClear :: tr) (nghttp3_map_clear m).

(** The finite map a history describes: the value bound to each key,
    [0] (NULL) for a key that is not bound.  A successful insert binds
    the key, a successful remove unbinds it, clear unbinds all keys. *)
Definition aset (M : Z -> Z) (k v : Z) : Z -> Z :=
  fun k' => if k' =? k then v else M k'.

Fixpoint model (tr : list event) : Z -> Z :=
  match tr with
  | [] => fun _ => 0
  | EvInsert k v rv :: tr' =>
      if rv =? 0 then aset (model tr') k v else model tr'
  | EvRemove k rv :: tr' =>
      if rv =? 0 then aset (model tr') k 0 else model tr'
  | EvClear :: tr' => fun _ => 0
  end.

(** The live slots of [m] hold exactly the bindings of [M]. *)
Definition content (m : nghttp3_map) (M : Z -> Z) : Prop :=
  forall k v, holds m k v <-> (v <> 0 /\ M k = v).

(** Successful inserts minus successful removes since the table was
    created or last cleared. *)
Fixpoint net_inserts (tr : list event) : Z :=
  match tr with
  | [] => 0
  | EvInsert _ _ rv :: tr' => net_inserts tr' + (if rv =? 0 then 1 else 0)
  | EvRemove _ rv :: tr' => net_inserts tr' - (if rv =? 0 then 1 else 0)
  | EvClear :: tr' => 0
  end.

(** The largest value [size] has taken in the course of a history. *)
Fixpoint peak (tr : list event) : Z :=
  match tr with
  | [] => 0
  | _ :: tr' => Z.max (net_inserts tr) (peak tr')
  end.

(** The number of inserts, and of removes, that returned 0. *)
Fixpoint ok_inserts (tr : list event) : Z :=
  match tr with
  | [] => 0
  | EvInsert _ _ rv :: tr' => ok_inserts tr' + (if rv =? 0 then 1 else 0)
  | _ :: tr' => ok_inserts tr'
  end.

Fixpoint ok_removes (tr : list event) : Z :=
  match tr with
  | [] => 0
  | EvRemove _ rv :: tr' => ok_removes tr' + (if rv =? 0 then 1 else 0)
  | _ :: tr' => ok_removes tr'
  end.

(** The part of a history (newest event first) that follows the last
    [nghttp3_map_clear]. *)
Fixpoint since_clear (tr : list event) : list event :=
  match tr with
  | [] => []
  | EvClear :: _ => []
  | e :: tr' => e :: since_clear tr'
  end.

(** Every call of the history returned 0. *)
Definition all_succeeded (tr : list event) : bool :=
  forallb (fun e => match e with
                    | EvInsert _ _ rv => rv =? 0
                    | EvRemove _ rv => rv =? 0
                    | EvClear => true
                    end) tr.

(** The keys of the inserts of a history. *)
Definition inserted_keys (tr : list event) : list Z :=
  flat_map (fun e => match e with
                     | EvInsert k _ _ => [k]
                     | _ => []
                     end) tr.

(** Pairwise distinct, as a test. *)
Fixpoint distinctb (l : list Z) : bool :=
  match l with
  | [] => true
  | x :: t => negb (existsb (Z.eqb x) t) && distinctb t
  end.

(* ================================================================== *)
(** * Replaying a list of calls *)
(* ================================================================== *)

(** A call of a public function, with the answer of the allocator for
    an insert. *)
Inductive op : Type :=
| OpInsert (calloc_ok : bool) (key val : Z)
| OpRemove (key : Z)
| OpClear.

(** The values of [nghttp3_map_key_type]. *)
Definition is_u64 (x : Z) : bool := (0 <=? x) && (x <? 2 ^ 64).

(** Runs the calls in order, recording each return value. *)
Fixpoint replay (fuel : nat) (ops : list op) (tr : list event)
    (m : nghttp3_map) : outcome (list event * nghttp3_map) :=
  match ops with
  | [] => Done (tr, m)
  | OpInsert ok key val :: rest =>
      if is_u64 key then
        r <- nghttp3_map_insert fuel ok m key val ;;
        replay fuel rest (EvInsert key val (fst r) :: tr) (snd r)
      else AssertFail
  | OpRemove key :: rest =>
      if is_u64 key then
        r <- nghttp3_map_remove fuel m key ;;
        replay fuel rest (EvRemove key (fst r) :: tr) (snd r)
      else AssertFail
  | OpClear :: rest => replay fuel rest (EvClear :: tr) (nghttp3_map_clear m)
  end.

(** Inserts the pairs in order; stops at the first insert that fails. *)
Definition run_inserts (fuel : nat) (m : nghttp3_map) (kvs : list (Z * Z))
  : outcome nghttp3_map :=
  fold_left
    (fun acc kv =>
       m <- acc ;;
       r <- nghttp3_map_insert fuel true m (fst kv) (snd kv) ;;
       if fst r =? 0 then Done (snd r) else AssertFail)
    kvs (Done m).

(* ================================================================== *)
(** * Enumeration in slot order *)
(* ================================================================== *)

(** Values of the slots with nonzero psl, in ascending slot order. *)
Fixpoint live_values (ps ds : list Z) : list Z :=
  match ps, ds with
  | p :: ps', d :: ds' =>
      if p =? 0 then live_values ps' ds' else d :: live_values ps' ds'
  | _, _ => []
  end.

(** Calls the callback on each value in turn, once, until a call
    returns a nonzero code, which is then the result; 0 otherwise. *)
Fixpoint visit {St : Type} (func : Z -> St -> Z * St) (vals : list Z)
    (s : St) : Z * St :=
  match vals with
  | [] => (0, s)
  | v :: rest =>
      let '(rv, s') := func v s in
      if rv =? 0 then visit func rest s' else (rv, s')
  end.

(** A callback that records the values it is given and fails on 33. *)
Definition log_until_33 (v : Z) (s : list Z) : Z * list Z :=
  (if v =? 33 then -1 else 0, v :: s).

(* ================================================================== *)
(** * Example tables *)
(* ================================================================== *)

(** A small table: keys 1, 2, 3 inserted with seed 0. *)
Definition demo_ops : list op :=
  [OpInsert true 1 11; OpInsert true 2 22; OpInsert true 3 33].

Definition demo_tr : list event :=
  Eval vm_compute in
    match replay 16 demo_ops [] (nghttp3_map_init 0) with
    | Done (tr, _) => tr
    | _ => []
    end.

Definition demo_map : nghttp3_map :=
  Eval vm_compute in
    match replay 16 demo_ops [] (nghttp3_map_init 0) with
    | Done (_, m) => m
    | _ => nghttp3_map_init 0
    end.

(** [demo_map] with key 4 added. *)
Definition demo_map4 : nghttp3_map :=
  Eval vm_compute in
    match nghttp3_map_insert 16 true demo_map 4 44 with
    | Done (_, m) => m
    | _ => demo_map
    end.

(** [demo_map] with key 2 removed. *)
Definition demo_map_less : nghttp3_map :=
  Eval vm_compute in
    match nghttp3_map_remove 16 demo_map 2 with
    | Done (_, m) => m
    | _ => demo_map
    end.

(** Keys 1 to 13, one short of the growth bound of a 16-slot table. *)
Definition full_ops : list op :=
  map (fun i => OpInsert true (Z.of_nat i + 1) (Z.of_nat i + 101)) (seq 0 13).

Definition full_tr : list event :=
  Eval vm_compute in
    match replay 16 full_ops [] (nghttp3_map_init 0) with
    | Done (tr, _) => tr
    | _ => []
    end.

Definition full_map : nghttp3_map :=
  Eval vm_compute in
    match replay 16 full_ops [] (nghttp3_map_init 0) with
    | Done (_, m) => m
    | _ => nghttp3_map_init 0
    end.

(** [full_map] rebuilt with 32 slots. *)
Definition grown_map : nghttp3_map :=
  Eval vm_compute in
    match map_resize 32 true full_map 5 with
    | Done (_, m) => m
    | _ => full_map
    end.

(** One insert, then [nghttp3_map_clear]. *)
Definition cleared_ops : list op := [OpInsert true 1 11; OpClear].

Definition cleared_tr : list event :=
  Eval vm_compute in
    match replay 16 cleared_ops [] (nghttp3_map_init 0) with
    | Done (tr, _) => tr
    | _ => []
    end.

Definition cleared_map : nghttp3_map :=
  Eval vm_compute in
    match replay 16 cleared_ops [] (nghttp3_map_init 0) with
    | Done (_, m) => m
    | _ => nghttp3_map_init 0
    end.

(* ================================================================== *)
(** * Keys chosen against the hash function *)
(* ================================================================== *)

(** Keys chosen against the hash function for seed 0.  The multiplier
    [hash_inverse] is the inverse of [HASHER * FIBO] modulo 2^64, so
    the hash product of [hashed_to x] is [x]: with [hashbits] bits the
    key lands in slot [x >> (64 - hashbits)]. *)
Definition hash_inverse : Z := 4106714746802295577.

Definition hashed_to (x : Z) : Z := u64 (x * hash_inverse).

(** Slot 0 of every table of at most 2^55 slots. *)
Definition colliding_key (i : Z) : Z := hashed_to i.

(** Slot [i] of a 512-slot table. *)
Definition spread_key (i : Z) : Z := hashed_to (i * 2 ^ 55).

(** Inserts of the first [n] colliding keys, with values 1 to [n]. *)
Definition colliding_inserts (n : nat) : list op :=
  map (fun i => OpInsert true (colliding_key (Z.of_nat i)) (Z.of_nat i + 1))
      (seq 0 n).

(** 255 keys with ideal slot 0: slots 0 to 254 hold them with psl 1 to
    255, in a table of 512 slots. *)
Definition chain_tr :=
  Eval vm_compute in
    match replay 600 (colliding_inserts 255) [] (nghttp3_map_init 0) with
    | Done (tr, _) => tr
    | _ => []
    end.

Definition chain_map :=
  Eval vm_compute in
    match replay 600 (colliding_inserts 255) [] (nghttp3_map_init 0) with
    | Done (_, m) => m
    | _ => nghttp3_map_init 0
    end.

(** The 256th colliding key: its probe length is 256, stored as 0. *)
Definition overflow_tr :=
  Eval vm_compute in
    match replay 600 [OpInsert true (colliding_key 255) 256]
                 chain_tr chain_map with
    | Done (tr, _) => tr
    | _ => []
    end.

Definition overflow_map :=
  Eval vm_compute in
    match replay 600 [OpInsert true (colliding_key 255) 256]
                 chain_tr chain_map with
    | Done (_, m) => m
    | _ => nghttp3_map_init 0
    end.

(** A key whose ideal slot in a 512-slot table is 255. *)
Definition far_key : Z := spread_key 255.

(** After the 255 colliding keys: [far_key], the 256th colliding key,
    and [far_key] again. *)
Definition shadow_ops : list op :=
  [OpInsert true far_key 1000;
   OpInsert true (colliding_key 255) 256;
   OpInsert true far_key 2000].

Definition shadow_tr :=
  Eval vm_compute in
    match replay 600 shadow_ops chain_tr chain_map with
    | Done (tr, _) => tr
    | _ => []
    end.

Definition shadow_map :=
  Eval vm_compute in
    match replay 600 shadow_ops chain_tr chain_map with
    | Done (_, m) => m
    | _ => nghttp3_map_init 0
    end.

(** [shadow_map] after one removal of [far_key]. *)
Definition removed_map :=
  Eval vm_compute in
    match nghttp3_map_remove 600 shadow_map far_key with
    | Done (_, m) => m
    | _ => nghttp3_map_init 0
    end.

(** 189 keys with ideal slots 300 to 488 of a 512-slot table. *)
Definition filler_ops : list op :=
  map (fun i => OpInsert true (spread_key (300 + Z.of_nat i))
                         (5000 + Z.of_nat i))
      (seq 0 189).

(** [shadow_map] filled up to the growth bound of its 512 slots. *)
Definition crowded_tr :=
  Eval vm_compute in
    match replay 600 filler_ops shadow_tr shadow_map with
    | Done (tr, _) => tr
    | _ => []
    end.

Definition crowded_map :=
  Eval vm_compute in
    match replay 600 filler_ops shadow_tr shadow_map with
    | Done (_, m) => m
    | _ => nghttp3_map_init 0
    end.

Example scenario_123 :
  match run_inserts 16 (nghttp3_map_init 0) [(1, 11); (2, 22); (3, 33)] with
  | Done m =>
      nghttp3_map_size m = 3 /\
      nghttp3_map_find 16 m 2 = Done 22 /\
      match nghttp3_map_remove 16 m 2 with
      | Done (rv, m') =>
          rv = 0 /\ nghttp3_map_size m' = 2 /\
          nghttp3_map_find 16 m' 2 = Done 0 /\
          nghttp3_map_find 16 m' 1 = Done 11 /\
          nghttp3_map_find 16 m' 3 = Done 33 /\
          nghttp3_map_remove 16 m' 2 = Done (NGHTTP3_ERR_INVALID_ARGUMENT, m')
      | _ => False
      end
  | _ => False
  end.
Proof. vm_compute. repeat split. Qed.

(* ================================================================== *)
(** * The hash function, inverted *)
(* ================================================================== *)

(** The key whose 64-bit hash product under [seed0] is [x]. *)
Definition unhash (seed0 x : Z) : Z := u64 (x * hash_inverse - seed0).

(** [demo_map4] with key 4 removed again: the slot keeps its stale key
    and value behind a zero psl. *)
Definition demo_map_back : nghttp3_map :=
  Eval vm_compute in
    match nghttp3_map_remove 16 demo_map4 4 with
    | Done (_, m) => m
    | _ => demo_map4
    end.

(** The 16-slot table that the first growth allocates. *)
Definition first_table (seed0 : Z) : nghttp3_map :=
  mk_map (calloc 16) (calloc 16) (calloc 16) seed0 0 4.

(** The table with the truncated entry, cleared, and the key that was
    lost inserted again. *)
Definition repaired_ops : list op :=
  [OpClear; OpInsert true (colliding_key 255) 256].

Definition repaired_tr :=
  Eval vm_compute in
    match replay 600 repaired_ops overflow_tr overflow_map with
    | Done (tr, _) => tr
    | _ => []
    end.

Definition repaired_map :=
  Eval vm_compute in
    match replay 600 repaired_ops overflow_tr overflow_map with
    | Done (_, m) => m
    | _ => nghttp3_map_init 0
    end.

(** A callback that records every value it is given and never fails. *)
Definition collect (v : Z) (s : list Z) : Z * list Z := (0, v :: s).

(** The line [nghttp3_map_print_distance] writes for slot [i]. *)
Definition slot_line (m : nghttp3_map) (i : Z) : string :=
  if rd (psl m) i =? 0 then empty_line i
  else entry_line i (rd (keys m) i) (map_index m (rd (keys m) i))
                  ((rd (psl m) i - 1) mod 2 ^ 32).

(** The slots [i], [i + 1], ..., [i + n - 1]. *)
Fixpoint slots_from (i : Z) (n : nat) : list Z :=
  match n with
  | O => []
  | S n' => i :: slots_from (i + 1) n'
  end.

(** [full_map] with a fourteenth key: the insert grows the table to 32
    slots first. *)
Definition full_map_more : nghttp3_map :=
  Eval vm_compute in
    match nghttp3_map_insert 32 true full_map 14 114 with
    | Done (_, m) => m
    | _ => full_map
    end.

(* ================================================================== *)
(** * Arrays: reading, writing, counting *)
(* ================================================================== *)

Lemma length_upd (a : list Z) (n : nat) (v : Z) :
  length (upd a n v) = length a.
Proof.
  revert n; induction a as [|x t IH]; intros [|n]; simpl; auto.
Qed.

Lemma nth_upd_same (a : list Z) (n : nat) (v d : Z) :
  (n < length a)%nat -> nth n (upd a n v) d = v.
Proof.
  revert n; induction a as [|x t IH]; intros [|n] H; simpl in *;
    try lia; auto.
  apply IH; lia.
Qed.

Lemma nth_upd_other (a : list Z) (n n' : nat) (v d : Z) :
  n <> n' -> nth n' (upd a n v) d = nth n' a d.
Proof.
  revert n n'; induction a as [|x t IH]; intros [|n] [|n'] H; simpl;
    auto; try congruence.
Qed.

Lemma length_wr (a : list Z) (i v : Z) : length (wr a i v) = length a.
Proof. apply length_upd. Qed.

Lemma rd_wr_same (a : list Z) (i v : Z) :
  0 <= i < Z.of_nat (length a) -> rd (wr a i v) i = v.
Proof.
  intros H; unfold rd, wr; apply nth_upd_same; lia.
Qed.

Lemma rd_wr_other (a : list Z) (i j v : Z) :
  0 <= i -> 0 <= j -> i <> j -> rd (wr a i v) j = rd a j.
Proof.
  intros Hi Hj Hne; unfold rd, wr; apply nth_upd_other; lia.
Qed.

Lemma rd_wr (a : list Z) (i j v : Z) :
  0 <= i < Z.of_nat (length a) -> 0 <= j ->
  rd (wr a i v) j = if j =? i then v else rd a j.
Proof.
  intros Hi Hj; destruct (Z.eqb_spec j i) as [->|Hne].
  - apply rd_wr_same; auto.
  - apply rd_wr_other; lia.
Qed.

Lemma rd_calloc (n i : Z) : rd (calloc n) i = 0.
Proof.
  unfold rd, calloc.
  generalize (Z.to_nat n) (Z.to_nat i); intros k j; revert j.
  induction k as [|k IH]; intros [|j]; simpl; auto.
Qed.

Lemma length_calloc (n : Z) : 0 <= n -> Z.of_nat (length (calloc n)) = n.
Proof. intros H; unfold calloc; rewrite repeat_length; lia. Qed.

Lemma nonzero_count_bounds (a : list Z) :
  0 <= nonzero_count a <= Z.of_nat (length a).
Proof.
  induction a as [|x t IH]; simpl length; simpl nonzero_count; [lia|].
  destruct (x =? 0); lia.
Qed.

Lemma nonzero_count_upd (a : list Z) (n : nat) (v : Z) :
  (n < length a)%nat ->
  nonzero_count (upd a n v) = nonzero_count a - nz (nth n a 0) + nz v.
Proof.
  revert n; induction a as [|x t IH]; intros [|n] H; simpl in *;
    try lia.
  - unfold nz; lia.
  - rewrite IH by lia; lia.
Qed.

Lemma nonzero_count_wr (a : list Z) (i v : Z) :
  0 <= i < Z.of_nat (length a) ->
  nonzero_count (wr a i v) = nonzero_count a - nz (rd a i) + nz v.
Proof.
  intros H; unfold wr, rd; apply nonzero_count_upd; lia.
Qed.

Lemma nonzero_count_calloc (n : Z) : nonzero_count (calloc n) = 0.
Proof.
  unfold calloc; induction (Z.to_nat n) as [|k IH]; simpl; auto.
Qed.

(** An array with fewer nonzero cells than cells has a zero cell. *)
Lemma nonzero_count_hole (a : list Z) :
  nonzero_count a < Z.of_nat (length a) ->
  exists i, 0 <= i < Z.of_nat (length a) /\ rd a i = 0.
Proof.
  induction a as [|x t IH]; simpl length; simpl nonzero_count; [lia|].
  intros H; destruct (Z.eqb_spec x 0) as [->|Hx].
  - exists 0; split; [lia|reflexivity].
  - destruct IH as (i & Hi & Hz); [lia|].
    exists (i + 1); split; [lia|].
    unfold rd in *; replace (Z.to_nat (i + 1)) with (S (Z.to_nat i)) by lia.
    exact Hz.
Qed.

Lemma nonzero_count_zero (a : list Z) (i : Z) :
  nonzero_count a <= 0 -> rd a i = 0.
Proof.
  unfold rd; generalize (Z.to_nat i); intros n; revert n.
  induction a as [|x t IH]; intros n; simpl nonzero_count; intros H.
  - destruct n; reflexivity.
  - pose proof (nonzero_count_bounds t).
    destruct (Z.eqb_spec x 0) as [->|Hx]; [|lia].
    destruct n; simpl; [reflexivity | apply IH; lia].
Qed.

(** Counting over a prefix, one cell at a time. *)
Lemma nonzero_count_firstn_S (a : list Z) (n : nat) :
  nonzero_count (firstn (S n) a) = nonzero_count (firstn n a) + nz (nth n a 0).
Proof.
  revert n; induction a as [|x t IH]; intros n.
  - rewrite !firstn_nil. destruct n; reflexivity.
  - destruct n as [|n].
    + simpl. unfold nz; lia.
    + rewrite !firstn_cons. cbn [nonzero_count nth]. rewrite IH. lia.
Qed.

(* ================================================================== *)
(** * Index arithmetic *)
(* ================================================================== *)

Lemma size_t_small (x : Z) : 0 <= x < 2 ^ 64 -> size_t x = x.
Proof. intros H; unfold size_t; apply Z.mod_small; exact H. Qed.

Lemma u8_small (x : Z) : 0 <= x < 256 -> u8 x = x.
Proof. intros H; unfold u8; apply Z.mod_small; simpl; lia. Qed.

Lemma pow2_bounds (b : Z) : 4 <= b <= 63 -> 16 <= 2 ^ b <= 2 ^ 63.
Proof.
  intros H; split.
  - change 16 with (2 ^ 4); apply Z.pow_le_mono_r; lia.
  - apply Z.pow_le_mono_r; lia.
Qed.

Lemma shiftl_one (b : Z) : 0 <= b -> Z.shiftl 1 b = 2 ^ b.
Proof. intros H; rewrite Z.shiftl_1_l; reflexivity. Qed.

Lemma nxt_spec (T i : Z) :
  0 <= i < T ->
  (nxt T i = i + 1 /\ i + 1 < T) \/ (nxt T i = 0 /\ i + 1 = T).
Proof.
  intros H; unfold nxt; destruct (Z.eq_dec (i + 1) T) as [E|E].
  - right; split; auto. rewrite E; apply Z.mod_same; lia.
  - left; split; [apply Z.mod_small|]; lia.
Qed.

Lemma dist_spec (T a i : Z) :
  0 <= a < T -> 0 <= i < T ->
  (dist T a i = i - a /\ a <= i) \/ (dist T a i = i - a + T /\ i < a).
Proof.
  intros Ha Hi; unfold dist; destruct (Z_le_gt_dec a i) as [L|G].
  - left; split; auto; apply Z.mod_small; lia.
  - right; split; [|lia].
    rewrite <- (Z.mod_add (i - a) 1 T) by lia.
    rewrite Z.mod_small by lia; lia.
Qed.

Lemma nxt_range (T i : Z) : 0 <= i < T -> 0 <= nxt T i < T.
Proof. intros H; destruct (nxt_spec T i H); lia. Qed.

(** The mask and the masked increment of the source. *)
Lemma mask_eq (b : Z) :
  4 <= b <= 63 -> size_t (size_t (Z.shiftl 1 b) - 1) = 2 ^ b - 1.
Proof.
  intros H; pose proof (pow2_bounds b H).
  rewrite shiftl_one by lia.
  assert (2 ^ 63 < 2 ^ 64) by (apply Z.pow_lt_mono_r; lia).
  rewrite (size_t_small (2 ^ b)) by lia. apply size_t_small; lia.
Qed.

Lemma tablelen_eq (b : Z) :
  4 <= b <= 63 -> size_t (Z.shiftl 1 b) = 2 ^ b.
Proof.
  intros H; pose proof (pow2_bounds b H).
  rewrite shiftl_one by lia.
  assert (2 ^ 63 < 2 ^ 64) by (apply Z.pow_lt_mono_r; lia).
  apply size_t_small; lia.
Qed.

Lemma step_eq (b i : Z) :
  4 <= b <= 63 -> 0 <= i < 2 ^ b ->
  Z.land (size_t (i + 1)) (2 ^ b - 1) = nxt (2 ^ b) i.
Proof.
  intros H Hi; pose proof (pow2_bounds b H).
  assert (2 ^ 63 < 2 ^ 64) by (apply Z.pow_lt_mono_r; lia).
  rewrite size_t_small by lia.
  replace (2 ^ b - 1) with (Z.ones b) by (rewrite Z.ones_equiv; lia).
  rewrite Z.land_ones by lia. reflexivity.
Qed.

Lemma map_index_range (m : nghttp3_map) (key : Z) :
  4 <= hashbits m <= 63 -> 0 <= map_index m key < 2 ^ hashbits m.
Proof.
  intros H; unfold map_index.
  set (x := u64 (_ * NGHTTP3_MAP_FIBO)).
  assert (Hx : 0 <= x < 2 ^ 64) by (apply Z.mod_pos_bound; reflexivity).
  rewrite Z.shiftr_div_pow2 by lia.
  assert (Hp : 0 < 2 ^ (64 - hashbits m)) by (apply Z.pow_pos_nonneg; lia).
  split.
  - apply Z.div_pos; lia.
  - apply Z.div_lt_upper_bound; [lia|].
    rewrite <- Z.pow_add_r by lia.
    replace (64 - hashbits m + hashbits m) with 64 by lia. lia.
Qed.

(* ================================================================== *)
(** * Well-formed tables *)
(* ================================================================== *)

Ltac msimpl :=
  cbn [map_set_entry set_keys set_data set_psl set_size
       keys data psl seed size hashbits fst snd] in *.

Lemma tablelen_bounds (m : nghttp3_map) :
  wf m -> 16 <= tablelen m <= 2 ^ 63.
Proof. intros [H _ _ _ _]; apply pow2_bounds; exact H. Qed.

Lemma u8_range (x : Z) : 0 <= u8 x <= 255.
Proof.
  unfold u8; pose proof (Z.mod_pos_bound x (2 ^ 8) eq_refl).
  change (2 ^ 8) with 256 in *; lia.
Qed.

Lemma wf_set_entry (m : nghttp3_map) (idx key val p : Z) :
  wf m -> 0 <= idx < tablelen m -> wf (map_set_entry m idx key val p).
Proof.
  intros [Hb Hk Hd Hp Hy] Hi; constructor; unfold tablelen in *; msimpl;
    rewrite ?length_wr; auto.
  intros i Hr; rewrite rd_wr by lia.
  destruct (i =? idx); [apply u8_range | apply Hy; exact Hr].
Qed.

Lemma wf_set_size (m : nghttp3_map) (n : Z) : wf m -> wf (set_size m n).
Proof. intros [Hb Hk Hd Hp Hy]; constructor; auto. Qed.

Lemma live_set_entry (m : nghttp3_map) (idx key val p : Z) :
  wf m -> 0 <= idx < tablelen m ->
  live_count (map_set_entry m idx key val p)
  = live_count m - nz (rd (psl m) idx) + nz (u8 p).
Proof.
  intros Hw Hi; unfold live_count; msimpl.
  apply nonzero_count_wr. rewrite (wf_psl m Hw); exact Hi.
Qed.

Lemma psl_set_entry (m : nghttp3_map) (idx key val p j : Z) :
  wf m -> 0 <= idx < tablelen m -> 0 <= j ->
  rd (psl (map_set_entry m idx key val p)) j
  = if j =? idx then u8 p else rd (psl m) j.
Proof.
  intros Hw Hi Hj; msimpl; apply rd_wr; [rewrite (wf_psl m Hw)|]; lia.
Qed.

Lemma keys_set_entry (m : nghttp3_map) (idx key val p j : Z) :
  wf m -> 0 <= idx < tablelen m -> 0 <= j ->
  rd (keys (map_set_entry m idx key val p)) j
  = if j =? idx then key else rd (keys m) j.
Proof.
  intros Hw Hi Hj; msimpl; apply rd_wr; [rewrite (wf_keys m Hw)|]; lia.
Qed.

Lemma data_set_entry (m : nghttp3_map) (idx key val p j : Z) :
  wf m -> 0 <= idx < tablelen m -> 0 <= j ->
  rd (data (map_set_entry m idx key val p)) j
  = if j =? idx then val else rd (data m) j.
Proof.
  intros Hw Hi Hj; msimpl; apply rd_wr; [rewrite (wf_data m Hw)|]; lia.
Qed.

Lemma nz_bounds (x : Z) : 0 <= nz x <= 1.
Proof. unfold nz; destruct (x =? 0); lia. Qed.

Lemma nz_zero (x : Z) : x = 0 -> nz x = 0.
Proof. intros ->; reflexivity. Qed.

Lemma nz_nonzero (x : Z) : x <> 0 -> nz x = 1.
Proof. intros H; unfold nz; destruct (Z.eqb_spec x 0); congruence. Qed.

Lemma step_tablelen (m : nghttp3_map) (i : Z) :
  wf m -> 0 <= i < tablelen m ->
  Z.land (size_t (i + 1)) (tablelen m - 1) = nxt (tablelen m) i.
Proof. intros Hw Hi; apply step_eq; [apply Hw | exact Hi]. Qed.

Lemma mask_tablelen (m : nghttp3_map) :
  wf m -> size_t (size_t (Z.shiftl 1 (hashbits m)) - 1) = tablelen m - 1.
Proof. intros Hw; apply mask_eq, Hw. Qed.

(** One iteration of the probing loop of [map_insert]; the three swaps
    of the displacement branch store the incoming entry exactly as
    [map_set_entry] would. *)
Lemma map_insert_loop_S (fuel : nat) (m : nghttp3_map)
    (mask idx key val p : Z) :
  map_insert_loop (S fuel) m mask idx key val p =
  if rd (psl m) idx =? 0 then
    Done (0, set_size (map_set_entry m idx key val p) (size_t (size m + 1)))
  else if p >? rd (psl m) idx then
    map_insert_loop fuel (map_set_entry m idx key val p) mask
      (Z.land (size_t (idx + 1)) mask)
      (rd (keys m) idx) (rd (data m) idx) (size_t (rd (psl m) idx + 1))
  else if rd (keys m) idx =? key then Done (NGHTTP3_ERR_INVALID_ARGUMENT, m)
  else
    map_insert_loop fuel m mask (Z.land (size_t (idx + 1)) mask) key val
      (size_t (p + 1)).
Proof. reflexivity. Qed.

(** Moving one slot forward brings a different slot one step closer. *)
Lemma dist_step (T i e : Z) :
  0 <= i < T -> 0 <= e < T -> i <> e ->
  dist T (nxt T i) e = dist T i e - 1.
Proof.
  intros Hi He Hne.
  pose proof (nxt_range T i Hi) as Hn.
  destruct (nxt_spec T i Hi) as [[-> ?]|[-> ?]];
    destruct (dist_spec T i e Hi He) as [[-> ?]|[-> ?]];
    [destruct (dist_spec T (i + 1) e) as [[-> ?]|[-> ?]]
    |destruct (dist_spec T (i + 1) e) as [[-> ?]|[-> ?]]
    |destruct (dist_spec T 0 e) as [[-> ?]|[-> ?]]
    |destruct (dist_spec T 0 e) as [[-> ?]|[-> ?]]]; lia.
Qed.

Lemma dist_range (T a i : Z) :
  0 <= a < T -> 0 <= i < T -> 0 <= dist T a i < T.
Proof. intros Ha Hi; destruct (dist_spec T a i Ha Hi) as [[-> ?]|[-> ?]]; lia. Qed.

Lemma dist_zero (T a i : Z) :
  0 <= a < T -> 0 <= i < T -> dist T a i = 0 -> a = i.
Proof. intros Ha Hi; destruct (dist_spec T a i Ha Hi) as [[-> ?]|[-> ?]]; lia. Qed.

Lemma dist_self (T a : Z) : 0 <= a < T -> dist T a a = 0.
Proof. intros Ha; destruct (dist_spec T a a Ha Ha) as [[-> ?]|[-> ?]]; lia. Qed.

(* ================================================================== *)
(** * The probing loops terminate *)
(* ================================================================== *)

(** [map_insert]'s loop, started anywhere on a table that has an empty
    slot [e], stops within [dist idx e + 1] iterations; it adds at most
    one live slot and increments [size] exactly when it returns 0. *)
Lemma map_insert_loop_weak (fuel : nat) :
  forall (m : nghttp3_map) (idx key val p e : Z),
    wf m -> 0 <= idx < tablelen m -> 0 <= e < tablelen m ->
    rd (psl m) e = 0 -> dist (tablelen m) idx e < Z.of_nat fuel ->
    0 <= size m < 2 ^ 63 ->
    exists rv m',
      map_insert_loop fuel m (tablelen m - 1) idx key val p = Done (rv, m') /\
      wf m' /\ hashbits m' = hashbits m /\ seed m' = seed m /\
      ((rv = 0 /\ size m' = size m + 1 /\ live_count m' <= live_count m + 1) \/
       (rv = NGHTTP3_ERR_INVALID_ARGUMENT /\ size m' = size m /\
        live_count m' <= live_count m)).
Proof.
  induction fuel as [|fuel IH]; intros m idx key val p e Hw Hi He Hz Hf Hs.
  - pose proof (dist_range _ _ _ Hi He); lia.
  - rewrite map_insert_loop_S.
    pose proof (tablelen_bounds m Hw) as HT.
    pose proof (wf_byte m Hw idx Hi) as Hb.
    destruct (Z.eqb_spec (rd (psl m) idx) 0) as [E0|N0].
    + eexists _, _; split; [reflexivity|].
      split; [apply wf_set_size, wf_set_entry; auto|].
      split; [reflexivity|]. split; [reflexivity|]. left.
      split; [reflexivity|]. split.
      * msimpl. apply size_t_small.
        assert (2 ^ 63 < 2 ^ 64) by (apply Z.pow_lt_mono_r; lia). lia.
      * change (live_count (set_size ?x _)) with (live_count x).
        rewrite live_set_entry by auto. rewrite (nz_zero _ E0).
        pose proof (nz_bounds (u8 p)); lia.
    + assert (Hne : idx <> e) by congruence.
      rewrite step_tablelen by auto.
      pose proof (nxt_range _ _ Hi) as Hn.
      pose proof (dist_step _ _ _ Hi He Hne) as Hd.
      destruct (p >? rd (psl m) idx).
      * pose proof (wf_set_entry m idx key val p Hw Hi) as Hw1.
        destruct (IH (map_set_entry m idx key val p) (nxt (tablelen m) idx)
                    (rd (keys m) idx) (rd (data m) idx)
                    (size_t (rd (psl m) idx + 1)) e)
          as (rv & m' & Hr & Hw' & Hh & Hsd & Hc); auto.
        { rewrite psl_set_entry by (auto; lia).
          destruct (Z.eqb_spec e idx); [congruence | exact Hz]. }
        { change (tablelen (map_set_entry m idx key val p)) with (tablelen m).
          lia. }
        exists rv, m'. split; [exact Hr|]. split; [exact Hw'|].
        split; [exact Hh|]. split; [exact Hsd|].
        rewrite live_set_entry in Hc by auto.
        rewrite (nz_nonzero _ N0) in Hc.
        pose proof (nz_bounds (u8 p)). msimpl.
        destruct Hc as [(? & ? & ?)|(? & ? & ?)]; [left|right];
          repeat split; auto; lia.
      * destruct (rd (keys m) idx =? key).
        -- exists NGHTTP3_ERR_INVALID_ARGUMENT, m.
           repeat split; try apply Hw; auto. right; repeat split; lia.
        -- apply (IH m _ key val _ e); auto. lia.
Qed.

Lemma find_loop_S (fuel : nat) (m : nghttp3_map) (mask idx key p : Z) :
  find_loop (S fuel) m mask idx key p =
  if p >? rd (psl m) idx then Done 0
  else if rd (keys m) idx =? key then Done (rd (data m) idx)
  else find_loop fuel m mask (Z.land (size_t (idx + 1)) mask) key
         (size_t (p + 1)).
Proof. reflexivity. Qed.

Lemma two63_lt : 2 ^ 63 < 2 ^ 64.
Proof. reflexivity. Qed.

(** The lookup loop stops within [dist idx e + 1] iterations, with a
    miss or with the value of a live slot that holds the key. *)
Lemma find_loop_weak (fuel : nat) :
  forall (m : nghttp3_map) (idx key p e : Z),
    wf m -> 0 <= idx < tablelen m -> 0 <= e < tablelen m ->
    rd (psl m) e = 0 -> dist (tablelen m) idx e < Z.of_nat fuel ->
    1 <= p -> p + dist (tablelen m) idx e <= 2 ^ 63 ->
    exists r,
      find_loop fuel m (tablelen m - 1) idx key p = Done r /\
      (r = 0 \/ holds m key r).
Proof.
  induction fuel as [|fuel IH]; intros m idx key p e Hw Hi He Hz Hf Hp Hb.
  - pose proof (dist_range _ _ _ Hi He); lia.
  - rewrite find_loop_S.
    destruct (Z.gtb_spec p (rd (psl m) idx)) as [G|L].
    + exists 0; auto.
    + destruct (Z.eqb_spec (rd (keys m) idx) key) as [E|N].
      * eexists; split; [reflexivity|]. right; exists idx.
        repeat split; auto; lia.
      * assert (Hne : idx <> e) by (intros ->; lia).
        rewrite step_tablelen by auto.
        pose proof (dist_step _ _ _ Hi He Hne) as Hd.
        pose proof (dist_range _ _ _ Hi He).
        pose proof two63_lt.
        rewrite size_t_small by lia.
        apply (IH m _ key _ e); auto; try lia.
        apply nxt_range; auto.
Qed.

Lemma shift_loop_S (fuel : nat) (m : nghttp3_map) (mask dest idx : Z) :
  shift_loop (S fuel) m mask dest idx =
  if rd (psl m) idx <=? 1 then Done (set_psl m (wr (psl m) dest 0))
  else
    shift_loop fuel
      (map_set_entry m dest (rd (keys m) idx) (rd (data m) idx)
         (size_t (rd (psl m) idx - 1)))
      mask idx (Z.land (size_t (idx + 1)) mask).
Proof. reflexivity. Qed.

Lemma wf_clear_slot (m : nghttp3_map) (dest : Z) :
  wf m -> 0 <= dest < tablelen m -> wf (set_psl m (wr (psl m) dest 0)).
Proof.
  intros [Hb Hk Hd Hp Hy] Hi; constructor; unfold tablelen in *; msimpl;
    rewrite ?length_wr; auto.
  intros i Hr; rewrite rd_wr by lia.
  destruct (i =? dest); [lia | apply Hy; exact Hr].
Qed.

(** The psl written by the backward shift is the old one minus one; it
    is a nonzero byte. *)
Lemma shifted_psl (k : Z) : 2 <= k <= 255 -> u8 (size_t (k - 1)) = k - 1.
Proof.
  intros H; pose proof two63_lt.
  rewrite size_t_small by lia. apply u8_small; lia.
Qed.

(** The backward-shift loop stops at the first slot with [psl <= 1]; it
    turns exactly one live slot into an empty one. *)
Lemma shift_loop_weak (fuel : nat) :
  forall (m : nghttp3_map) (dest idx e : Z),
    wf m -> 0 <= dest < tablelen m -> idx = nxt (tablelen m) dest ->
    0 <= e < tablelen m -> rd (psl m) e = 0 -> rd (psl m) dest <> 0 ->
    dist (tablelen m) idx e < Z.of_nat fuel ->
    exists m',
      shift_loop fuel m (tablelen m - 1) dest idx = Done m' /\
      wf m' /\ hashbits m' = hashbits m /\ seed m' = seed m /\
      size m' = size m /\ live_count m' = live_count m - 1.
Proof.
  induction fuel as [|fuel IH]; intros m dest idx e Hw Hd Hx He Hz Hl Hf.
  - pose proof (nxt_range _ _ Hd).
    pose proof (dist_range (tablelen m) idx e); lia.
  - rewrite shift_loop_S.
    pose proof (nxt_range _ _ Hd) as Hi; rewrite <- Hx in Hi.
    pose proof (wf_byte m Hw idx Hi) as Hb.
    destruct (Z.leb_spec (rd (psl m) idx) 1) as [L|G].
    + eexists; split; [reflexivity|].
      split; [apply wf_clear_slot; auto|]. repeat split.
      unfold live_count; msimpl.
      rewrite nonzero_count_wr by (rewrite (wf_psl m Hw); exact Hd).
      rewrite (nz_nonzero _ Hl). change (nz 0) with 0. lia.
    + assert (Hne : idx <> e) by (intros ->; lia).
      assert (Hnd : idx <> dest).
      { pose proof (tablelen_bounds m Hw).
        destruct (nxt_spec _ _ Hd) as [[? ?]|[? ?]]; lia. }
      rewrite step_tablelen by auto.
      set (m1 := map_set_entry m dest _ _ _).
      assert (Hw1 : wf m1) by (apply wf_set_entry; auto).
      destruct (IH m1 idx (nxt (tablelen m) idx) e) as (m' & Hr & Hw' & Hh & Hs & Hz' & Hc);
        auto.
      * unfold m1; rewrite psl_set_entry by (auto; lia).
        destruct (Z.eqb_spec e dest) as [->|_]; [congruence | exact Hz].
      * unfold m1; rewrite psl_set_entry by (auto; lia).
        destruct (Z.eqb_spec idx dest); [congruence | lia].
      * change (tablelen m1) with (tablelen m).
        rewrite (dist_step _ _ _ Hi He Hne). lia.
      * exists m'; split; [exact Hr|]. split; [exact Hw'|].
        split; [exact Hh|]. split; [exact Hs|]. split; [exact Hz'|].
        rewrite Hc. unfold m1; rewrite live_set_entry by auto.
        rewrite shifted_psl by lia.
        rewrite (nz_nonzero _ Hl). rewrite nz_nonzero by lia. lia.
Qed.

Lemma remove_loop_S (fuel fuel2 : nat) (m : nghttp3_map)
    (mask idx key p : Z) :
  remove_loop (S fuel) fuel2 m mask idx key p =
  if p >? rd (psl m) idx then Done (NGHTTP3_ERR_INVALID_ARGUMENT, m)
  else if rd (keys m) idx =? key then
    m' <- shift_loop fuel2 m mask idx (Z.land (size_t (idx + 1)) mask) ;;
    Done (0, set_size m' (size_t (size m' - 1)))
  else
    remove_loop fuel fuel2 m mask (Z.land (size_t (idx + 1)) mask) key
      (size_t (p + 1)).
Proof. reflexivity. Qed.

(** The removal loops stop; a failed removal leaves the table as it
    was, a successful one takes one from [size] and from the number of
    live slots. *)
Lemma remove_loop_weak (fuel : nat) :
  forall (fuel2 : nat) (m : nghttp3_map) (idx key p e : Z),
    wf m -> 0 <= idx < tablelen m -> 0 <= e < tablelen m ->
    rd (psl m) e = 0 -> dist (tablelen m) idx e < Z.of_nat fuel ->
    tablelen m <= Z.of_nat fuel2 ->
    1 <= p -> p + dist (tablelen m) idx e <= 2 ^ 63 ->
    1 <= size m < 2 ^ 63 ->
    exists rv m',
      remove_loop fuel fuel2 m (tablelen m - 1) idx key p = Done (rv, m') /\
      ((rv = NGHTTP3_ERR_INVALID_ARGUMENT /\ m' = m) \/
       (rv = 0 /\ wf m' /\ hashbits m' = hashbits m /\ seed m' = seed m /\
        size m' = size m - 1 /\ live_count m' = live_count m - 1 /\
        exists v, holds m key v)).
Proof.
  induction fuel as [|fuel IH];
    intros fuel2 m idx key p e Hw Hi He Hz Hf Hf2 Hp Hb Hs.
  - pose proof (dist_range _ _ _ Hi He); lia.
  - rewrite remove_loop_S.
    destruct (Z.gtb_spec p (rd (psl m) idx)) as [G|L].
    + eexists _, _; split; [reflexivity|]. left; auto.
    + assert (Hne : idx <> e) by (intros ->; lia).
      rewrite step_tablelen by auto.
      pose proof (dist_step _ _ _ Hi He Hne) as Hd.
      pose proof (dist_range _ _ _ Hi He).
      pose proof (nxt_range _ _ Hi) as Hn.
      pose proof two63_lt.
      destruct (Z.eqb_spec (rd (keys m) idx) key) as [E|N].
      * destruct (shift_loop_weak fuel2 m idx (nxt (tablelen m) idx) e)
          as (m' & Hr & Hw' & Hh & Hsd & Hz' & Hc); auto; try lia.
        rewrite Hr; cbn [bind].
        eexists _, _; split; [reflexivity|]. right.
        split; [reflexivity|]. split; [apply wf_set_size; exact Hw'|].
        split; [exact Hh|]. split; [exact Hsd|]. split; [|split].
        -- msimpl. rewrite Hz'. apply size_t_small; lia.
        -- exact Hc.
        -- exists (rd (data m) idx), idx; repeat split; auto; lia.
      * rewrite size_t_small by lia.
        apply (IH fuel2 m _ key _ e); auto; lia.
Qed.

Lemma map_insert_weak (fuel : nat) (m : nghttp3_map) (key val : Z) :
  wf m -> live_count m < tablelen m -> 0 <= size m < 2 ^ 63 ->
  tablelen m <= Z.of_nat fuel ->
  exists rv m',
    map_insert fuel m key val = Done (rv, m') /\
    wf m' /\ hashbits m' = hashbits m /\ seed m' = seed m /\
    ((rv = 0 /\ size m' = size m + 1 /\ live_count m' <= live_count m + 1) \/
     (rv = NGHTTP3_ERR_INVALID_ARGUMENT /\ size m' = size m /\
      live_count m' <= live_count m)).
Proof.
  intros Hw Hl Hs Hf; unfold map_insert.
  rewrite mask_tablelen by auto.
  destruct (nonzero_count_hole (psl m)) as (e & He & Hz).
  { rewrite (wf_psl m Hw); exact Hl. }
  rewrite (wf_psl m Hw) in He.
  pose proof (map_index_range m key (wf_bits m Hw)) as Hi.
  fold (tablelen m) in Hi.
  apply map_insert_loop_weak with (e := e); auto.
  pose proof (dist_range _ _ _ Hi He); lia.
Qed.

(* ================================================================== *)
(** * Growth *)
(* ================================================================== *)

Lemma resize_loop_S (fuel n : nat) (old : nghttp3_map) (i : Z)
    (new_map : nghttp3_map) :
  resize_loop fuel (S n) old i new_map =
  if rd (psl old) i =? 0 then resize_loop fuel n old (i + 1) new_map
  else
    r <- map_insert fuel new_map (rd (keys old) i) (rd (data old) i) ;;
    if fst r =? 0 then resize_loop fuel n old (i + 1) (snd r)
    else AssertFail.
Proof. reflexivity. Qed.

Lemma live_before_S (old : nghttp3_map) (i : Z) :
  0 <= i -> live_before old (i + 1) = live_before old i + nz (rd (psl old) i).
Proof.
  intros H; unfold live_before, rd.
  replace (Z.to_nat (i + 1)) with (S (Z.to_nat i)) by lia.
  apply nonzero_count_firstn_S.
Qed.

Lemma live_before_0 (old : nghttp3_map) : live_before old 0 = 0.
Proof. reflexivity. Qed.

Lemma live_before_all (old : nghttp3_map) :
  live_before old (Z.of_nat (length (psl old))) = live_count old.
Proof.
  unfold live_before, live_count.
  rewrite Nat2Z.id, firstn_all; reflexivity.
Qed.

(** The re-insertion loop never runs out of budget: the new table is
    larger than the number of entries it receives.  It ends with a
    failed assertion or with a table that has at most one live slot per
    live slot visited. *)
Lemma resize_loop_weak (fuel n : nat) :
  forall (old : nghttp3_map) (i : Z) (new_map : nghttp3_map),
    wf new_map -> tablelen new_map <= Z.of_nat fuel -> 0 <= i ->
    live_count new_map + Z.of_nat n < tablelen new_map ->
    0 <= size new_map -> size new_map + Z.of_nat n < 2 ^ 63 ->
    resize_loop fuel n old i new_map = AssertFail \/
    exists new',
      resize_loop fuel n old i new_map = Done new' /\
      wf new' /\ hashbits new' = hashbits new_map /\
      seed new' = seed new_map /\
      live_count new' + live_before old i
      <= live_count new_map + live_before old (i + Z.of_nat n).
Proof.
  induction n as [|n IH]; intros old i nm Hw Hf Hi Hl Hs0 Hs.
  - right; exists nm; split; [reflexivity|].
    change (Z.of_nat 0) with 0; rewrite Z.add_0_r.
    split; [exact Hw|]. split; [reflexivity|]. split; [reflexivity|]. lia.
  - rewrite resize_loop_S.
    replace (i + Z.of_nat (S n)) with (i + 1 + Z.of_nat n) by lia.
    pose proof (live_before_S old i Hi) as HS.
    destruct (Z.eqb_spec (rd (psl old) i) 0) as [E0|N0].
    + rewrite (nz_zero _ E0) in HS.
      destruct (IH old (i + 1) nm Hw Hf ltac:(lia) ltac:(lia) Hs0 ltac:(lia))
        as [Hr|(n' & Hr & Hw' & Hh & Hsd & Hc)]; [left; exact Hr|].
      right; exists n'; split; [exact Hr|]. split; [exact Hw'|].
      split; [exact Hh|]. split; [exact Hsd|]. lia.
    + rewrite (nz_nonzero _ N0) in HS.
      destruct (map_insert_weak fuel nm (rd (keys old) i) (rd (data old) i))
        as (rv & m1 & Hr & Hw1 & Hh1 & Hsd1 & Hc1); auto; try lia.
      rewrite Hr; cbn [bind fst snd].
      assert (HT : tablelen m1 = tablelen nm) by (unfold tablelen; congruence).
      destruct Hc1 as [(-> & Hz1 & Hl1)|(-> & Hz1 & Hl1)]; [|left; reflexivity].
      cbn [Z.eqb].
      destruct (IH old (i + 1) m1 Hw1 ltac:(lia) ltac:(lia) ltac:(lia)
                  ltac:(lia) ltac:(lia))
        as [Hr2|(n' & Hr2 & Hw' & Hh & Hsd & Hc)]; [left; exact Hr2|].
      right; exists n'; split; [exact Hr2|]. split; [exact Hw'|].
      split; [congruence|]. split; [congruence|]. lia.
Qed.

Lemma threshold_pow2 (b : Z) :
  3 <= b -> threshold (2 ^ b) = 7 * 2 ^ (b - 3).
Proof.
  intros H; unfold threshold.
  rewrite Z.shiftr_div_pow2 by lia.
  replace b with (b - 3 + 3) at 1 2 by lia.
  rewrite Z.pow_add_r by lia.
  rewrite Z.div_mul by (compute; lia).
  change (2 ^ 3) with 8. lia.
Qed.

Lemma threshold_bounds (b : Z) :
  4 <= b -> 14 <= threshold (2 ^ b) < 2 ^ b.
Proof.
  intros H; rewrite threshold_pow2 by lia.
  replace b with (b - 3 + 3) at 3 by lia.
  rewrite Z.pow_add_r by lia. change (2 ^ 3) with 8.
  assert (2 ^ 1 <= 2 ^ (b - 3)) by (apply Z.pow_le_mono_r; lia).
  change (2 ^ 1) with 2 in *. lia.
Qed.

Lemma threshold_double (b : Z) :
  3 <= b -> threshold (2 ^ (b + 1)) = 2 * threshold (2 ^ b).
Proof.
  intros H; rewrite !threshold_pow2 by lia.
  replace (b + 1 - 3) with (Z.succ (b - 3)) by lia.
  rewrite Z.pow_succ_r by lia. lia.
Qed.

Lemma wf_fresh (b s : Z) :
  4 <= b <= 63 ->
  wf (mk_map (calloc (size_t (Z.shiftl 1 b))) (calloc (size_t (Z.shiftl 1 b)))
             (calloc (size_t (Z.shiftl 1 b))) s 0 b).
Proof.
  intros H; rewrite tablelen_eq by exact H.
  pose proof (pow2_bounds b H).
  constructor; unfold tablelen; msimpl; auto;
    try (apply length_calloc; lia).
  intros i _; rewrite rd_calloc; lia.
Qed.

Lemma wf_rebuild (n : nghttp3_map) (s z : Z) :
  wf n -> wf (mk_map (keys n) (data n) (psl n) s z (hashbits n)).
Proof. intros [Hb Hk Hd Hp Hy]; constructor; auto. Qed.

(** [map_resize] in any state built by the public functions: it fails an
    assertion, reports out-of-memory without touching the table, or
    installs bigger arrays with no more live slots than before. *)
Lemma map_resize_weak (fuel : nat) (calloc_ok : bool) (m : nghttp3_map)
    (nh : Z) :
  WInv m ->
  nh = (if hashbits m =? 0 then 4 else hashbits m + 1) -> nh <= 63 ->
  2 ^ nh <= Z.of_nat fuel ->
  map_resize fuel calloc_ok m nh = AssertFail \/
  (calloc_ok = false /\
   map_resize fuel calloc_ok m nh = Done (NGHTTP3_ERR_NOMEM, m)) \/
  exists m',
    calloc_ok = true /\
    map_resize fuel calloc_ok m nh = Done (0, m') /\
    wf m' /\ hashbits m' = nh /\ seed m' = seed m /\ size m' = size m /\
    live_count m' <= live_count m.
Proof.
  intros HI Hnh Hle Hf; unfold map_resize.
  destruct calloc_ok; cbn [negb]; [|right; left; auto].
  destruct HI as [(Hb & Hs & Hk & Hd & Hp)|(Hw & Hl & Ht)].
  - rewrite Hs; cbn [Z.eqb bind]. rewrite Hb in Hnh; cbn [Z.eqb] in Hnh.
    right; right; eexists; split; [reflexivity|]. split; [reflexivity|].
    msimpl. subst nh.
    split; [apply (wf_fresh 4 (seed m)); lia|].
    repeat split; auto.
    unfold live_count; msimpl. rewrite nonzero_count_calloc, Hp.
    simpl; lia.
  - pose proof (wf_bits m Hw) as Hb.
    assert (E : nh = hashbits m + 1).
    { destruct (Z.eqb_spec (hashbits m) 0); lia. }
    pose proof (wf_fresh nh (seed m) ltac:(lia)) as Hwn.
    set (fresh := mk_map _ _ _ (seed m) 0 nh) in *.
    assert (Hr : forall nm, wf nm -> hashbits nm = nh -> seed nm = seed m ->
               live_count nm <= live_count m ->
               exists m', Done (0, mk_map (keys nm) (data nm) (psl nm)
                                   (seed m) (size m) nh) = Done (0, m') /\
                 wf m' /\ hashbits m' = nh /\ seed m' = seed m /\
                 size m' = size m /\ live_count m' <= live_count m).
    { intros nm Hwm Hh _ Hlm; eexists; split; [reflexivity|].
      split; [rewrite <- Hh; apply wf_rebuild; exact Hwm|].
      repeat split; auto. }
    assert (Hlf : live_count fresh = 0).
    { unfold live_count, fresh; msimpl; apply nonzero_count_calloc. }
    destruct (size m =? 0).
    + cbn [bind]. right; right.
      destruct (Hr fresh) as (m' & E1 & H1); auto.
      { rewrite Hlf; apply nonzero_count_bounds. }
      exists m'; split; [reflexivity|]. split; [exact E1 | exact H1].
    + rewrite tablelen_eq by lia. fold (tablelen m).
      pose proof (tablelen_bounds m Hw) as HT.
      assert (HT2 : tablelen fresh = 2 * tablelen m).
      { unfold tablelen, fresh; msimpl. rewrite E.
        rewrite Z.pow_add_r by lia. change (2 ^ 1) with 2. lia. }
      assert (HT3 : tablelen m <= 2 ^ 62).
      { unfold tablelen; apply Z.pow_le_mono_r; lia. }
      assert (A1 : tablelen fresh <= Z.of_nat fuel) by exact Hf.
      assert (A2 : live_count fresh + Z.of_nat (Z.to_nat (tablelen m))
                   < tablelen fresh) by lia.
      assert (A3 : 0 <= size fresh) by (unfold fresh; msimpl; lia).
      assert (A4 : size fresh + Z.of_nat (Z.to_nat (tablelen m)) < 2 ^ 63).
      { unfold fresh; msimpl. change (2 ^ 62) with 4611686018427387904 in HT3.
        change (2 ^ 63) with 9223372036854775808. lia. }
      destruct (resize_loop_weak fuel (Z.to_nat (tablelen m)) m 0 fresh
                  Hwn A1 ltac:(lia) A2 A3 A4)
        as [Hx|(n' & Hx & Hw' & Hh & Hs' & Hc)].
      * rewrite Hx; left; reflexivity.
      * rewrite Hx; cbn [bind]. right; right.
        rewrite live_before_0, Hlf in Hc.
        replace (0 + Z.of_nat (Z.to_nat (tablelen m)))
          with (Z.of_nat (length (psl m))) in Hc
          by (rewrite (wf_psl m Hw); lia).
        rewrite live_before_all in Hc.
        destruct (Hr n') as (m' & E1 & H1); auto; try lia.
        exists m'; split; [reflexivity|]. split; [exact E1 | exact H1].
Qed.

(* ================================================================== *)
(** * The public functions on arbitrary reachable tables *)
(* ================================================================== *)

Lemma WInv_size (m : nghttp3_map) : WInv m -> 0 <= size m < 2 ^ 63.
Proof.
  intros [(Hb & Hs & _)|(Hw & Hl & Ht)].
  - rewrite Hs; split; [lia | reflexivity].
  - pose proof (nonzero_count_bounds (psl m)). unfold live_count in Hl.
    pose proof (tablelen_bounds m Hw).
    pose proof (threshold_bounds (hashbits m) ltac:(apply Hw)).
    fold (tablelen m) in *. lia.
Qed.

(** The growth test of [nghttp3_map_insert] on an allocated table. *)
Lemma growth_check (m : nghttp3_map) :
  wf m -> 0 <= size m < 2 ^ 63 ->
  (size_t (size m + 1) >=?
   size_t (size_t (Z.shiftl 1 (hashbits m))
           - Z.shiftr (size_t (Z.shiftl 1 (hashbits m))) 3))
  = (size m + 1 >=? threshold (tablelen m)).
Proof.
  intros Hw Hs; rewrite tablelen_eq by apply Hw.
  fold (tablelen m); fold (threshold (tablelen m)).
  pose proof (threshold_bounds (hashbits m) ltac:(apply Hw)).
  pose proof (tablelen_bounds m Hw). fold (tablelen m) in *.
  pose proof two63_lt.
  rewrite !size_t_small by lia. reflexivity.
Qed.

(** [map_insert] on a table with room below the load factor. *)
Lemma map_insert_WInv (fuel : nat) (m : nghttp3_map) (key val : Z) :
  wf m -> live_count m <= size m -> size m + 1 < threshold (tablelen m) ->
  tablelen m <= Z.of_nat fuel ->
  exists rv m',
    map_insert fuel m key val = Done (rv, m') /\
    WInv m' /\ seed m' = seed m /\ hashbits m' = hashbits m /\
    ((rv = 0 /\ size m' = size m + 1 /\ live_count m' <= live_count m + 1) \/
     (rv = NGHTTP3_ERR_INVALID_ARGUMENT /\ size m' = size m /\
      live_count m' <= live_count m)).
Proof.
  intros Hw Hl Ht Hf.
  pose proof (nonzero_count_bounds (psl m)). unfold live_count in Hl.
  pose proof (tablelen_bounds m Hw).
  pose proof (threshold_bounds (hashbits m) ltac:(apply Hw)).
  fold (tablelen m) in *.
  destruct (map_insert_weak fuel m key val)
    as (rv & m' & Hr & Hw' & Hh & Hsd & Hc); auto;
    try (unfold live_count; lia).
  exists rv, m'; split; [exact Hr|].
  assert (HT : tablelen m' = tablelen m) by (unfold tablelen; congruence).
  split; [|split; [exact Hsd|split; [exact Hh|exact Hc]]].
  right; split; [exact Hw'|]. rewrite HT.
  unfold live_count in *.
  destruct Hc as [(? & ? & ?)|(? & ? & ?)]; lia.
Qed.

Lemma nghttp3_map_insert_weak (fuel : nat) (calloc_ok : bool)
    (m : nghttp3_map) (key val : Z) :
  WInv m -> 16 <= Z.of_nat fuel -> 2 * tablelen m <= Z.of_nat fuel ->
  nghttp3_map_insert fuel calloc_ok m key val = AssertFail \/
  exists rv m',
    nghttp3_map_insert fuel calloc_ok m key val = Done (rv, m') /\
    WInv m' /\ seed m' = seed m /\
    ((rv = 0 /\ size m' = size m + 1 /\
        live_count m' <= live_count m + 1) \/
     (rv = NGHTTP3_ERR_NOMEM /\ m' = m) \/
     (rv = NGHTTP3_ERR_INVALID_ARGUMENT /\ size m' = size m /\
        live_count m' <= live_count m)).
Proof.
  intros HI Hf16 Hf; unfold nghttp3_map_insert.
  destruct (val =? 0); [left; reflexivity|].
  pose proof (WInv_size m HI) as Hs.
  assert (Post : forall m1,
    wf m1 -> seed m1 = seed m -> size m1 = size m ->
    live_count m1 <= live_count m ->
    live_count m1 <= size m1 -> size m1 + 1 < threshold (tablelen m1) ->
    tablelen m1 <= Z.of_nat fuel ->
    exists rv m',
      map_insert fuel m1 key val = Done (rv, m') /\
      WInv m' /\ seed m' = seed m /\
      ((rv = 0 /\ size m' = size m + 1 /\
        live_count m' <= live_count m + 1) \/
       (rv = NGHTTP3_ERR_NOMEM /\ m' = m) \/
       (rv = NGHTTP3_ERR_INVALID_ARGUMENT /\ size m' = size m /\
        live_count m' <= live_count m))).
  { intros m1 Hw1 Hsd1 Hz1 Hlm Hl1 Ht1 Hf1.
    destruct (map_insert_WInv fuel m1 key val Hw1 Hl1 Ht1 Hf1)
      as (rv & m' & Hr & HI' & Hsd & _ & Hc).
    exists rv, m'; split; [exact Hr|]. split; [exact HI'|].
    split; [congruence|].
    destruct Hc as [(? & ? & ?)|(? & ? & ?)]; [left|right; right];
      repeat split; auto; lia. }
  assert (Grow : forall nh,
    nh = (if hashbits m =? 0 then 4 else hashbits m + 1) -> nh <= 63 ->
    2 ^ nh <= Z.of_nat fuel ->
    (forall m1, hashbits m1 = nh -> size m1 = size m ->
                size m1 + 1 < threshold (tablelen m1)) ->
    (r <- map_resize fuel calloc_ok m nh ;;
     if negb (fst r =? 0) then Done r else map_insert fuel (snd r) key val)
    = AssertFail \/
    exists rv m',
      (r <- map_resize fuel calloc_ok m nh ;;
       if negb (fst r =? 0) then Done r else map_insert fuel (snd r) key val)
      = Done (rv, m') /\
      WInv m' /\ seed m' = seed m /\
      ((rv = 0 /\ size m' = size m + 1 /\
        live_count m' <= live_count m + 1) \/
       (rv = NGHTTP3_ERR_NOMEM /\ m' = m) \/
       (rv = NGHTTP3_ERR_INVALID_ARGUMENT /\ size m' = size m /\
        live_count m' <= live_count m))).
  { intros nh Hnh Hle Hfn Hthr.
    destruct (map_resize_weak fuel calloc_ok m nh HI Hnh Hle Hfn)
      as [Hr|[(_ & Hr)|(m1 & _ & Hr & Hw1 & Hh1 & Hsd1 & Hz1 & Hl1)]];
      rewrite Hr; cbn [bind fst snd].
    - left; reflexivity.
    - right; exists NGHTTP3_ERR_NOMEM, m; split; [reflexivity|].
      split; [exact HI|]. split; [reflexivity|]. right; left; auto.
    - right; cbn [Z.eqb negb].
      apply Post; auto.
      + destruct HI as [(_ & Hs0 & _ & _ & Hp)|(_ & Hl & _)].
        * unfold live_count in *; rewrite Hp in Hl1; simpl in Hl1. lia.
        * lia.
      + unfold tablelen; rewrite Hh1; exact Hfn. }
  destruct HI as [(Hb & Hs0 & Hk & Hd & Hp)|(Hw & Hl & Ht)].
  - lazymatch goal with
    | |- (if ?c then _ else _) = _ \/ _ => destruct c eqn:G
    end; [|rewrite Hb, Hs0 in G; discriminate G].
    replace (hashbits m =? 0) with true by (rewrite Hb; reflexivity).
    change (NGHTTP3_INITIAL_HASHBITS >? NGHTTP3_MAP_MAX_HASHBITS) with false;
      cbv iota.
    apply Grow.
    + rewrite Hb; reflexivity.
    + unfold NGHTTP3_INITIAL_HASHBITS; lia.
    + exact Hf16.
    + intros m1 Hh Hz; unfold tablelen; rewrite Hh, Hz, Hs0. reflexivity.
  - pose proof (wf_bits m Hw) as Hb.
    pose proof two63_lt.
    rewrite growth_check by auto.
    destruct (Z.geb_spec (size m + 1) (threshold (tablelen m))) as [G|L].
    + destruct (Z.eqb_spec (hashbits m) 0) as [E|_]; [lia|].
      rewrite size_t_small by lia.
      unfold NGHTTP3_MAP_MAX_HASHBITS.
      destruct (Z.gtb_spec (hashbits m + 1) 63) as [G2|L2].
      * right; exists NGHTTP3_ERR_NOMEM, m; split; [reflexivity|].
        split; [right; auto|]. split; [reflexivity|]. right; left; auto.
      * apply (Grow (hashbits m + 1) eq_refl L2).
        -- rewrite Z.pow_add_r by lia. change (2 ^ 1) with 2.
           unfold tablelen in Hf; lia.
        -- intros m1 Hh Hz; unfold tablelen; rewrite Hh, Hz.
           rewrite threshold_double by lia.
           unfold tablelen in Ht; lia.
    + pose proof (tablelen_bounds m Hw).
      right; apply Post; auto; lia.
Qed.

Lemma nghttp3_map_remove_weak (fuel : nat) (m : nghttp3_map) (key : Z) :
  WInv m -> tablelen m <= Z.of_nat fuel ->
  exists rv m',
    nghttp3_map_remove fuel m key = Done (rv, m') /\
    WInv m' /\ seed m' = seed m /\
    ((rv = NGHTTP3_ERR_INVALID_ARGUMENT /\ m' = m) \/
     (rv = 0 /\ hashbits m' = hashbits m /\ size m' = size m - 1 /\
      live_count m' = live_count m - 1 /\ exists v, holds m key v)).
Proof.
  intros HI Hf; unfold nghttp3_map_remove.
  pose proof (WInv_size m HI) as Hs.
  destruct (Z.eqb_spec (size m) 0) as [E|N].
  { exists NGHTTP3_ERR_INVALID_ARGUMENT, m; split; [reflexivity|].
    split; [exact HI|]. split; [reflexivity|]. left; auto. }
  destruct HI as [(_ & Hs0 & _)|(Hw & Hl & Ht)]; [congruence|].
  rewrite mask_tablelen by auto.
  pose proof (tablelen_bounds m Hw) as HT.
  pose proof (threshold_bounds (hashbits m) ltac:(apply Hw)) as Hth.
  fold (tablelen m) in Hth.
  destruct (nonzero_count_hole (psl m)) as (e & He & Hz).
  { rewrite (wf_psl m Hw); unfold live_count in Hl; lia. }
  rewrite (wf_psl m Hw) in He.
  pose proof (map_index_range m key (wf_bits m Hw)) as Hi.
  fold (tablelen m) in Hi.
  pose proof (dist_range _ _ _ Hi He) as Hd.
  destruct (remove_loop_weak fuel fuel m (map_index m key) key 1 e)
    as (rv & m' & Hr & Hc); auto; try lia.
  exists rv, m'; split; [exact Hr|].
  destruct Hc as [(-> & ->)|(-> & Hw' & Hh & Hsd & Hz' & Hl' & Hv)].
  - split; [right; auto|]. split; [reflexivity|]. left; auto.
  - split; [|split; [exact Hsd|right; auto]].
    right; split; [exact Hw'|].
    unfold tablelen in *; rewrite Hh. lia.
Qed.

Lemma nghttp3_map_find_weak (fuel : nat) (m : nghttp3_map) (key : Z) :
  WInv m -> tablelen m <= Z.of_nat fuel ->
  exists r,
    nghttp3_map_find fuel m key = Done r /\ (r = 0 \/ holds m key r).
Proof.
  intros HI Hf; unfold nghttp3_map_find.
  destruct (Z.eqb_spec (size m) 0) as [E|N].
  { exists 0; auto. }
  destruct HI as [(_ & Hs0 & _)|(Hw & Hl & Ht)]; [congruence|].
  rewrite mask_tablelen by auto.
  pose proof (tablelen_bounds m Hw) as HT.
  pose proof (threshold_bounds (hashbits m) ltac:(apply Hw)) as Hth.
  fold (tablelen m) in Hth.
  destruct (nonzero_count_hole (psl m)) as (e & He & Hz).
  { rewrite (wf_psl m Hw); unfold live_count in Hl; lia. }
  rewrite (wf_psl m Hw) in He.
  pose proof (map_index_range m key (wf_bits m Hw)) as Hi.
  fold (tablelen m) in Hi.
  pose proof (dist_range _ _ _ Hi He) as Hd.
  apply find_loop_weak with (e := e); auto; lia.
Qed.

Lemma WInv_clear (m : nghttp3_map) : WInv m -> WInv (nghttp3_map_clear m).
Proof.
  intros HI; unfold nghttp3_map_clear.
  destruct (Z.eqb_spec (size m) 0) as [E|N]; [exact HI|].
  destruct HI as [(_ & Hs0 & _)|(Hw & Hl & Ht)].
  - congruence.
  - right. pose proof (tablelen_bounds m Hw) as HT.
    pose proof (threshold_bounds (hashbits m) ltac:(apply Hw)) as Hth.
    fold (tablelen m) in Hth.
    rewrite tablelen_eq by apply Hw. fold (tablelen m).
    split; [|split].
    + destruct Hw as [Hb Hk Hd Hp Hy]; constructor; unfold tablelen in *;
        msimpl; auto.
      * apply length_calloc; lia.
      * intros i _; rewrite rd_calloc; lia.
    + unfold live_count; msimpl. rewrite nonzero_count_calloc; lia.
    + msimpl. unfold tablelen; msimpl. fold (tablelen m). lia.
Qed.

(* ================================================================== *)
(** * The Robin Hood invariant *)
(* ================================================================== *)

Lemma Inv_WInv (m : nghttp3_map) : Inv m -> WInv m.
Proof.
  intros [H|(Hc & Hl & Ht)]; [left; exact H|].
  right; split; [apply Hc|]. split; [lia | exact Ht].
Qed.

Lemma dist_step_r (T a i : Z) :
  0 <= a < T -> 0 <= i < T -> dist T a i + 1 < T ->
  dist T a (nxt T i) = dist T a i + 1.
Proof.
  intros Ha Hi Hlt.
  destruct (nxt_spec T i Hi) as [[-> ?]|[-> ?]];
    destruct (dist_spec T a i Ha Hi) as [[E ?]|[E ?]]; rewrite E in *;
    [destruct (dist_spec T a (i + 1)) as [[-> ?]|[-> ?]]
    |destruct (dist_spec T a (i + 1)) as [[-> ?]|[-> ?]]
    |destruct (dist_spec T a 0) as [[-> ?]|[-> ?]]
    |destruct (dist_spec T a 0) as [[-> ?]|[-> ?]]]; lia.
Qed.

(** Walking backwards from a slot, the stored psl drops by at most one
    per step: every slot on the probe path of an entry is occupied by
    an entry at least as far from home. *)
Lemma chain (m : nghttp3_map) (n : nat) :
  Inv_core m ->
  forall i j, 0 <= i < tablelen m -> 0 <= j < tablelen m ->
    dist (tablelen m) i j = Z.of_nat n ->
    rd (psl m) j - Z.of_nat n <= rd (psl m) i.
Proof.
  intros Hc; induction n as [|n IH]; intros i j Hi Hj Hd.
  - apply dist_zero in Hd; auto. subst; lia.
  - assert (Hne : i <> j).
    { intros ->; rewrite dist_self in Hd by auto; lia. }
    pose proof (dist_step _ _ _ Hi Hj Hne) as Hs.
    pose proof (nxt_range _ _ Hi) as Hn.
    pose proof (IH (nxt (tablelen m) i) j Hn Hj ltac:(lia)).
    pose proof (ic_order m Hc i Hi). lia.
Qed.

Lemma chain_dist (m : nghttp3_map) (i j : Z) :
  Inv_core m -> 0 <= i < tablelen m -> 0 <= j < tablelen m ->
  rd (psl m) j - dist (tablelen m) i j <= rd (psl m) i.
Proof.
  intros Hc Hi Hj. pose proof (dist_range _ _ _ Hi Hj) as Hr.
  pose proof (chain m (Z.to_nat (dist (tablelen m) i j)) Hc i j Hi Hj) as H.
  rewrite Z2Nat.id in H by lia. apply H; reflexivity.
Qed.

(** ** Lookup of a key that is in the table *)
Lemma find_loop_hit (m : nghttp3_map) (key val j : Z) (fuel : nat) :
  Inv_core m -> entry_at m j key val ->
  forall idx p,
    0 <= idx < tablelen m -> 1 <= p ->
    p + dist (tablelen m) idx j = rd (psl m) j ->
    dist (tablelen m) idx j < Z.of_nat fuel ->
    find_loop fuel m (tablelen m - 1) idx key p = Done val.
Proof.
  intros Hc (Hj & Hl & Hk & Hv).
  pose proof (ic_wf m Hc) as Hw.
  pose proof (wf_byte m Hw j Hj) as Hbyte.
  induction fuel as [|fuel IH]; intros idx p Hi Hp Hpath Hf.
  - pose proof (dist_range _ _ _ Hi Hj); lia.
  - rewrite find_loop_S.
    pose proof (chain_dist m idx j Hc Hi Hj) as Hch.
    pose proof (dist_range _ _ _ Hi Hj) as Hr.
    destruct (Z.gtb_spec p (rd (psl m) idx)) as [G|L]; [lia|].
    destruct (Z.eqb_spec (rd (keys m) idx) key) as [E|N].
    + assert (idx = j) by (apply (ic_distinct m Hc); auto; lia || congruence).
      subst idx; rewrite Hv; reflexivity.
    + assert (Hne : idx <> j) by congruence.
      rewrite step_tablelen by auto.
      pose proof two63_lt.
      rewrite size_t_small by lia.
      pose proof (dist_step _ _ _ Hi Hj Hne).
      apply IH; try lia. apply nxt_range; auto.
Qed.

Lemma no_live_when_zero (m : nghttp3_map) (key val : Z) :
  live_count m <= 0 -> ~ holds m key val.
Proof.
  intros Hz (i & _ & Hl & _). apply Hl.
  apply nonzero_count_zero; exact Hz.
Qed.

Lemma Inv_holds_core (m : nghttp3_map) (key val : Z) :
  Inv m -> holds m key val -> Inv_core m /\ size m <> 0.
Proof.
  intros [(Hb & Hs & Hk & Hd & Hp)|(Hc & Hl & Ht)] Hh.
  - exfalso; apply (no_live_when_zero m key val); auto.
    unfold live_count; rewrite Hp; simpl; lia.
  - split; [exact Hc|]. intros E.
    apply (no_live_when_zero m key val); auto; lia.
Qed.

Lemma holds_functional (m : nghttp3_map) (key v1 v2 : Z) :
  Inv_core m -> holds m key v1 -> holds m key v2 -> v1 = v2.
Proof.
  intros Hc (i & Hi & Hl & Hk & Hv) (j & Hj & Hl' & Hk' & Hv').
  assert (i = j) by (apply (ic_distinct m Hc); auto; congruence).
  subst; reflexivity.
Qed.

Lemma holds_nonnull (m : nghttp3_map) (key val : Z) :
  Inv_core m -> holds m key val -> val <> 0.
Proof.
  intros Hc (i & Hi & Hl & Hk & Hv); subst val; apply (ic_data m Hc); auto.
Qed.

(** [nghttp3_map_find] returns the value stored with the key, and a
    miss exactly for keys that no live slot holds. *)
Lemma find_hit (fuel : nat) (m : nghttp3_map) (key val : Z) :
  Inv m -> tablelen m <= Z.of_nat fuel -> holds m key val ->
  nghttp3_map_find fuel m key = Done val.
Proof.
  intros HI Hf Hh.
  destruct (Inv_holds_core m key val HI Hh) as (Hc & Hs).
  unfold nghttp3_map_find.
  destruct (Z.eqb_spec (size m) 0) as [E|_]; [contradiction|].
  pose proof (ic_wf m Hc) as Hw.
  rewrite mask_tablelen by auto.
  destruct Hh as (j & Hj & Hl & Hk & Hv).
  pose proof (map_index_range m key (wf_bits m Hw)) as Hi.
  fold (tablelen m) in Hi.
  pose proof (dist_range _ _ _ Hi Hj).
  apply find_loop_hit with (j := j); auto; try lia.
  - repeat split; auto; lia.
  - rewrite (ic_exact m Hc j Hj Hl), Hk; lia.
Qed.

Lemma find_miss (fuel : nat) (m : nghttp3_map) (key : Z) :
  Inv m -> tablelen m <= Z.of_nat fuel -> (forall v, ~ holds m key v) ->
  nghttp3_map_find fuel m key = Done 0.
Proof.
  intros HI Hf Hn.
  destruct (nghttp3_map_find_weak fuel m key (Inv_WInv m HI) Hf)
    as (r & Hr & [->|Hh]); [exact Hr|].
  exfalso; exact (Hn r Hh).
Qed.

Lemma find_holds (fuel : nat) (m : nghttp3_map) (key r : Z) :
  Inv m -> tablelen m <= Z.of_nat fuel ->
  nghttp3_map_find fuel m key = Done r -> r <> 0 -> holds m key r.
Proof.
  intros HI Hf Hr Hnz.
  destruct (nghttp3_map_find_weak fuel m key (Inv_WInv m HI) Hf)
    as (r' & Hr' & [->|Hh]); rewrite Hr in Hr'; inversion Hr'; subst.
  - contradiction.
  - exact Hh.
Qed.

(** ** Insertion of a key that is in the table *)
Lemma map_insert_loop_dup (m : nghttp3_map) (key val val' j : Z)
    (fuel : nat) :
  Inv_core m -> entry_at m j key val ->
  forall idx p,
    0 <= idx < tablelen m -> 1 <= p ->
    p + dist (tablelen m) idx j = rd (psl m) j ->
    dist (tablelen m) idx j < Z.of_nat fuel ->
    map_insert_loop fuel m (tablelen m - 1) idx key val' p
    = Done (NGHTTP3_ERR_INVALID_ARGUMENT, m).
Proof.
  intros Hc (Hj & Hl & Hk & Hv).
  pose proof (ic_wf m Hc) as Hw.
  pose proof (wf_byte m Hw j Hj) as Hbyte.
  induction fuel as [|fuel IH]; intros idx p Hi Hp Hpath Hf.
  - pose proof (dist_range _ _ _ Hi Hj); lia.
  - rewrite map_insert_loop_S.
    pose proof (chain_dist m idx j Hc Hi Hj) as Hch.
    pose proof (dist_range _ _ _ Hi Hj) as Hr.
    destruct (Z.eqb_spec (rd (psl m) idx) 0) as [E0|N0]; [lia|].
    destruct (Z.gtb_spec p (rd (psl m) idx)) as [G|L]; [lia|].
    destruct (Z.eqb_spec (rd (keys m) idx) key) as [E|N]; [reflexivity|].
    assert (Hne : idx <> j) by congruence.
    rewrite step_tablelen by auto.
    pose proof two63_lt.
    rewrite size_t_small by lia.
    pose proof (dist_step _ _ _ Hi Hj Hne).
    apply IH; try lia. apply nxt_range; auto.
Qed.

Lemma map_insert_dup (fuel : nat) (m : nghttp3_map) (key val val' : Z) :
  Inv_core m -> holds m key val -> tablelen m <= Z.of_nat fuel ->
  map_insert fuel m key val' = Done (NGHTTP3_ERR_INVALID_ARGUMENT, m).
Proof.
  intros Hc (j & Hj & Hl & Hk & Hv) Hf; unfold map_insert.
  pose proof (ic_wf m Hc) as Hw.
  rewrite mask_tablelen by auto.
  pose proof (map_index_range m key (wf_bits m Hw)) as Hi.
  fold (tablelen m) in Hi.
  pose proof (dist_range _ _ _ Hi Hj).
  apply map_insert_loop_dup with (j := j) (val := val); auto; try lia.
  - repeat split; auto; lia.
  - rewrite (ic_exact m Hc j Hj Hl), Hk; lia.
Qed.

(** ** Insertion of a new key *)

Lemma nxt_inj (T i j : Z) :
  0 <= i < T -> 0 <= j < T -> nxt T i = nxt T j -> i = j.
Proof.
  intros Hi Hj; destruct (nxt_spec T i Hi) as [[-> ?]|[-> ?]];
    destruct (nxt_spec T j Hj) as [[-> ?]|[-> ?]]; lia.
Qed.

Lemma nxt_neq (T i : Z) : 2 <= T -> 0 <= i < T -> nxt T i <> i.
Proof. intros HT Hi; destruct (nxt_spec T i Hi) as [[-> ?]|[-> ?]]; lia. Qed.

Lemma Inv_core_set_size (m : nghttp3_map) (n : Z) :
  Inv_core m -> Inv_core (set_size m n).
Proof.
  intros [Hw He Ho Hd Hv]; constructor; auto. apply wf_set_size; exact Hw.
Qed.

(** Storing an entry that has travelled [p - 1] steps from home into a
    slot whose occupant (if any) is closer to its own home keeps the
    invariant, provided [p] fits in the psl byte. *)
Lemma Inv_core_set_entry (m : nghttp3_map) (idx key val p : Z) :
  Inv_core m -> 0 <= idx < tablelen m -> 1 <= p <= 255 ->
  p = dist (tablelen m) (map_index m key) idx + 1 ->
  (forall i0, 0 <= i0 < tablelen m -> nxt (tablelen m) i0 = idx ->
              p <= rd (psl m) i0 + 1) ->
  rd (psl m) idx < p ->
  (forall v, ~ holds m key v) -> val <> 0 ->
  Inv_core (map_set_entry m idx key val p).
Proof.
  intros Hc Hi Hp Hex Hprev Hlt Habs Hval.
  pose proof (ic_wf m Hc) as Hw.
  pose proof (tablelen_bounds m Hw) as HT.
  set (m1 := map_set_entry m idx key val p).
  assert (HP : forall j, 0 <= j < tablelen m ->
            rd (psl m1) j = if j =? idx then p else rd (psl m) j).
  { intros j Hj; unfold m1; rewrite psl_set_entry by (auto; lia).
    rewrite u8_small by lia; reflexivity. }
  assert (HK : forall j, 0 <= j < tablelen m ->
            rd (keys m1) j = if j =? idx then key else rd (keys m) j).
  { intros j Hj; unfold m1; apply keys_set_entry; auto; lia. }
  assert (HD : forall j, 0 <= j < tablelen m ->
            rd (data m1) j = if j =? idx then val else rd (data m) j).
  { intros j Hj; unfold m1; apply data_set_entry; auto; lia. }
  constructor; change (tablelen m1) with (tablelen m);
    change (map_index m1) with (map_index m).
  - apply wf_set_entry; auto.
  - intros i Hr; rewrite HP, HK by auto.
    destruct (Z.eqb_spec i idx) as [->|Hne]; [intros _; exact Hex|].
    apply (ic_exact m Hc); auto.
  - intros i Hr. pose proof (nxt_range _ _ Hr) as Hn.
    pose proof (ic_order m Hc i Hr) as Ho.
    rewrite !HP by auto.
    destruct (Z.eqb_spec (nxt (tablelen m) i) idx) as [E|N];
      destruct (Z.eqb_spec i idx) as [E'|N'].
    + rewrite E' in E. apply nxt_neq in E; [contradiction|lia|exact Hi].
    + apply Hprev; auto.
    + subst i; lia.
    + exact Ho.
  - intros i j Hri Hrj; rewrite !HP, !HK by auto.
    destruct (Z.eqb_spec i idx) as [->|Ni];
      destruct (Z.eqb_spec j idx) as [->|Nj]; auto.
    + intros _ Hl E; exfalso; apply (Habs (rd (data m) j)).
      exists j; repeat split; auto; lia.
    + intros Hl _ E; exfalso; apply (Habs (rd (data m) i)).
      exists i; repeat split; auto; lia.
    + apply (ic_distinct m Hc); auto.
  - intros i Hr; rewrite HP, HD by auto.
    destruct (Z.eqb_spec i idx) as [->|Hne]; [intros _; exact Hval|].
    apply (ic_data m Hc); auto.
Qed.

(** The entries of a table after one slot was overwritten. *)
Lemma holds_set_entry (m : nghttp3_map) (idx key val p k v : Z) :
  wf m -> 0 <= idx < tablelen m -> u8 p <> 0 ->
  holds (map_set_entry m idx key val p) k v <->
  (k = key /\ v = val) \/ (exists i, i <> idx /\ entry_at m i k v).
Proof.
  intros Hw Hi Hp; unfold holds, entry_at.
  change (tablelen (map_set_entry m idx key val p)) with (tablelen m).
  split.
  - intros (i & Hr & Hl & Hk & Hv).
    rewrite psl_set_entry in Hl by (auto; lia).
    rewrite keys_set_entry in Hk by (auto; lia).
    rewrite data_set_entry in Hv by (auto; lia).
    destruct (Z.eqb_spec i idx) as [->|Hne]; [left; auto|].
    right; exists i; auto.
  - intros [(-> & ->)|(i & Hne & Hr & Hl & Hk & Hv)].
    + exists idx. rewrite psl_set_entry, keys_set_entry, data_set_entry
        by (auto; lia).
      rewrite Z.eqb_refl; auto.
    + exists i. rewrite psl_set_entry, keys_set_entry, data_set_entry
        by (auto; lia).
      destruct (Z.eqb_spec i idx); [contradiction|auto].
Qed.

Lemma map_index_same (m m' : nghttp3_map) (key : Z) :
  seed m' = seed m -> hashbits m' = hashbits m ->
  map_index m' key = map_index m key.
Proof. intros Hs Hh; unfold map_index; rewrite Hs, Hh; reflexivity. Qed.

(** Every slot has a predecessor. *)
Lemma nxt_surj (T i : Z) :
  2 <= T -> 0 <= i < T -> exists i0, 0 <= i0 < T /\ nxt T i0 = i.
Proof.
  intros HT Hi; destruct (Z.eq_dec i 0) as [->|N].
  - exists (T - 1); split; [lia|].
    destruct (nxt_spec T (T - 1)) as [[? ?]|[? ?]]; lia.
  - exists (i - 1); split; [lia|].
    destruct (nxt_spec T (i - 1)) as [[? ?]|[? ?]]; lia.
Qed.

(** The carried probe length never exceeds 256: it is at most one more
    than a stored byte. *)
Lemma carried_bound (m : nghttp3_map) (idx key val p e : Z) :
  carried m idx key val p e -> 1 <= p <= 256.
Proof.
  intros [Hc Hi Hex _ _ Hprev _ _ _].
  pose proof (ic_wf m Hc) as Hw.
  pose proof (tablelen_bounds m Hw) as HT.
  pose proof (dist_range _ _ _ (map_index_range m key (wf_bits m Hw)) Hi)
    as Hdh.
  fold (tablelen m) in Hdh.
  destruct (nxt_surj (tablelen m) idx ltac:(lia) Hi) as (i0 & Hr & E).
  pose proof (wf_byte m Hw i0 Hr). pose proof (Hprev i0 Hr E). lia.
Qed.

Lemma carried_not_dup (m : nghttp3_map) (idx key val p e : Z) :
  carried m idx key val p e -> rd (psl m) idx <> 0 ->
  rd (keys m) idx <> key.
Proof.
  intros [Hc Hi _ Habs _ _ _ _ _] Hl E.
  apply (Habs (rd (data m) idx)). exists idx; repeat split; auto; lia.
Qed.

(** The loop moves to the next slot without a swap. *)
Lemma carried_next (m : nghttp3_map) (idx key val p e : Z) :
  carried m idx key val p e -> rd (psl m) idx <> 0 ->
  p <= rd (psl m) idx ->
  carried m (nxt (tablelen m) idx) key val (p + 1) e /\
  dist (tablelen m) (nxt (tablelen m) idx) e = dist (tablelen m) idx e - 1.
Proof.
  intros [Hc Hi Hex Habs Hval Hprev (He & Hz) Hroom Hs] Hl Hle.
  pose proof (ic_wf m Hc) as Hw.
  assert (Hne : idx <> e) by congruence.
  pose proof (nxt_range _ _ Hi) as Hn.
  pose proof (dist_step _ _ _ Hi He Hne) as Hd.
  pose proof (dist_range _ _ _ Hn He) as Hdn.
  split; [|exact Hd]. constructor; auto; try lia.
  - rewrite dist_step_r; auto; try lia. apply map_index_range, Hw.
  - intros i0 Hr0 E. apply nxt_inj in E; auto. subst i0. lia.
Qed.

(** The loop swaps the carried entry with a closer-to-home occupant and
    the stored probe length fits in the psl byte. *)
Lemma carried_swap (m : nghttp3_map) (idx key val p e : Z) :
  carried m idx key val p e -> rd (psl m) idx <> 0 ->
  rd (psl m) idx < p -> p <= 255 ->
  carried (map_set_entry m idx key val p) (nxt (tablelen m) idx)
          (rd (keys m) idx) (rd (data m) idx) (rd (psl m) idx + 1) e.
Proof.
  intros [Hc Hi Hex Habs Hval Hprev (He & Hz) Hroom Hs] Hl Hlt Hp.
  pose proof (ic_wf m Hc) as Hw.
  pose proof (wf_byte m Hw idx Hi) as Hb.
  assert (Hne : idx <> e) by congruence.
  pose proof (nxt_range _ _ Hi) as Hn.
  pose proof (dist_step _ _ _ Hi He Hne) as Hd.
  pose proof (dist_range _ _ _ Hn He) as Hdn.
  set (m1 := map_set_entry m idx key val p).
  assert (Hlive_idx : entry_at m idx (rd (keys m) idx) (rd (data m) idx))
    by (repeat split; auto; lia).
  assert (Hu : u8 p <> 0) by (rewrite u8_small; lia).
  constructor; change (tablelen m1) with (tablelen m);
    change (map_index m1) with (map_index m);
    change (size m1) with (size m); auto.
  - apply Inv_core_set_entry; auto; lia.
  - rewrite (ic_exact m Hc idx Hi Hl).
    rewrite dist_step_r; auto.
    + apply map_index_range, Hw.
    + rewrite <- (ic_exact m Hc idx Hi Hl). lia.
  - intros v Hh. unfold m1 in Hh.
    rewrite holds_set_entry in Hh by auto.
    destruct Hh as [(Ek & _)|(i & Hne' & Hr & Hlv & Hk & Hv)].
    + apply (Habs (rd (data m) idx)). rewrite <- Ek.
      exists idx; exact Hlive_idx.
    + apply Hne'. apply (ic_distinct m Hc); auto.
  - apply (ic_data m Hc); auto.
  - intros i0 Hr0 E. apply nxt_inj in E; auto. subst i0.
    unfold m1; rewrite psl_set_entry by (auto; lia).
    rewrite Z.eqb_refl, u8_small by lia. lia.
  - split; [exact He|].
    unfold m1; rewrite psl_set_entry by (auto; lia).
    destruct (Z.eqb_spec e idx); [congruence | exact Hz].
  - lia.
Qed.

(** The entries after a swap, counting the displaced one. *)
Lemma holds_swap (m : nghttp3_map) (idx key val p k v : Z) :
  wf m -> 0 <= idx < tablelen m -> rd (psl m) idx <> 0 -> u8 p <> 0 ->
  (holds (map_set_entry m idx key val p) k v \/
   (k = rd (keys m) idx /\ v = rd (data m) idx)) <->
  (holds m k v \/ (k = key /\ v = val)).
Proof.
  intros Hw Hi Hl Hu. rewrite holds_set_entry by auto.
  assert (Hlive_idx : entry_at m idx (rd (keys m) idx) (rd (data m) idx))
    by (repeat split; auto; lia).
  split.
  - intros [[H1|(i & Hne' & H1)]|(-> & ->)].
    + right; exact H1.
    + left; exists i; exact H1.
    + left; exists idx; exact Hlive_idx.
  - intros [(i & H1)|H1]; [|left; left; exact H1].
    destruct (Z.eq_dec i idx) as [->|Hne'].
    + right. destruct H1 as (_ & _ & <- & <-); auto.
    + left; right; exists i; auto.
Qed.

(** The probing loop of [map_insert] for a key that is not in the
    table.  The loop adds one live slot exactly when no stored probe
    length was truncated; the call then succeeded, the invariant holds
    again and the table gained exactly the new entry.  A failure is
    only possible after a truncation, and loses a live slot. *)
Lemma map_insert_loop_strong (fuel : nat) :
  forall (m : nghttp3_map) (idx key val p e rv : Z) (m' : nghttp3_map),
    carried m idx key val p e ->
    dist (tablelen m) idx e < Z.of_nat fuel ->
    map_insert_loop fuel m (tablelen m - 1) idx key val p = Done (rv, m') ->
    (rv <> 0 -> live_count m' < live_count m) /\
    (live_count m' = live_count m + 1 ->
     rv = 0 /\ Inv_core m' /\
     (forall k v, holds m' k v <-> holds m k v \/ (k = key /\ v = val))).
Proof.
  induction fuel as [|fuel IH]; intros m idx key val p e rv m' HJ Hf Hrun.
  - discriminate Hrun.
  - pose proof (carried_bound _ _ _ _ _ _ HJ) as Hp256.
    pose proof (cr_core _ _ _ _ _ _ HJ) as Hc.
    pose proof (cr_idx _ _ _ _ _ _ HJ) as Hi.
    destruct (cr_hole _ _ _ _ _ _ HJ) as (He & Hz).
    pose proof (cr_size _ _ _ _ _ _ HJ) as Hs.
    pose proof (ic_wf m Hc) as Hw.
    pose proof (wf_byte m Hw idx Hi) as Hb.
    rewrite map_insert_loop_S in Hrun.
    destruct (Z.eqb_spec (rd (psl m) idx) 0) as [E0|N0].
    + (* empty slot: the entry is placed *)
      inversion Hrun; subst rv m'; clear Hrun.
      split; [intros N; contradiction|]. intros Hlive.
      change (live_count (set_size ?x _)) with (live_count x) in Hlive.
      rewrite live_set_entry in Hlive by auto.
      rewrite (nz_zero _ E0) in Hlive.
      assert (Hu : u8 p <> 0).
      { intros E; rewrite E in Hlive; change (nz 0) with 0 in Hlive; lia. }
      assert (Hp : p <= 255).
      { destruct (Z.eq_dec p 256) as [->|];
          [exfalso; apply Hu; reflexivity|lia]. }
      split; [reflexivity|]. split.
      * destruct HJ. apply Inv_core_set_size, Inv_core_set_entry; auto; lia.
      * intros k v.
        change (holds (set_size ?x _) k v) with (holds x k v).
        rewrite holds_set_entry by auto.
        split.
        -- intros [H|(i & Hne & H)]; [right; exact H|left; exists i; exact H].
        -- intros [(i & H)|H]; [right|left; exact H].
           exists i; split; [|exact H].
           intros ->; destruct H as (_ & Hl & _); contradiction.
    + rewrite step_tablelen in Hrun by auto.
      pose proof two63_lt.
      destruct (Z.gtb_spec p (rd (psl m) idx)) as [G|L].
      * (* displacement *)
        set (m1 := map_set_entry m idx key val p) in *.
        assert (Hne : idx <> e) by congruence.
        pose proof (nxt_range _ _ Hi) as Hn.
        pose proof (dist_step _ _ _ Hi He Hne) as Hd.
        assert (Hw1 : wf m1) by (apply wf_set_entry; auto).
        assert (Hz1 : rd (psl m1) e = 0).
        { unfold m1; rewrite psl_set_entry by (auto; lia).
          destruct (Z.eqb_spec e idx); [congruence | exact Hz]. }
        assert (Hl1 : live_count m1 = live_count m - 1 + nz (u8 p)).
        { unfold m1; rewrite live_set_entry by auto.
          rewrite (nz_nonzero _ N0); reflexivity. }
        destruct (Z.eq_dec p 256) as [E256|N256].
        -- (* the stored probe length wraps to 0 *)
           rewrite E256 in Hl1; change (nz (u8 256)) with 0 in Hl1.
           destruct (map_insert_loop_weak fuel m1 (nxt (tablelen m) idx)
                       (rd (keys m) idx) (rd (data m) idx)
                       (size_t (rd (psl m) idx + 1)) e Hw1 Hn He Hz1
                       ltac:(change (tablelen m1) with (tablelen m); lia) Hs)
             as (rv2 & m2 & Hr2 & _ & _ & _ & Hc2).
           change (tablelen m1) with (tablelen m) in Hr2.
           rewrite Hr2 in Hrun; inversion Hrun; subst rv2 m2; clear Hrun.
           split; intros; destruct Hc2 as [(? & _ & ?)|(? & _ & ?)]; lia.
        -- assert (Hu : u8 p <> 0) by (rewrite u8_small; lia).
           rewrite (nz_nonzero _ Hu) in Hl1.
           rewrite size_t_small in Hrun by lia.
           pose proof (carried_swap _ _ _ _ _ _ HJ N0 ltac:(lia) ltac:(lia))
             as HJ1. fold m1 in HJ1.
           destruct (IH m1 _ _ _ _ e rv m' HJ1
                       ltac:(change (tablelen m1) with (tablelen m); lia) Hrun)
             as (Hfail & Hok).
           split; [intros N; pose proof (Hfail N); lia|].
           intros Hlive. destruct (Hok ltac:(lia)) as (Hrv & Hc' & Hcont).
           split; [exact Hrv|]. split; [exact Hc'|].
           intros k v; rewrite Hcont. apply holds_swap; auto.
      * pose proof (carried_not_dup _ _ _ _ _ _ HJ N0) as Hnd.
        destruct (Z.eqb_spec (rd (keys m) idx) key) as [E|_];
          [contradiction|].
        rewrite size_t_small in Hrun by lia.
        destruct (carried_next _ _ _ _ _ _ HJ N0 L) as (HJ1 & Hd).
        apply (IH m _ key val _ e rv m' HJ1 ltac:(lia) Hrun).
Qed.

(* ================================================================== *)
(** * A result does not depend on the budget *)
(* ================================================================== *)

Lemma map_insert_loop_mono (fuel : nat) :
  forall (fuel' : nat) m mask idx key val p r,
    (fuel <= fuel')%nat ->
    map_insert_loop fuel m mask idx key val p = Done r ->
    map_insert_loop fuel' m mask idx key val p = Done r.
Proof.
  induction fuel as [|fuel IH]; intros [|fuel'] m mask idx key val p r Hle H;
    try discriminate H; try lia.
  rewrite map_insert_loop_S in *.
  destruct (rd (psl m) idx =? 0); [exact H|].
  destruct (p >? rd (psl m) idx); [apply IH; [lia | exact H]|].
  destruct (rd (keys m) idx =? key); [exact H|].
  apply IH; [lia | exact H].
Qed.

Lemma map_insert_mono (fuel fuel' : nat) m key val r :
  (fuel <= fuel')%nat ->
  map_insert fuel m key val = Done r -> map_insert fuel' m key val = Done r.
Proof. intros Hle; apply map_insert_loop_mono; exact Hle. Qed.

Lemma find_loop_mono (fuel : nat) :
  forall (fuel' : nat) m mask idx key p r,
    (fuel <= fuel')%nat ->
    find_loop fuel m mask idx key p = Done r ->
    find_loop fuel' m mask idx key p = Done r.
Proof.
  induction fuel as [|fuel IH]; intros [|fuel'] m mask idx key p r Hle H;
    try discriminate H; try lia.
  rewrite find_loop_S in *.
  destruct (p >? rd (psl m) idx); [exact H|].
  destruct (rd (keys m) idx =? key); [exact H|].
  apply IH; [lia | exact H].
Qed.

Lemma nghttp3_map_find_mono (fuel fuel' : nat) m key r :
  (fuel <= fuel')%nat ->
  nghttp3_map_find fuel m key = Done r ->
  nghttp3_map_find fuel' m key = Done r.
Proof.
  intros Hle; unfold nghttp3_map_find.
  destruct (size m =? 0); [auto|]. apply find_loop_mono; exact Hle.
Qed.

Lemma shift_loop_mono (fuel : nat) :
  forall (fuel' : nat) m mask dest idx r,
    (fuel <= fuel')%nat ->
    shift_loop fuel m mask dest idx = Done r ->
    shift_loop fuel' m mask dest idx = Done r.
Proof.
  induction fuel as [|fuel IH]; intros [|fuel'] m mask dest idx r Hle H;
    try discriminate H; try lia.
  rewrite shift_loop_S in *.
  destruct (rd (psl m) idx <=? 1); [exact H|].
  apply IH; [lia | exact H].
Qed.

Lemma bind_Done {A B : Type} (o : outcome A) (k : A -> outcome B) (b : B) :
  bind o k = Done b -> exists a, o = Done a /\ k a = Done b.
Proof. destruct o; simpl; intros H; try discriminate H; eauto. Qed.

Lemma remove_loop_mono (fuel : nat) :
  forall (fuel' fuel2 fuel2' : nat) m mask idx key p r,
    (fuel <= fuel')%nat -> (fuel2 <= fuel2')%nat ->
    remove_loop fuel fuel2 m mask idx key p = Done r ->
    remove_loop fuel' fuel2' m mask idx key p = Done r.
Proof.
  induction fuel as [|fuel IH];
    intros [|fuel'] fuel2 fuel2' m mask idx key p r Hle Hle2 H;
    try discriminate H; try lia.
  rewrite remove_loop_S in *.
  destruct (p >? rd (psl m) idx); [exact H|].
  destruct (rd (keys m) idx =? key).
  - apply bind_Done in H; destruct H as (m1 & H1 & H2).
    rewrite (shift_loop_mono _ _ _ _ _ _ _ Hle2 H1). exact H2.
  - apply (IH fuel' fuel2 fuel2'); [lia | lia | exact H].
Qed.

Lemma nghttp3_map_remove_mono (fuel fuel' : nat) m key r :
  (fuel <= fuel')%nat ->
  nghttp3_map_remove fuel m key = Done r ->
  nghttp3_map_remove fuel' m key = Done r.
Proof.
  intros Hle; unfold nghttp3_map_remove.
  destruct (size m =? 0); [auto|].
  apply remove_loop_mono; exact Hle.
Qed.

Lemma resize_loop_mono (n : nat) :
  forall (fuel fuel' : nat) old i nm r,
    (fuel <= fuel')%nat ->
    resize_loop fuel n old i nm = Done r ->
    resize_loop fuel' n old i nm = Done r.
Proof.
  induction n as [|n IH]; intros fuel fuel' old i nm r Hle H; [exact H|].
  rewrite resize_loop_S in *.
  destruct (rd (psl old) i =? 0); [apply (IH fuel); auto|].
  apply bind_Done in H; destruct H as (x & H1 & H2).
  rewrite (map_insert_mono _ _ _ _ _ _ Hle H1); cbn [bind].
  destruct (fst x =? 0); [apply (IH fuel); auto | discriminate H2].
Qed.

Lemma map_resize_mono (fuel fuel' : nat) ok m nh r :
  (fuel <= fuel')%nat ->
  map_resize fuel ok m nh = Done r -> map_resize fuel' ok m nh = Done r.
Proof.
  intros Hle; unfold map_resize.
  destruct (negb ok); [auto|].
  destruct (size m =? 0); [auto|].
  intros H; apply bind_Done in H; destruct H as (x & H1 & H2).
  rewrite (resize_loop_mono _ _ _ _ _ _ _ Hle H1). exact H2.
Qed.

Lemma nghttp3_map_insert_mono (fuel fuel' : nat) ok m key val r :
  (fuel <= fuel')%nat ->
  nghttp3_map_insert fuel ok m key val = Done r ->
  nghttp3_map_insert fuel' ok m key val = Done r.
Proof.
  intros Hle; unfold nghttp3_map_insert.
  destruct (val =? 0); [auto|].
  match goal with |- (if ?c then _ else _) = _ -> _ => destruct c end;
    [|apply map_insert_mono; exact Hle].
  match goal with |- (if ?c then _ else _) = _ -> _ => destruct c end;
    [auto|].
  intros H; apply bind_Done in H; destruct H as (x & H1 & H2).
  rewrite (map_resize_mono _ _ _ _ _ _ Hle H1); cbn [bind].
  destruct (negb (fst x =? 0)); [exact H2|].
  apply (map_insert_mono fuel); auto.
Qed.

Lemma enough_ge (fuel : nat) (m : nghttp3_map) :
  (fuel <= enough fuel m)%nat /\ 16 <= Z.of_nat (enough fuel m) /\
  2 * tablelen m <= Z.of_nat (enough fuel m).
Proof. unfold enough; lia. Qed.

Lemma tablelen_pos (m : nghttp3_map) : 0 <= hashbits m -> 1 <= tablelen m.
Proof.
  intros H; unfold tablelen.
  pose proof (Z.pow_pos_nonneg 2 (hashbits m) ltac:(lia) H). lia.
Qed.

Lemma WInv_bits (m : nghttp3_map) : WInv m -> 0 <= hashbits m.
Proof.
  intros [(Hb & _)|(Hw & _)]; [lia|]. pose proof (wf_bits m Hw); lia.
Qed.

(** ** What a returned result tells, whatever the budget was *)

Lemma nghttp3_map_insert_result (fuel : nat) (ok : bool) (m : nghttp3_map)
    (key val rv : Z) (m' : nghttp3_map) :
  WInv m -> nghttp3_map_insert fuel ok m key val = Done (rv, m') ->
  WInv m' /\ seed m' = seed m /\
  ((rv = 0 /\ size m' = size m + 1 /\
    live_count m' <= live_count m + 1) \/
   (rv = NGHTTP3_ERR_NOMEM /\ m' = m) \/
   (rv = NGHTTP3_ERR_INVALID_ARGUMENT /\ size m' = size m /\
    live_count m' <= live_count m)).
Proof.
  intros HI H.
  destruct (enough_ge fuel m) as (Hle & H16 & H2).
  apply (nghttp3_map_insert_mono _ _ _ _ _ _ _ Hle) in H.
  destruct (nghttp3_map_insert_weak _ ok m key val HI H16 H2)
    as [Hx|(rv' & m2 & Hx & Hr)]; rewrite Hx in H; inversion H; subst.
  exact Hr.
Qed.

Lemma nghttp3_map_remove_result (fuel : nat) (m : nghttp3_map)
    (key rv : Z) (m' : nghttp3_map) :
  WInv m -> nghttp3_map_remove fuel m key = Done (rv, m') ->
  WInv m' /\ seed m' = seed m /\
  ((rv = NGHTTP3_ERR_INVALID_ARGUMENT /\ m' = m) \/
   (rv = 0 /\ hashbits m' = hashbits m /\ size m' = size m - 1 /\
    live_count m' = live_count m - 1 /\ exists v, holds m key v)).
Proof.
  intros HI H.
  destruct (enough_ge fuel m) as (Hle & H16 & H2).
  apply (nghttp3_map_remove_mono _ _ _ _ _ Hle) in H.
  pose proof (tablelen_pos m (WInv_bits m HI)).
  destruct (nghttp3_map_remove_weak (enough fuel m) m key HI ltac:(lia))
    as (rv' & m2 & Hx & Hr); rewrite Hx in H; inversion H; subst.
  exact Hr.
Qed.

Lemma nghttp3_map_find_result (fuel : nat) (m : nghttp3_map) (key r : Z) :
  WInv m -> nghttp3_map_find fuel m key = Done r -> r = 0 \/ holds m key r.
Proof.
  intros HI H.
  destruct (enough_ge fuel m) as (Hle & H16 & H2).
  apply (nghttp3_map_find_mono _ _ _ _ _ Hle) in H.
  pose proof (tablelen_pos m (WInv_bits m HI)).
  destruct (nghttp3_map_find_weak (enough fuel m) m key HI ltac:(lia))
    as (r' & Hx & Hr); rewrite Hx in H; inversion H; subst.
  exact Hr.
Qed.

Lemma map_insert_result (fuel : nat) (m : nghttp3_map) (key val rv : Z)
    (m' : nghttp3_map) :
  wf m -> live_count m < tablelen m -> 0 <= size m < 2 ^ 63 ->
  map_insert fuel m key val = Done (rv, m') ->
  wf m' /\ hashbits m' = hashbits m /\ seed m' = seed m /\
  ((rv = 0 /\ size m' = size m + 1 /\ live_count m' <= live_count m + 1) \/
   (rv = NGHTTP3_ERR_INVALID_ARGUMENT /\ size m' = size m /\
    live_count m' <= live_count m)).
Proof.
  intros Hw Hl Hs H.
  set (F := Nat.max fuel (Z.to_nat (tablelen m))).
  apply (map_insert_mono fuel F) in H; [|unfold F; lia].
  pose proof (tablelen_bounds m Hw).
  destruct (map_insert_weak F m key val Hw Hl Hs ltac:(unfold F; lia))
    as (rv' & m2 & Hx & Hr); rewrite Hx in H; inversion H; subst.
  exact Hr.
Qed.

Lemma resize_loop_result (fuel n : nat) (old : nghttp3_map) (i : Z)
    (nm nm' : nghttp3_map) :
  wf nm -> 0 <= i -> live_count nm + Z.of_nat n < tablelen nm ->
  0 <= size nm -> size nm + Z.of_nat n < 2 ^ 63 ->
  resize_loop fuel n old i nm = Done nm' ->
  wf nm' /\ hashbits nm' = hashbits nm /\ seed nm' = seed nm /\
  live_count nm' + live_before old i
  <= live_count nm + live_before old (i + Z.of_nat n).
Proof.
  intros Hw Hi Hl Hs0 Hs H.
  set (F := Nat.max fuel (Z.to_nat (tablelen nm))).
  apply (resize_loop_mono n fuel F) in H; [|unfold F; lia].
  pose proof (tablelen_bounds nm Hw).
  destruct (resize_loop_weak F n old i nm Hw ltac:(unfold F; lia) Hi Hl Hs0 Hs)
    as [Hx|(n' & Hx & Hr)]; rewrite Hx in H; inversion H; subst.
  exact Hr.
Qed.

(** [map_insert] of a new key into a table with an empty slot: unless a
    probe length was truncated (the number of live slots did not grow),
    the table gains exactly the new entry. *)
Lemma map_insert_new (fuel : nat) (m : nghttp3_map) (key val rv : Z)
    (m' : nghttp3_map) :
  Inv_core m -> live_count m < tablelen m -> 0 <= size m < 2 ^ 63 ->
  (forall v, ~ holds m key v) -> val <> 0 ->
  map_insert fuel m key val = Done (rv, m') ->
  (rv <> 0 -> live_count m' < live_count m) /\
  (live_count m' = live_count m + 1 ->
   rv = 0 /\ Inv_core m' /\
   (forall k v, holds m' k v <-> holds m k v \/ (k = key /\ v = val))).
Proof.
  intros Hc Hl Hs Habs Hval H.
  pose proof (ic_wf m Hc) as Hw.
  set (F := Nat.max fuel (Z.to_nat (tablelen m))).
  apply (map_insert_mono fuel F) in H; [|unfold F; lia].
  pose proof (tablelen_bounds m Hw) as HT.
  unfold map_insert in H. rewrite mask_tablelen in H by auto.
  destruct (nonzero_count_hole (psl m)) as (e & He & Hz).
  { rewrite (wf_psl m Hw); exact Hl. }
  rewrite (wf_psl m Hw) in He.
  pose proof (map_index_range m key (wf_bits m Hw)) as Hi.
  fold (tablelen m) in Hi.
  pose proof (dist_range _ _ _ Hi He) as Hd.
  apply (map_insert_loop_strong F m (map_index m key) key val 1 e rv m');
    auto; try (unfold F; lia).
  constructor; auto; try lia.
  - rewrite dist_self by auto; reflexivity.
  - intros i0 Hr _. pose proof (wf_byte m Hw i0 Hr); lia.
Qed.

(* ================================================================== *)
(** * Growth keeps the entries *)
(* ================================================================== *)

Lemma live_before_le (old : nghttp3_map) (i : Z) :
  0 <= i -> 0 <= live_before old i <= i.
Proof.
  intros H; unfold live_before.
  pose proof (nonzero_count_bounds (firstn (Z.to_nat i) (psl old))) as B.
  pose proof (firstn_le_length (Z.to_nat i) (psl old)). lia.
Qed.

Lemma Inv_core_fresh (b s : Z) :
  4 <= b <= 63 ->
  Inv_core (mk_map (calloc (size_t (Z.shiftl 1 b)))
                   (calloc (size_t (Z.shiftl 1 b)))
                   (calloc (size_t (Z.shiftl 1 b))) s 0 b).
Proof.
  intros H; constructor; msimpl.
  - apply wf_fresh; exact H.
  - intros i _ Hl; rewrite rd_calloc in Hl; contradiction.
  - intros i _; rewrite !rd_calloc; lia.
  - intros i j _ _ Hl; rewrite rd_calloc in Hl; contradiction.
  - intros i _ Hl; rewrite rd_calloc in Hl; contradiction.
Qed.

Lemma holds_fresh (n s z b k v : Z) :
  ~ holds (mk_map (calloc n) (calloc n) (calloc n) s z b) k v.
Proof.
  intros (i & _ & Hl & _); msimpl. rewrite rd_calloc in Hl; contradiction.
Qed.

Lemma Inv_core_rebuild (n : nghttp3_map) (z : Z) :
  Inv_core n ->
  Inv_core (mk_map (keys n) (data n) (psl n) (seed n) z (hashbits n)).
Proof.
  intros [Hw He Ho Hd Hv]; constructor; auto.
  apply wf_rebuild; exact Hw.
Qed.

(** The re-insertion loop: [nm] holds the entries of the first [i]
    slots of the old table.  If the loop ends with as many live slots
    as the old table has, the new table holds the old entries. *)
Lemma resize_loop_strong (fuel n : nat) :
  forall (old : nghttp3_map) (i : Z) (nm nm' : nghttp3_map),
    Inv_core old -> Inv_core nm ->
    0 <= i -> i + Z.of_nat n = tablelen old ->
    tablelen old < tablelen nm ->
    live_count nm = live_before old i -> size nm = live_before old i ->
    (forall k v, holds nm k v <->
                 exists j, 0 <= j < i /\ entry_at old j k v) ->
    resize_loop fuel n old i nm = Done nm' ->
    live_count nm' = live_count old ->
    Inv_core nm' /\ hashbits nm' = hashbits nm /\ seed nm' = seed nm /\
    (forall k v, holds nm' k v <-> holds old k v).
Proof.
  induction n as [|n IH];
    intros old i nm nm' Hco Hcn Hi Hin HT Hl Hs Hcont H Hfin.
  - inversion H; subst nm'. split; [exact Hcn|]. repeat split; auto;
      rewrite Hcont.
    + intros (j & Hj & He); exists j; exact He.
    + intros (j & He); exists j; split; [|exact He].
      destruct He as (Hr & _). lia.
  - rewrite resize_loop_S in H.
    pose proof (ic_wf old Hco) as Hwo.
    pose proof (ic_wf nm Hcn) as Hwn.
    pose proof (tablelen_bounds nm Hwn) as HTn.
    pose proof (live_before_S old i Hi) as HS.
    pose proof (live_before_le old i Hi) as HB.
    assert (Hall : live_before old (i + 1 + Z.of_nat n) = live_count old).
    { replace (i + 1 + Z.of_nat n) with (Z.of_nat (length (psl old)))
        by (rewrite (wf_psl old Hwo); lia).
      apply live_before_all. }
    assert (Hir : 0 <= i < tablelen old) by lia.
    destruct (Z.eqb_spec (rd (psl old) i) 0) as [E0|N0].
    + rewrite (nz_zero _ E0) in HS.
      apply (IH old (i + 1) nm nm'); auto; try lia.
      intros k v; rewrite Hcont; split.
      * intros (j & Hj & He); exists j; split; [lia | exact He].
      * intros (j & Hj & He); exists j; split; [|exact He].
        destruct (Z.eq_dec j i) as [->|]; [|lia].
        destruct He as (_ & Hlv & _); contradiction.
    + rewrite (nz_nonzero _ N0) in HS.
      apply bind_Done in H; destruct H as ((rv & m1) & H1 & H2).
      cbn [fst snd] in H2.
      destruct (map_insert_result fuel nm _ _ rv m1 Hwn ltac:(lia) ltac:(lia) H1)
        as (Hw1 & Hh1 & Hsd1 & Hc1).
      assert (HT1 : tablelen m1 = tablelen nm) by (unfold tablelen; congruence).
      destruct Hc1 as [(-> & Hz1 & Hl1)|(-> & _)]; [|discriminate H2].
      cbn [Z.eqb] in H2.
      destruct (resize_loop_result fuel n old (i + 1) m1 nm' Hw1
                  ltac:(lia) ltac:(lia) ltac:(lia) ltac:(lia) H2)
        as (_ & _ & _ & Hb2).
      rewrite Hall in Hb2.
      assert (Hl1' : live_count m1 = live_count nm + 1) by lia.
      assert (Habs : forall v, ~ holds nm (rd (keys old) i) v).
      { intros v Hh; apply Hcont in Hh. destruct Hh as (j & Hj & Hr & Hlv & Hk & _).
        assert (j = i) by (apply (ic_distinct old Hco); auto). lia. }
      destruct (proj2 (map_insert_new fuel nm _ _ 0 m1 Hcn ltac:(lia)
                         ltac:(lia) Habs (ic_data old Hco i Hir N0) H1) Hl1')
        as (_ & Hc1 & Hcont1).
      destruct (IH old (i + 1) m1 nm') as (Hc' & Hh' & Hsd' & Hcont');
        auto; try lia.
      * intros k v; rewrite Hcont1, Hcont; split.
        -- intros [(j & Hj & He)|(-> & ->)].
           ++ exists j; split; [lia | exact He].
           ++ exists i; split; [lia|]. repeat split; auto; lia.
        -- intros (j & Hj & He).
           destruct (Z.eq_dec j i) as [->|].
           ++ right. destruct He as (_ & _ & <- & <-); auto.
           ++ left; exists j; split; [lia | exact He].
      * split; [exact Hc'|]. split; [congruence|]. split; [congruence|].
        exact Hcont'.
Qed.

Lemma unallocated_no_holds (m : nghttp3_map) (k v : Z) :
  unallocated m -> ~ holds m k v.
Proof.
  intros (_ & _ & _ & _ & Hp); apply no_live_when_zero.
  unfold live_count; rewrite Hp; simpl; lia.
Qed.

Lemma map_resize_result (fuel : nat) (ok : bool) (m : nghttp3_map)
    (nh rv : Z) (m1 : nghttp3_map) :
  WInv m ->
  nh = (if hashbits m =? 0 then 4 else hashbits m + 1) -> nh <= 63 ->
  map_resize fuel ok m nh = Done (rv, m1) ->
  (ok = false /\ rv = NGHTTP3_ERR_NOMEM /\ m1 = m) \/
  (ok = true /\ rv = 0 /\ wf m1 /\ hashbits m1 = nh /\ seed m1 = seed m /\
   size m1 = size m /\ live_count m1 <= live_count m).
Proof.
  intros HI Hnh Hle H.
  set (F := Nat.max fuel (Z.to_nat (2 ^ nh))).
  apply (map_resize_mono fuel F) in H; [|unfold F; lia].
  assert (0 <= nh) by (destruct (hashbits m =? 0); pose proof (WInv_bits m HI); lia).
  pose proof (Z.pow_pos_nonneg 2 nh ltac:(lia) ltac:(lia)).
  destruct (map_resize_weak F ok m nh HI Hnh Hle ltac:(unfold F; lia))
    as [Hx|[(Hok & Hx)|(m2 & Hok & Hx & Hr)]];
    rewrite Hx in H; inversion H; subst; auto.
Qed.

(** Growth of a table that satisfies the invariant: unless a probe
    length was truncated while re-inserting (the number of live slots
    dropped), the bigger table satisfies the invariant and holds the
    same entries. *)
Lemma map_resize_strong (fuel : nat) (m : nghttp3_map) (nh rv : Z)
    (m1 : nghttp3_map) :
  Inv m ->
  nh = (if hashbits m =? 0 then 4 else hashbits m + 1) -> nh <= 63 ->
  map_resize fuel true m nh = Done (rv, m1) ->
  live_count m1 = live_count m ->
  Inv_core m1 /\ (forall k v, holds m1 k v <-> holds m k v).
Proof.
  intros HI Hnh Hle H Hlive; unfold map_resize in H; cbn [negb] in H.
  destruct HI as [Hu|(Hc & Hl & Ht)].
  - destruct Hu as (Hb & Hs & Hk & Hd & Hp).
    rewrite Hs in H; cbn [Z.eqb bind] in H.
    rewrite Hb in Hnh; cbn [Z.eqb] in Hnh. subst nh.
    inversion H; subst rv m1; clear H. msimpl. split.
    + apply (Inv_core_rebuild
               (mk_map (calloc (size_t (Z.shiftl 1 4)))
                       (calloc (size_t (Z.shiftl 1 4)))
                       (calloc (size_t (Z.shiftl 1 4))) (seed m) 0 4) 0).
      apply Inv_core_fresh; lia.
    + intros k v; split; intros Hh; exfalso.
      * exact (holds_fresh _ _ _ _ k v Hh).
      * apply (unallocated_no_holds m k v); [repeat split; auto | exact Hh].
  - pose proof (ic_wf m Hc) as Hw.
    pose proof (wf_bits m Hw) as Hb.
    assert (E : nh = hashbits m + 1).
    { destruct (Z.eqb_spec (hashbits m) 0); lia. }
    pose proof (Inv_core_fresh nh (seed m) ltac:(lia)) as Hcf.
    set (fresh := mk_map _ _ _ (seed m) 0 nh) in *.
    destruct (Z.eqb_spec (size m) 0) as [E0|N0].
    + cbn [bind] in H. inversion H; subst rv m1; clear H. split.
      * apply (Inv_core_rebuild fresh (size m)); exact Hcf.
      * intros k v; split; intros Hh; exfalso.
        -- exact (holds_fresh _ _ _ _ k v Hh).
        -- apply (no_live_when_zero m k v); [lia | exact Hh].
    + apply bind_Done in H; destruct H as (nm' & H1 & H2).
      inversion H2; subst rv m1; clear H2.
      rewrite tablelen_eq in H1 by lia. fold (tablelen m) in H1.
      pose proof (tablelen_bounds m Hw) as HT.
      assert (HT2 : tablelen fresh = 2 * tablelen m).
      { unfold tablelen, fresh; msimpl. rewrite E.
        rewrite Z.pow_add_r by lia. change (2 ^ 1) with 2. lia. }
      destruct (resize_loop_strong fuel (Z.to_nat (tablelen m)) m 0 fresh nm')
        as (Hc' & Hh' & Hs' & Hcont); auto; try lia.
      * unfold fresh, live_count; msimpl. apply nonzero_count_calloc.
      * intros k v; split.
        -- intros Hh; exfalso; exact (holds_fresh _ _ _ _ k v Hh).
        -- intros (j & Hj & _); lia.
      * change (seed fresh) with (seed m) in Hs'.
        change (hashbits fresh) with nh in Hh'.
        rewrite <- Hs', <- Hh'. split.
        -- apply Inv_core_rebuild; exact Hc'.
        -- intros k v; rewrite <- Hcont. split; intros Hh; exact Hh.
Qed.

Lemma threshold_one : threshold 1 = 1.
Proof. reflexivity. Qed.

(** For a table that satisfies the invariant, whether a key is held is
    decided by a lookup. *)
Lemma holds_dec (m : nghttp3_map) (key : Z) :
  Inv m -> (exists v, holds m key v) \/ (forall v, ~ holds m key v).
Proof.
  intros HI.
  pose proof (tablelen_pos m (WInv_bits m (Inv_WInv m HI))) as HT.
  set (F := Z.to_nat (tablelen m)).
  destruct (nghttp3_map_find_weak F m key (Inv_WInv m HI) ltac:(unfold F; lia))
    as (r & Hr & [->|Hh]); [|left; exists r; exact Hh].
  right; intros v Hh.
  pose proof (find_hit F m key v HI ltac:(unfold F; lia) Hh) as Hf.
  rewrite Hf in Hr; inversion Hr; subst v.
  destruct (Inv_holds_core m key 0 HI Hh) as (Hc & _).
  exact (holds_nonnull m key 0 Hc Hh eq_refl).
Qed.

(** [map_insert] on a table that satisfies the invariant and has room
    below the load factor. *)
Lemma map_insert_Inv (fuel : nat) (m : nghttp3_map) (key val rv : Z)
    (m' : nghttp3_map) :
  Inv_core m -> live_count m = size m ->
  size m + 1 < threshold (tablelen m) -> val <> 0 ->
  map_insert fuel m key val = Done (rv, m') ->
  live_count m' < size m' \/
  (rv = 0 /\ (forall v, ~ holds m key v) /\ Inv m' /\
   size m' = size m + 1 /\ hashbits m' = hashbits m /\
   (forall k v, holds m' k v <-> holds m k v \/ (k = key /\ v = val))) \/
  (rv = NGHTTP3_ERR_INVALID_ARGUMENT /\ (exists v, holds m key v) /\ m' = m).
Proof.
  intros Hc Hl Ht Hval H.
  pose proof (ic_wf m Hc) as Hw.
  pose proof (tablelen_bounds m Hw) as HT.
  pose proof (threshold_bounds (hashbits m) ltac:(apply Hw)) as Hth.
  fold (tablelen m) in Hth.
  pose proof (nonzero_count_bounds (psl m)) as Hnb. fold (live_count m) in Hnb.
  assert (HI : Inv m) by (right; split; [exact Hc|split; [exact Hl|lia]]).
  destruct (holds_dec m key HI) as [(v0 & Hh)|Habs].
  - right; right.
    set (F := Nat.max fuel (Z.to_nat (tablelen m))).
    apply (map_insert_mono fuel F) in H; [|unfold F; lia].
    rewrite (map_insert_dup F m key v0 val Hc Hh ltac:(unfold F; lia)) in H.
    inversion H; subst. split; [reflexivity|]. split; [exists v0; exact Hh|].
    reflexivity.
  - destruct (map_insert_result fuel m key val rv m' Hw ltac:(lia) ltac:(lia) H)
      as (Hw' & Hh' & Hsd' & Hr).
    destruct (map_insert_new fuel m key val rv m' Hc ltac:(lia) ltac:(lia)
                Habs Hval H) as (Hfail & Hok).
    destruct Hr as [(-> & Hz & Hlv)|(-> & Hz & Hlv)].
    + destruct (Z.eq_dec (live_count m') (live_count m + 1)) as [E|N];
        [|left; lia].
      destruct (Hok E) as (_ & Hc' & Hcont).
      right; left. split; [reflexivity|]. split; [exact Habs|].
      split; [|split; [exact Hz|split; [exact Hh'|exact Hcont]]].
      right; split; [exact Hc'|]. split; [lia|].
      unfold tablelen in *; rewrite Hh'; lia.
    + left. assert (live_count m' < live_count m)
        by (apply Hfail; unfold NGHTTP3_ERR_INVALID_ARGUMENT; lia).
      lia.
Qed.

(** ** [nghttp3_map_insert] on a table that satisfies the invariant

    One of four things happened: the growth failed and nothing changed;
    a stored probe length was truncated (fewer live slots than [size]);
    the key was new and was added; the key was present and nothing but
    a possible growth happened. *)
Lemma nghttp3_map_insert_spec (fuel : nat) (ok : bool) (m : nghttp3_map)
    (key val rv : Z) (m' : nghttp3_map) :
  Inv m -> nghttp3_map_insert fuel ok m key val = Done (rv, m') ->
  (rv = NGHTTP3_ERR_NOMEM /\ m' = m) \/
  (rv <> NGHTTP3_ERR_NOMEM /\ live_count m' < size m') \/
  (rv = 0 /\ (forall v, ~ holds m key v) /\ Inv m' /\
   size m' = size m + 1 /\
   (forall k v, holds m' k v <-> holds m k v \/ (k = key /\ v = val))) \/
  (rv = NGHTTP3_ERR_INVALID_ARGUMENT /\ (exists v, holds m key v) /\
   Inv m' /\ size m' = size m /\
   (forall k v, holds m' k v <-> holds m k v) /\
   (size m + 1 < threshold (tablelen m) -> m' = m)).
Proof.
  intros HI H.
  destruct (nghttp3_map_insert_result fuel ok m key val rv m'
              (Inv_WInv m HI) H) as (HW' & Hsd' & Hres).
  unfold nghttp3_map_insert in H.
  destruct (Z.eqb_spec val 0) as [|Hval]; [discriminate H|].
  assert (After : forall m1,
    Inv_core m1 -> live_count m1 = size m1 -> size m1 = size m ->
    size m1 + 1 < threshold (tablelen m1) ->
    (forall k v, holds m1 k v <-> holds m k v) ->
    (size m + 1 < threshold (tablelen m) -> m1 = m) ->
    map_insert fuel m1 key val = Done (rv, m') ->
    (rv = NGHTTP3_ERR_NOMEM /\ m' = m) \/
    (rv <> NGHTTP3_ERR_NOMEM /\ live_count m' < size m') \/
    (rv = 0 /\ (forall v, ~ holds m key v) /\ Inv m' /\
     size m' = size m + 1 /\
     (forall k v, holds m' k v <-> holds m k v \/ (k = key /\ v = val))) \/
    (rv = NGHTTP3_ERR_INVALID_ARGUMENT /\ (exists v, holds m key v) /\
     Inv m' /\ size m' = size m /\
     (forall k v, holds m' k v <-> holds m k v) /\
     (size m + 1 < threshold (tablelen m) -> m' = m))).
  { intros m1 Hc1 Hl1 Hz1 Ht1 Hsame Hng H1.
    destruct (map_insert_Inv fuel m1 key val rv m' Hc1 Hl1 Ht1 Hval H1)
      as [Hdef|[(-> & Habs & HI' & Hz & _ & Hcont)|(-> & (v0 & Hh) & ->)]].
    - right; left; split; [|exact Hdef].
      destruct Hres as [(-> & _)|[(-> & ->)|(-> & _)]];
        try discriminate.
      destruct HI as [Hu|(Hc & Hl & _)].
      + destruct Hu as (_ & Hs & _ & _ & Hp). unfold live_count in Hdef.
        rewrite Hp, Hs in Hdef; simpl in Hdef; lia.
      + lia.
    - right; right; left. split; [reflexivity|]. split.
      { intros v Hh; apply (Habs v), Hsame, Hh. }
      split; [exact HI'|]. split; [lia|].
      intros k v; rewrite Hcont, Hsame; reflexivity.
    - right; right; right. split; [reflexivity|]. split.
      { exists v0; apply Hsame, Hh. }
      split; [right; split; [exact Hc1|split; [exact Hl1|lia]]|].
      split; [exact Hz1|]. split; [exact Hsame | exact Hng]. }
  assert (Grow : forall nh,
    nh = (if hashbits m =? 0 then 4 else hashbits m + 1) -> nh <= 63 ->
    ~ size m + 1 < threshold (tablelen m) ->
    (forall m1, hashbits m1 = nh -> size m1 = size m ->
                size m1 + 1 < threshold (tablelen m1)) ->
    (r <- map_resize fuel ok m nh ;;
     if negb (fst r =? 0) then Done r else map_insert fuel (snd r) key val)
    = Done (rv, m') ->
    (rv = NGHTTP3_ERR_NOMEM /\ m' = m) \/
    (rv <> NGHTTP3_ERR_NOMEM /\ live_count m' < size m') \/
    (rv = 0 /\ (forall v, ~ holds m key v) /\ Inv m' /\
     size m' = size m + 1 /\
     (forall k v, holds m' k v <-> holds m k v \/ (k = key /\ v = val))) \/
    (rv = NGHTTP3_ERR_INVALID_ARGUMENT /\ (exists v, holds m key v) /\
     Inv m' /\ size m' = size m /\
     (forall k v, holds m' k v <-> holds m k v) /\
     (size m + 1 < threshold (tablelen m) -> m' = m))).
  { intros nh Hnh Hle Hng Hthr Hrun.
    apply bind_Done in Hrun; destruct Hrun as ((rv1 & m1) & H1 & H2).
    cbn [fst snd] in H2.
    destruct (map_resize_result fuel ok m nh rv1 m1 (Inv_WInv m HI) Hnh Hle H1)
      as [(-> & -> & ->)|(-> & -> & Hw1 & Hh1 & Hsd1 & Hz1 & Hl1)].
    - inversion H2; subst. left; auto.
    - cbn [Z.eqb negb] in H2.
      assert (Hlm : live_count m = size m).
      { destruct HI as [(_ & Hs & _ & _ & Hp)|(_ & Hl & _)]; [|exact Hl].
        unfold live_count; rewrite Hp, Hs; reflexivity. }
      pose proof (Hthr m1 Hh1 Hz1) as Ht1.
      destruct (Z.eq_dec (live_count m1) (live_count m)) as [E|N].
      + destruct (map_resize_strong fuel m nh 0 m1 HI Hnh Hle H1 E)
          as (Hc1 & Hsame).
        apply (After m1); auto; try lia; intros; contradiction.
      + right; left.
        pose proof (tablelen_bounds m1 Hw1) as HT1.
        pose proof (threshold_bounds (hashbits m1) ltac:(apply Hw1)) as Hth1.
        fold (tablelen m1) in Hth1.
        pose proof (nonzero_count_bounds (psl m1)) as Hnb.
        fold (live_count m1) in Hnb.
        destruct (map_insert_result fuel m1 key val rv m' Hw1
                    ltac:(lia) ltac:(lia) H2) as (_ & _ & _ & Hr).
        unfold NGHTTP3_ERR_NOMEM, NGHTTP3_ERR_INVALID_ARGUMENT in *.
        destruct Hr as [(-> & ? & ?)|(-> & ? & ?)]; split; lia. }
  destruct HI as [Hu|(Hc & Hl & Ht)].
  - destruct Hu as (Hb & Hs0 & Hk & Hd & Hp).
    lazymatch type of H with
    | (if ?c then _ else _) = _ => destruct c eqn:G
    end; [|rewrite Hb, Hs0 in G; discriminate G].
    replace (hashbits m =? 0) with true in H by (rewrite Hb; reflexivity).
    change (NGHTTP3_INITIAL_HASHBITS >? NGHTTP3_MAP_MAX_HASHBITS) with false
      in H; cbv iota in H.
    apply (Grow NGHTTP3_INITIAL_HASHBITS); auto.
    + rewrite Hb; reflexivity.
    + unfold NGHTTP3_INITIAL_HASHBITS; lia.
    + unfold tablelen; rewrite Hb, Hs0. change (2 ^ 0) with 1.
      rewrite threshold_one. lia.
    + intros m1 Hh Hz; unfold tablelen; rewrite Hh, Hz, Hs0. reflexivity.
  - pose proof (ic_wf m Hc) as Hw.
    pose proof (wf_bits m Hw) as Hb.
    pose proof two63_lt.
    assert (Hs : 0 <= size m < 2 ^ 63).
    { apply WInv_size; right; split; [exact Hw|split; [lia|exact Ht]]. }
    rewrite growth_check in H by auto.
    destruct (Z.geb_spec (size m + 1) (threshold (tablelen m))) as [G|L].
    + destruct (Z.eqb_spec (hashbits m) 0) as [E|_]; [lia|].
      rewrite size_t_small in H by lia.
      unfold NGHTTP3_MAP_MAX_HASHBITS in H.
      destruct (Z.gtb_spec (hashbits m + 1) 63) as [G2|L2].
      * inversion H; subst. left; auto.
      * apply (Grow (hashbits m + 1) eq_refl L2); auto; try lia.
        intros m1 Hh Hz; unfold tablelen; rewrite Hh, Hz.
        rewrite threshold_double by lia.
        unfold tablelen in Ht; lia.
    + apply (After m); auto. intros; reflexivity.
Qed.

(* ================================================================== *)
(** * Removal: backward shift *)
(* ================================================================== *)

Lemma Inv_core_hole (m : nghttp3_map) (h : Z) :
  Inv_core m -> 0 <= h < tablelen m -> Inv_hole m h.
Proof.
  intros [Hw He Ho Hd Hv] Hh; constructor; auto.
  intros i Hi E. pose proof (Ho i Hi) as H1. pose proof (Ho h Hh) as H2.
  rewrite E in H1. lia.
Qed.

Lemma dist_pred (T a d : Z) :
  0 <= a < T -> 0 <= d < T -> 1 <= dist T a (nxt T d) ->
  dist T a d = dist T a (nxt T d) - 1.
Proof.
  intros Ha Hd.
  pose proof (nxt_range T d Hd) as Hn.
  destruct (nxt_spec T d Hd) as [[E ?]|[E ?]]; rewrite E in *;
    destruct (dist_spec T a d Ha Hd) as [[-> ?]|[-> ?]];
    [destruct (dist_spec T a (d + 1)) as [[-> ?]|[-> ?]]
    |destruct (dist_spec T a (d + 1)) as [[-> ?]|[-> ?]]
    |destruct (dist_spec T a 0) as [[-> ?]|[-> ?]]
    |destruct (dist_spec T a 0) as [[-> ?]|[-> ?]]]; lia.
Qed.

(** The shift stops: the hole becomes an empty slot. *)
Lemma shift_exit (m : nghttp3_map) (dest : Z) :
  Inv_hole m dest -> 0 <= dest < tablelen m ->
  rd (psl m) (nxt (tablelen m) dest) <= 1 ->
  Inv_core (set_psl m (wr (psl m) dest 0)) /\
  (forall k v, holds (set_psl m (wr (psl m) dest 0)) k v <->
               others m dest k v).
Proof.
  intros [Hw He Ho Ha Hd Hv] Hi Hx.
  pose proof (tablelen_bounds m Hw) as HT.
  set (m1 := set_psl m (wr (psl m) dest 0)).
  assert (HP : forall j, 0 <= j < tablelen m ->
            rd (psl m1) j = if j =? dest then 0 else rd (psl m) j).
  { intros j Hj; unfold m1; msimpl.
    apply rd_wr; [rewrite (wf_psl m Hw)|]; lia. }
  split.
  - constructor; change (tablelen m1) with (tablelen m);
      change (map_index m1) with (map_index m);
      change (keys m1) with (keys m); change (data m1) with (data m).
    + apply wf_clear_slot; auto.
    + intros i Hr; rewrite HP by auto.
      destruct (Z.eqb_spec i dest); [intros N; contradiction|].
      apply He; auto.
    + intros i Hr. pose proof (nxt_range _ _ Hr) as Hn.
      rewrite !HP by auto.
      pose proof (wf_byte m Hw i Hr).
      destruct (Z.eqb_spec (nxt (tablelen m) i) dest) as [E|N];
        destruct (Z.eqb_spec i dest) as [E'|N']; try lia.
      * subst i; lia.
      * apply Ho; auto.
    + intros i j Hri Hrj; rewrite !HP by auto.
      destruct (Z.eqb_spec i dest); [intros N; contradiction|].
      destruct (Z.eqb_spec j dest); [intros _ N; contradiction|].
      apply Hd; auto.
    + intros i Hr; rewrite HP by auto.
      destruct (Z.eqb_spec i dest); [intros N; contradiction|].
      apply Hv; auto.
  - intros k v; unfold holds, others, entry_at.
    change (tablelen m1) with (tablelen m);
      change (keys m1) with (keys m); change (data m1) with (data m).
    split.
    + intros (i & Hr & Hl & Hk & Hvv). rewrite HP in Hl by auto.
      destruct (Z.eqb_spec i dest); [contradiction|].
      exists i; auto.
    + intros (i & Hne & Hr & Hl & Hk & Hvv). exists i.
      rewrite HP by auto.
      destruct (Z.eqb_spec i dest); [contradiction|auto].
Qed.

(** The shift moves the entry after the hole into the hole; the hole
    moves one slot forward. *)
Lemma shift_step (m : nghttp3_map) (dest : Z) :
  Inv_hole m dest -> 0 <= dest < tablelen m ->
  2 <= rd (psl m) (nxt (tablelen m) dest) ->
  let idx := nxt (tablelen m) dest in
  let m1 := map_set_entry m dest (rd (keys m) idx) (rd (data m) idx)
              (size_t (rd (psl m) idx - 1)) in
  Inv_hole m1 idx /\
  (forall k v, others m1 idx k v <-> others m dest k v).
Proof.
  intros [Hw He Ho Ha Hd Hv] Hi Hx idx m1.
  pose proof (tablelen_bounds m Hw) as HT.
  pose proof (nxt_range _ _ Hi) as Hn. fold idx in Hn, Hx.
  pose proof (wf_byte m Hw idx Hn) as Hb.
  assert (Hnd : idx <> dest) by (apply nxt_neq; lia).
  assert (Hl : rd (psl m) idx <> 0) by lia.
  assert (HP : forall j, 0 <= j < tablelen m ->
            rd (psl m1) j = if j =? dest then rd (psl m) idx - 1
                            else rd (psl m) j).
  { intros j Hj; unfold m1; rewrite psl_set_entry by (auto; lia).
    rewrite shifted_psl by lia; reflexivity. }
  assert (HK : forall j, 0 <= j < tablelen m ->
            rd (keys m1) j = if j =? dest then rd (keys m) idx
                             else rd (keys m) j).
  { intros j Hj; unfold m1; apply keys_set_entry; auto; lia. }
  assert (HD : forall j, 0 <= j < tablelen m ->
            rd (data m1) j = if j =? dest then rd (data m) idx
                             else rd (data m) j).
  { intros j Hj; unfold m1; apply data_set_entry; auto; lia. }
  assert (Hnn : nxt (tablelen m) idx <> dest).
  { unfold idx. destruct (nxt_spec _ _ Hi) as [[E ?]|[E ?]];
      destruct (nxt_spec _ _ Hn) as [[E2 ?]|[E2 ?]]; unfold idx in *; lia. }
  split.
  - constructor; change (tablelen m1) with (tablelen m);
      change (map_index m1) with (map_index m).
    + apply wf_set_entry; auto.
    + intros i Hr Hne; rewrite HP, HK by auto.
      destruct (Z.eqb_spec i dest) as [->|N]; [|apply He; auto].
      intros _. pose proof (He idx Hn Hnd Hl) as Hex.
      pose proof (map_index_range m (rd (keys m) idx) (wf_bits m Hw)) as Hh.
      fold (tablelen m) in Hh.
      rewrite (dist_pred _ _ dest Hh Hi); fold idx; lia.
    + intros i Hr Hne Hnx. pose proof (nxt_range _ _ Hr) as Hni.
      rewrite !HP by auto.
      destruct (Z.eqb_spec i dest) as [->|N]; [contradiction|].
      destruct (Z.eqb_spec (nxt (tablelen m) i) dest) as [E|N2].
      * pose proof (Ha i Hr E). fold idx in H. lia.
      * apply Ho; auto.
    + intros i Hr E. apply nxt_inj in E; auto. subst i.
      pose proof (nxt_range _ _ Hn) as Hnn2.
      rewrite !HP by auto.
      rewrite Z.eqb_refl.
      destruct (Z.eqb_spec (nxt (tablelen m) idx) dest); [contradiction|].
      pose proof (Ho idx Hn Hnd Hnn). lia.
    + intros i j Hri Hrj Hni Hnj; rewrite !HP, !HK by auto.
      destruct (Z.eqb_spec i dest) as [->|Ni];
        destruct (Z.eqb_spec j dest) as [->|Nj];
        [ auto
        | intros _ Hlj E; exfalso; apply Hnj; symmetry; apply Hd; auto
        | intros Hli _ E; exfalso; apply Hni; apply Hd; auto
        | apply Hd; auto ].
    + intros i Hr Hne; rewrite HP, HD by auto.
      destruct (Z.eqb_spec i dest) as [->|N]; [intros _|]; apply Hv; auto.
  - intros k v; unfold others, entry_at.
    change (tablelen m1) with (tablelen m). split.
    + intros (i & Hne & Hr & Hlv & Hk & Hvv).
      rewrite HP in Hlv by auto. rewrite HK in Hk by auto.
      rewrite HD in Hvv by auto.
      destruct (Z.eqb_spec i dest) as [->|N].
      * exists idx; auto.
      * exists i; auto.
    + intros (i & Hne & Hr & Hlv & Hk & Hvv).
      destruct (Z.eq_dec i idx) as [->|N].
      * exists dest. rewrite HP, HK, HD by auto. rewrite Z.eqb_refl.
        repeat split; auto; lia.
      * exists i. rewrite HP, HK, HD by auto.
        destruct (Z.eqb_spec i dest); [contradiction|auto].
Qed.

Lemma shift_loop_strong (fuel : nat) :
  forall (m : nghttp3_map) (dest : Z) (m' : nghttp3_map),
    Inv_hole m dest -> 0 <= dest < tablelen m ->
    shift_loop fuel m (tablelen m - 1) dest (nxt (tablelen m) dest) = Done m' ->
    Inv_core m' /\ (forall k v, holds m' k v <-> others m dest k v).
Proof.
  induction fuel as [|fuel IH]; intros m dest m' HJ Hi H;
    [discriminate H|].
  rewrite shift_loop_S in H.
  pose proof (ih_wf m dest HJ) as Hw.
  pose proof (nxt_range _ _ Hi) as Hn.
  destruct (Z.leb_spec (rd (psl m) (nxt (tablelen m) dest)) 1) as [L|G].
  - inversion H; subst m'. apply shift_exit; auto.
  - rewrite step_tablelen in H by auto.
    destruct (shift_step m dest HJ Hi ltac:(lia)) as (HJ1 & Hc1).
    cbv zeta in HJ1, Hc1.
    set (m1 := map_set_entry m dest _ _ _) in *.
    destruct (IH m1 (nxt (tablelen m) dest) m' HJ1 Hn H) as (Hc' & Hcont).
    split; [exact Hc'|]. intros k v; rewrite Hcont. apply Hc1.
Qed.

(** The search loop of [nghttp3_map_remove] reaches the slot of a key
    that is in the table and starts the backward shift there. *)
Lemma remove_loop_hit (m : nghttp3_map) (key val j : Z)
    (fuel fuel2 : nat) :
  Inv_core m -> entry_at m j key val ->
  forall idx p,
    0 <= idx < tablelen m -> 1 <= p ->
    p + dist (tablelen m) idx j = rd (psl m) j ->
    dist (tablelen m) idx j < Z.of_nat fuel ->
    remove_loop fuel fuel2 m (tablelen m - 1) idx key p =
    (m' <- shift_loop fuel2 m (tablelen m - 1) j (nxt (tablelen m) j) ;;
     Done (0, set_size m' (size_t (size m' - 1)))).
Proof.
  intros Hc (Hj & Hl & Hk & Hv).
  pose proof (ic_wf m Hc) as Hw.
  pose proof (wf_byte m Hw j Hj) as Hbyte.
  induction fuel as [|fuel IH]; intros idx p Hi Hp Hpath Hf.
  - pose proof (dist_range _ _ _ Hi Hj); lia.
  - rewrite remove_loop_S.
    pose proof (chain_dist m idx j Hc Hi Hj) as Hch.
    pose proof (dist_range _ _ _ Hi Hj) as Hr.
    destruct (Z.gtb_spec p (rd (psl m) idx)) as [G|L]; [lia|].
    rewrite step_tablelen by auto.
    destruct (Z.eqb_spec (rd (keys m) idx) key) as [E|N].
    + assert (idx = j) by (apply (ic_distinct m Hc); auto; lia || congruence).
      subst idx; reflexivity.
    + assert (Hne : idx <> j) by congruence.
      pose proof two63_lt.
      rewrite size_t_small by lia.
      pose proof (dist_step _ _ _ Hi Hj Hne).
      apply IH; try lia. apply nxt_range; auto.
Qed.

Lemma others_holds (m : nghttp3_map) (j key val k v : Z) :
  Inv_core m -> entry_at m j key val ->
  others m j k v <-> (holds m k v /\ k <> key).
Proof.
  intros Hc (Hj & Hl & Hk & Hv); split.
  - intros (i & Hne & Hr & Hli & Hki & Hvi). split.
    + exists i; repeat split; auto; lia.
    + intros E; apply Hne. apply (ic_distinct m Hc); auto; congruence.
  - intros ((i & Hr & Hli & Hki & Hvi) & Hne). exists i; split.
    + intros ->; congruence.
    + repeat split; auto; lia.
Qed.

(** ** [nghttp3_map_remove] on a table that satisfies the invariant *)
Lemma nghttp3_map_remove_spec (fuel : nat) (m : nghttp3_map) (key rv : Z)
    (m' : nghttp3_map) :
  Inv m -> nghttp3_map_remove fuel m key = Done (rv, m') ->
  (rv = NGHTTP3_ERR_INVALID_ARGUMENT /\ (forall v, ~ holds m key v) /\
   m' = m) \/
  (rv = 0 /\ (exists v, holds m key v) /\ Inv m' /\
   size m' = size m - 1 /\ hashbits m' = hashbits m /\
   (forall k v, holds m' k v <-> (holds m k v /\ k <> key))).
Proof.
  intros HI H.
  destruct (nghttp3_map_remove_result fuel m key rv m' (Inv_WInv m HI) H)
    as (HW' & Hsd & Hres).
  destruct (holds_dec m key HI) as [(v0 & Hh)|Habs].
  - (* the key is in the table *)
    right.
    destruct (Inv_holds_core m key v0 HI Hh) as (Hc & Hs).
    destruct HI as [Hu|(_ & Hl & Ht)];
      [exfalso; exact (unallocated_no_holds m key v0 Hu Hh)|].
    pose proof (ic_wf m Hc) as Hw.
    pose proof (tablelen_bounds m Hw) as HT.
    set (F := Nat.max fuel (Z.to_nat (tablelen m))).
    apply (nghttp3_map_remove_mono fuel F) in H; [|unfold F; lia].
    unfold nghttp3_map_remove in H.
    destruct (Z.eqb_spec (size m) 0) as [|_]; [contradiction|].
    rewrite mask_tablelen in H by auto.
    destruct Hh as (j & Hj & Hlj & Hk & Hv).
    assert (Hent : entry_at m j key v0) by (repeat split; auto; lia).
    pose proof (map_index_range m key (wf_bits m Hw)) as Hi.
    fold (tablelen m) in Hi.
    pose proof (dist_range _ _ _ Hi Hj) as Hd.
    rewrite (remove_loop_hit m key v0 j F F Hc Hent) in H; auto;
      try (unfold F; lia).
    2:{ rewrite (ic_exact m Hc j Hj Hlj), Hk; lia. }
    apply bind_Done in H; destruct H as (m2 & H1 & H2).
    inversion H2; subst rv m'; clear H2.
    destruct (shift_loop_strong F m j m2 (Inv_core_hole m j Hc Hj) Hj H1)
      as (Hc2 & Hcont).
    destruct Hres as [(Hx & _)|(_ & Hh2 & Hz2 & Hl2 & _)];
      [discriminate Hx|].
    split; [reflexivity|]. split; [exists v0, j; exact Hent|].
    split; [|split; [exact Hz2|split; [exact Hh2|]]].
    + right. split; [apply Inv_core_set_size; exact Hc2|].
      split; [lia|]. unfold tablelen in *; rewrite Hh2; lia.
    + intros k v.
      change (holds (set_size ?x _) k v) with (holds x k v).
      rewrite Hcont. apply (others_holds m j key v0); auto.
  - left. destruct Hres as [(-> & ->)|(_ & _ & _ & _ & v & Hh)].
    + auto.
    + exfalso; exact (Habs v Hh).
Qed.

(** ** [nghttp3_map_clear] *)

Lemma Inv_core_empty (m : nghttp3_map) :
  wf m -> (forall i, rd (psl m) i = 0) -> Inv_core m.
Proof.
  intros Hw Hz; constructor;
    [ exact Hw
    | intros i _ Hl; rewrite Hz in Hl; contradiction
    | intros i _; rewrite !Hz; lia
    | intros i j _ _ Hl; rewrite Hz in Hl; contradiction
    | intros i _ Hl; rewrite Hz in Hl; contradiction ].
Qed.

(** Clearing any table built by the public functions gives an empty
    table that satisfies the invariant. *)
Lemma Inv_clear (m : nghttp3_map) :
  WInv m ->
  Inv (nghttp3_map_clear m) /\ (forall k v, ~ holds (nghttp3_map_clear m) k v).
Proof.
  intros HI.
  assert (HW : WInv (nghttp3_map_clear m)) by (apply WInv_clear, HI).
  unfold nghttp3_map_clear in *.
  destruct (Z.eqb_spec (size m) 0) as [E|N].
  - destruct HI as [Hu|(Hw & Hl & Ht)].
    + split; [left; exact Hu|]. intros k v.
      apply unallocated_no_holds; exact Hu.
    + split.
      * right. split; [|split; [|exact Ht]].
        -- apply Inv_core_empty; auto.
           intros i; apply nonzero_count_zero. unfold live_count in Hl; lia.
        -- pose proof (nonzero_count_bounds (psl m)).
           unfold live_count in *; lia.
      * intros k v; apply no_live_when_zero; lia.
  - destruct HI as [(_ & Hs & _)|(Hw & Hl & Ht)]; [contradiction|].
    set (m1 := set_size _ 0) in *.
    destruct HW as [(Hb0 & _)|(Hw1 & _ & _)].
    { change (hashbits m1) with (hashbits m) in Hb0.
      pose proof (wf_bits m Hw); lia. }
    assert (Hz : forall i, rd (psl m1) i = 0).
    { intros i; unfold m1; msimpl; apply rd_calloc. }
    pose proof (threshold_bounds (hashbits m) ltac:(apply Hw)) as Hth.
    split.
    + right. split; [|split].
      * apply Inv_core_empty; auto.
      * unfold live_count, m1; msimpl. apply nonzero_count_calloc.
      * unfold m1, tablelen; msimpl. lia.
    + intros k v (i & _ & Hl' & _). rewrite Hz in Hl'; contradiction.
Qed.

(* ================================================================== *)
(** * Histories of calls and the finite map they describe *)
(* ================================================================== *)

Lemma reach_WInv (tr : list event) (m : nghttp3_map) :
  reach tr m -> WInv m.
Proof.
  induction 1 as [s Hs|tr m fuel ok key val rv m' Hr IH Hk Hrun
                 |tr m fuel key rv m' Hr IH Hk Hrun|tr m Hr IH].
  - left; repeat split.
  - apply (nghttp3_map_insert_result fuel ok m key val rv m' IH Hrun).
  - apply (nghttp3_map_remove_result fuel m key rv m' IH Hrun).
  - apply WInv_clear; exact IH.
Qed.

Lemma insert_nonnull (fuel : nat) (ok : bool) (m : nghttp3_map)
    (key val : Z) (r : Z * nghttp3_map) :
  nghttp3_map_insert fuel ok m key val = Done r -> val <> 0.
Proof.
  unfold nghttp3_map_insert; intros H ->. discriminate H.
Qed.

(** The table implements the finite map of its history as long as no
    stored probe length has been truncated. *)
Lemma reach_sim (tr : list event) (m : nghttp3_map) :
  reach tr m -> intact m -> Inv m /\ content m (model tr).
Proof.
  unfold intact.
  induction 1 as [s Hs|tr m fuel ok key val rv m' Hr IH Hk Hrun
                 |tr m fuel key rv m' Hr IH Hk Hrun|tr m Hr IH]; intros Hin.
  - split; [left; repeat split|].
    intros k v; split.
    + intros Hh; exfalso.
      apply (unallocated_no_holds (nghttp3_map_init s) k v); [repeat split|exact Hh].
    + intros (Hv & E); simpl in E; congruence.
  - pose proof (reach_WInv tr m Hr) as HW.
    pose proof (insert_nonnull _ _ _ _ _ _ Hrun) as Hval.
    destruct (nghttp3_map_insert_result fuel ok m key val rv m' HW Hrun)
      as (HW' & _ & Hres).
    assert (Hlm : live_count m = size m).
    { assert (live_count m <= size m).
      { destruct HW as [(_ & Hs & _ & _ & Hp)|(_ & Hl & _)]; [|exact Hl].
        unfold live_count; rewrite Hp, Hs; simpl; lia. }
      destruct Hres as [(_ & ? & ?)|[(_ & ->)|(_ & ? & ?)]]; lia. }
    destruct (IH Hlm) as (HI & Hcont).
    destruct (nghttp3_map_insert_spec fuel ok m key val rv m' HI Hrun)
      as [(-> & ->)|[(_ & Hdef)|[(-> & Habs & HI' & _ & Hc')
                                |(-> & _ & HI' & _ & Hc' & _)]]].
    + split; [exact HI | exact Hcont].
    + lia.
    + split; [exact HI'|]. intros k v; rewrite Hc'.
      cbn [model Z.eqb]. unfold aset.
      destruct (Z.eqb_spec k key) as [->|N].
      * split.
        -- intros [Hh|(_ & ->)]; [exfalso; exact (Habs v Hh)|auto].
        -- intros (Hv & <-); right; auto.
      * rewrite <- (Hcont k v). split.
        -- intros [Hh|(E & _)]; [exact Hh | contradiction].
        -- intros Hh; left; exact Hh.
    + split; [exact HI'|]. intros k v; rewrite Hc'. exact (Hcont k v).
  - pose proof (reach_WInv tr m Hr) as HW.
    destruct (nghttp3_map_remove_result fuel m key rv m' HW Hrun)
      as (HW' & _ & Hres).
    assert (Hlm : live_count m = size m).
    { destruct Hres as [(_ & ->)|(_ & _ & ? & ? & _)]; lia. }
    destruct (IH Hlm) as (HI & Hcont).
    destruct (nghttp3_map_remove_spec fuel m key rv m' HI Hrun)
      as [(-> & Habs & ->)|(-> & _ & HI' & _ & _ & Hc')].
    + split; [exact HI | exact Hcont].
    + split; [exact HI'|]. intros k v; rewrite Hc'.
      cbn [model Z.eqb]. unfold aset.
      destruct (Z.eqb_spec k key) as [->|N].
      * split; [intros (_ & N); contradiction|].
        intros (Hv & <-); contradiction.
      * rewrite <- (Hcont k v). split; [intros (Hh & _); exact Hh|].
        intros Hh; split; [exact Hh | exact N].
  - destruct (Inv_clear m (reach_WInv tr m Hr)) as (HI & Hno).
    split; [exact HI|]. intros k v; split.
    + intros Hh; exfalso; exact (Hno k v Hh).
    + intros (Hv & E); simpl in E; congruence.
Qed.

(** A lookup in a table that satisfies the invariant returns the
    binding of the key. *)
Lemma find_content (fuel : nat) (m : nghttp3_map) (M : Z -> Z) (key : Z) :
  Inv m -> content m M -> tablelen m <= Z.of_nat fuel ->
  nghttp3_map_find fuel m key = Done (M key).
Proof.
  intros HI Hc Hf.
  destruct (Z.eq_dec (M key) 0) as [E|N].
  - rewrite E. apply find_miss; auto.
    intros v Hh; apply Hc in Hh. destruct Hh as (Hv & E'); congruence.
  - apply find_hit; auto. apply Hc; auto.
Qed.

(* ================================================================== *)
(** * Replaying a list of calls *)
(* ================================================================== *)

Lemma is_u64_range (x : Z) : is_u64 x = true -> 0 <= x < 2 ^ 64.
Proof.
  unfold is_u64; intros H; apply andb_prop in H; destruct H as (H1 & H2).
  apply Z.leb_le in H1; apply Z.ltb_lt in H2; lia.
Qed.

Lemma replay_reach (fuel : nat) (ops : list op) :
  forall tr m tr' m',
    reach tr m -> replay fuel ops tr m = Done (tr', m') -> reach tr' m'.
Proof.
  induction ops as [|o rest IH]; intros tr m tr' m' Hr H.
  - inversion H; subst; exact Hr.
  - destruct o as [ok key val|key|]; cbn [replay] in H.
    + destruct (is_u64 key) eqn:Hk; [|discriminate H].
      apply bind_Done in H; destruct H as ((rv & m1) & H1 & H2).
      apply (IH _ _ _ _ (reach_insert tr m fuel ok key val rv m1 Hr
                           (is_u64_range key Hk) H1) H2).
    + destruct (is_u64 key) eqn:Hk; [|discriminate H].
      apply bind_Done in H; destruct H as ((rv & m1) & H1 & H2).
      apply (IH _ _ _ _ (reach_remove tr m fuel key rv m1 Hr
                           (is_u64_range key Hk) H1) H2).
    + apply (IH _ _ _ _ (reach_clear tr m Hr) H).
Qed.

(* ================================================================== *)
(** * Allocated tables *)
(* ================================================================== *)

Lemma reach_alloc (tr : list event) (m : nghttp3_map) :
  reach tr m -> hashbits m <> 0 ->
  wf m /\ live_count m <= size m /\ size m < threshold (tablelen m).
Proof.
  intros Hr Hb; destruct (reach_WInv tr m Hr) as [(E & _)|H];
    [contradiction | exact H].
Qed.

(* ================================================================== *)
(** * Enumeration *)
(* ================================================================== *)

Lemma skipn_cons_nth (a : list Z) (n : nat) :
  (n < length a)%nat -> skipn n a = nth n a 0 :: skipn (S n) a.
Proof.
  revert n; induction a as [|x t IH]; intros [|n] H; simpl in *;
    try lia; auto.
  apply IH; lia.
Qed.

Lemma live_values_zero (ps ds : list Z) :
  nonzero_count ps <= 0 -> live_values ps ds = [].
Proof.
  revert ds; induction ps as [|p ps IH]; intros ds H; [reflexivity|].
  simpl nonzero_count in H. pose proof (nonzero_count_bounds ps).
  destruct ds as [|d ds]; [reflexivity|]. simpl.
  destruct (Z.eqb_spec p 0); [apply IH; lia | lia].
Qed.

Lemma each_loop_visit {St : Type} (func : Z -> St -> Z * St)
    (m : nghttp3_map) (n : nat) :
  forall (i : Z) (s : St),
    0 <= i -> i + Z.of_nat n = Z.of_nat (length (psl m)) ->
    length (data m) = length (psl m) ->
    each_loop func n m i s
    = visit func (live_values (skipn (Z.to_nat i) (psl m))
                              (skipn (Z.to_nat i) (data m))) s.
Proof.
  induction n as [|n IH]; intros i s Hi Hn Hlen.
  - rewrite !skipn_all2 by lia. reflexivity.
  - cbn [each_loop].
    rewrite (skipn_cons_nth (psl m) (Z.to_nat i)) by lia.
    rewrite (skipn_cons_nth (data m) (Z.to_nat i)) by lia.
    cbn [live_values]. fold (rd (psl m) i). fold (rd (data m) i).
    replace (S (Z.to_nat i)) with (Z.to_nat (i + 1)) by lia.
    destruct (rd (psl m) i =? 0).
    + apply IH; lia.
    + cbn [visit]. destruct (func (rd (data m) i) s) as (rv, s').
      destruct (rv =? 0); [apply IH; lia | reflexivity].
Qed.

(** C8: [nghttp3_map_each] calls the callback once per slot with
    nonzero psl, in ascending slot order, on the value of the slot; it
    stops at the first call that returns a nonzero code and returns
    that code; otherwise it returns 0 after the last live slot. *)
Theorem C8_each_visits_live_slots {St : Type} (func : Z -> St -> Z * St)
    (tr : list event) (m : nghttp3_map) (s : St) :
  reach tr m ->
  nghttp3_map_each func m s = visit func (live_values (psl m) (data m)) s.
Proof.
  intros Hr; unfold nghttp3_map_each.
  destruct (reach_WInv tr m Hr) as [(Hb & Hs & Hk & Hd & Hp)|(Hw & Hl & Ht)].
  - rewrite Hs, Hp; reflexivity.
  - destruct (Z.eqb_spec (size m) 0) as [E|N].
    + rewrite live_values_zero; [reflexivity|].
      unfold live_count in Hl; lia.
    + rewrite tablelen_eq by apply Hw. fold (tablelen m).
      pose proof (tablelen_bounds m Hw).
      pose proof (wf_psl m Hw) as Hp. pose proof (wf_data m Hw) as Hd.
      rewrite (each_loop_visit func m (Z.to_nat (tablelen m)) 0 s);
        try lia.
      reflexivity.
Qed.

Lemma C8_each_visits_live_slots_witness :
  nghttp3_map_each log_until_33 demo_map []
  = visit log_until_33 (live_values (psl demo_map) (data demo_map)) [].
Proof.
  apply (C8_each_visits_live_slots log_until_33 demo_tr demo_map []).
  apply (replay_reach 16 demo_ops [] (nghttp3_map_init 0)).
  - apply reach_init; vm_compute; split; congruence.
  - vm_compute; reflexivity.
Defined.

(** On the demo table the live slots are 3, 9 and 13 (keys 2, 1, 3):
    the callback sees 22, 11 and then 33, where it stops. *)
Example each_demo :
  live_values (psl demo_map) (data demo_map) = [22; 11; 33] /\
  nghttp3_map_each log_until_33 demo_map [] = (-1, [33; 11; 22]).
Proof. vm_compute. split; reflexivity. Qed.

(* ================================================================== *)
(** * Termination *)
(* ================================================================== *)

(** C9: every operation terminates.  In every reachable allocated
    table [size] is below 7/8 of the slot count and some slot is empty,
    so the probing loops of [map_insert], [nghttp3_map_find] and
    [nghttp3_map_remove] (backward shift included) return within
    [tablelen] iterations; [nghttp3_map_insert], which may first rebuild
    the table at twice the size, returns (or stops at an assertion)
    within the slot count of the table it probes. *)
Theorem C9_operations_terminate (tr : list event) (m : nghttp3_map) :
  reach tr m ->
  (hashbits m <> 0 ->
   size m < threshold (tablelen m) /\
   (exists e, 0 <= e < tablelen m /\ rd (psl m) e = 0) /\
   forall (fuel : nat) (key : Z),
     tablelen m <= Z.of_nat fuel ->
     (forall val, exists r, map_insert fuel m key val = Done r) /\
     (exists r, nghttp3_map_find fuel m key = Done r) /\
     (exists r, nghttp3_map_remove fuel m key = Done r)) /\
  (forall (fuel : nat) (ok : bool) (key val : Z),
     16 <= Z.of_nat fuel -> 2 * tablelen m <= Z.of_nat fuel ->
     nghttp3_map_insert fuel ok m key val <> OutOfFuel /\
     exists r1 r2, nghttp3_map_find fuel m key = Done r1 /\
                   nghttp3_map_remove fuel m key = Done r2).
Proof.
  intros Hr. pose proof (reach_WInv tr m Hr) as HW. split.
  - intros Hb. destruct (reach_alloc tr m Hr Hb) as (Hw & Hl & Ht).
    pose proof (tablelen_bounds m Hw) as HT.
    pose proof (threshold_bounds (hashbits m) ltac:(apply Hw)) as Hth.
    fold (tablelen m) in Hth.
    pose proof (nonzero_count_bounds (psl m)) as Hnb.
    fold (live_count m) in Hnb.
    split; [exact Ht|]. split.
    + destruct (nonzero_count_hole (psl m)) as (e & He & Hz).
      { rewrite (wf_psl m Hw); unfold live_count in Hl; lia. }
      exists e; rewrite (wf_psl m Hw) in He; auto.
    + intros fuel key Hf. split; [|split].
      * intros val.
        destruct (map_insert_weak fuel m key val Hw ltac:(lia) ltac:(lia) Hf)
          as (rv & m' & H & _).
        exists (rv, m'); exact H.
      * destruct (nghttp3_map_find_weak fuel m key HW Hf) as (r & H & _).
        exists r; exact H.
      * destruct (nghttp3_map_remove_weak fuel m key HW Hf)
          as (rv & m' & H & _).
        exists (rv, m'); exact H.
  - intros fuel ok key val H16 Hf.
    pose proof (tablelen_pos m (WInv_bits m HW)).
    split.
    + destruct (nghttp3_map_insert_weak fuel ok m key val HW H16 Hf)
        as [E|(rv & m' & E & _)]; rewrite E; discriminate.
    + destruct (nghttp3_map_find_weak fuel m key HW ltac:(lia))
        as (r & H1 & _).
      destruct (nghttp3_map_remove_weak fuel m key HW ltac:(lia))
        as (rv & m' & H2 & _).
      exists r, (rv, m'); auto.
Qed.

Lemma C9_operations_terminate_witness :
  nghttp3_map_insert 32 true demo_map 7 77 <> OutOfFuel /\
  exists r1 r2, nghttp3_map_find 32 demo_map 7 = Done r1 /\
                nghttp3_map_remove 32 demo_map 7 = Done r2.
Proof.
  refine (proj2 (C9_operations_terminate demo_tr demo_map _) 32%nat true 7 77
                _ _).
  - apply (replay_reach 16 demo_ops [] (nghttp3_map_init 0)).
    + apply reach_init; vm_compute; split; congruence.
    + vm_compute; reflexivity.
  - vm_compute; congruence.
  - vm_compute; congruence.
Defined.

(* ================================================================== *)
(** * The psl byte *)
(* ================================================================== *)

(** C10: the psl array holds 8-bit values.  [map_set_entry] stores the
    probe length modulo 256: the stored value is the probe length
    exactly when that is at most 255; a probe length of 256 is stored
    as 0, the mark of an empty slot.  Both stores of [map_insert] (the
    placement into an empty slot and the swap with a closer-to-home
    occupant) write this truncated value. *)
Theorem C10_psl_is_truncated (tr : list event) (m : nghttp3_map)
    (idx key val p : Z) :
  reach tr m -> hashbits m <> 0 -> 0 <= idx < tablelen m ->
  0 <= p < 2 ^ 64 ->
  rd (psl (map_set_entry m idx key val p)) idx = p mod 256 /\
  (rd (psl (map_set_entry m idx key val p)) idx = p <-> p <= 255) /\
  (p = 256 -> rd (psl (map_set_entry m idx key val p)) idx = 0) /\
  (forall fuel mask,
     rd (psl m) idx = 0 ->
     map_insert_loop (S fuel) m mask idx key val p
     = Done (0, set_size (map_set_entry m idx key val p)
                  (size_t (size m + 1)))) /\
  (forall fuel mask,
     rd (psl m) idx <> 0 -> rd (psl m) idx < p ->
     map_insert_loop (S fuel) m mask idx key val p
     = map_insert_loop fuel (map_set_entry m idx key val p) mask
         (Z.land (size_t (idx + 1)) mask)
         (rd (keys m) idx) (rd (data m) idx)
         (size_t (rd (psl m) idx + 1))).
Proof.
  intros Hr Hb Hi Hp.
  destruct (reach_alloc tr m Hr Hb) as (Hw & _ & _).
  assert (E : rd (psl (map_set_entry m idx key val p)) idx = p mod 256).
  { rewrite psl_set_entry by (auto; lia). rewrite Z.eqb_refl. reflexivity. }
  pose proof (Z.mod_pos_bound p 256 ltac:(lia)) as Hm.
  split; [exact E|]. split; [|split; [|split]].
  - rewrite E; split.
    + intros H; lia.
    + intros H; apply Z.mod_small; lia.
  - intros ->; rewrite E; reflexivity.
  - intros fuel mask Hz. rewrite map_insert_loop_S.
    destruct (Z.eqb_spec (rd (psl m) idx) 0); [reflexivity|contradiction].
  - intros fuel mask Hn Hlt. rewrite map_insert_loop_S.
    destruct (Z.eqb_spec (rd (psl m) idx) 0); [contradiction|].
    destruct (Z.gtb_spec p (rd (psl m) idx)); [reflexivity|lia].
Qed.

Lemma C10_psl_is_truncated_witness :
  rd (psl (map_set_entry demo_map 5 7 77 256)) 5 = 0.
Proof.
  refine (proj1 (proj2 (proj2 (C10_psl_is_truncated demo_tr demo_map 5 7 77 256
                                 _ _ _ _))) eq_refl).
  - apply (replay_reach 16 demo_ops [] (nghttp3_map_init 0)).
    + apply reach_init; vm_compute; split; congruence.
    + vm_compute; reflexivity.
  - vm_compute; congruence.
  - vm_compute; split; congruence.
  - vm_compute; split; congruence.
Defined.

(* ================================================================== *)
(** * The table implements the finite map of its history *)
(* ================================================================== *)

(** In every reachable table in which no stored probe length has been
    truncated, a lookup returns the value bound to the key by the
    history of calls, and a miss for a key that is not bound (never
    inserted, removed, or cleared away). *)
Lemma find_refines_model (tr : list event) (m : nghttp3_map) (fuel : nat)
    (key : Z) :
  reach tr m -> intact m -> tablelen m <= Z.of_nat fuel ->
  nghttp3_map_find fuel m key = Done (model tr key).
Proof.
  intros Hr Hin Hf. destruct (reach_sim tr m Hr Hin) as (HI & Hc).
  apply find_content; auto.
Qed.

(** [size] is the number of successful inserts minus the number of
    successful removes since the table was created or last cleared, in
    every reachable table; it is never below the number of live
    slots. *)
Lemma size_accounting (tr : list event) (m : nghttp3_map) :
  reach tr m ->
  nghttp3_map_size m = net_inserts tr /\ live_count m <= size m.
Proof.
  intros Hr; split.
  - unfold nghttp3_map_size.
    induction Hr as [s Hs|tr m fuel ok key val rv m' Hr IH Hk Hrun
                    |tr m fuel key rv m' Hr IH Hk Hrun|tr m Hr IH].
    + reflexivity.
    + destruct (nghttp3_map_insert_result fuel ok m key val rv m'
                  (reach_WInv tr m Hr) Hrun)
        as (_ & _ & [(-> & Hz & _)|[(-> & ->)|(-> & Hz & _)]]);
        cbn [net_inserts Z.eqb NGHTTP3_ERR_NOMEM NGHTTP3_ERR_INVALID_ARGUMENT];
        lia.
    + destruct (nghttp3_map_remove_result fuel m key rv m'
                  (reach_WInv tr m Hr) Hrun)
        as (_ & _ & [(-> & ->)|(-> & _ & Hz & _)]);
        cbn [net_inserts Z.eqb NGHTTP3_ERR_INVALID_ARGUMENT]; lia.
    + cbn [net_inserts]. unfold nghttp3_map_clear.
      destruct (Z.eqb_spec (size m) 0); [assumption | reflexivity].
  - destruct (reach_WInv tr m Hr) as [(_ & Hs & _ & _ & Hp)|(_ & Hl & _)];
      [|exact Hl].
    unfold live_count; rewrite Hp, Hs; simpl; lia.
Qed.

(** A successful removal and a clear keep a table free of truncated
    probe lengths. *)
Lemma intact_remove (tr : list event) (m : nghttp3_map) (fuel : nat)
    (key rv : Z) (m' : nghttp3_map) :
  reach tr m -> intact m ->
  nghttp3_map_remove fuel m key = Done (rv, m') -> intact m'.
Proof.
  unfold intact; intros Hr Hin H.
  destruct (nghttp3_map_remove_result fuel m key rv m' (reach_WInv tr m Hr) H)
    as (_ & _ & [(_ & ->)|(_ & _ & ? & ? & _)]); lia.
Qed.

(* ================================================================== *)
(** * Failed calls *)
(* ================================================================== *)

Lemma nghttp3_map_insert_no_growth (fuel : nat) (ok : bool)
    (m : nghttp3_map) (key val : Z) :
  WInv m -> val <> 0 -> size m + 1 < threshold (tablelen m) ->
  nghttp3_map_insert fuel ok m key val = map_insert fuel m key val.
Proof.
  intros HW Hval Ht; unfold nghttp3_map_insert.
  destruct (Z.eqb_spec val 0); [contradiction|].
  pose proof (WInv_size m HW) as Hs.
  destruct HW as [(Hb & Hs0 & _)|(Hw & _)].
  - unfold tablelen in Ht; rewrite Hb, Hs0 in Ht; simpl in Ht; lia.
  - rewrite growth_check by auto.
    destruct (Z.geb_spec (size m + 1) (threshold (tablelen m)));
      [lia | reflexivity].
Qed.

(** C2 as stated fails: with seed 0 and keys 1 to 13 in a 16-slot
    table, inserting key 1 again returns
    [NGHTTP3_ERR_INVALID_ARGUMENT], yet the table has been rebuilt with
    32 slots before the duplicate was detected.  No swap takes place:
    [map_insert] leaves the rebuilt table as it is. *)
Lemma C2_counterexample :
  reach full_tr full_map /\ intact full_map /\ model full_tr 1 = 101 /\
  nghttp3_map_find 16 full_map 1 = Done 101 /\
  nghttp3_map_insert 32 true full_map 1 999
  = Done (NGHTTP3_ERR_INVALID_ARGUMENT, grown_map) /\
  map_insert 32 grown_map 1 999
  = Done (NGHTTP3_ERR_INVALID_ARGUMENT, grown_map) /\
  hashbits full_map = 4 /\ hashbits grown_map = 5 /\ grown_map <> full_map.
Proof.
  split.
  { apply (replay_reach 16 full_ops [] (nghttp3_map_init 0)).
    - apply reach_init; vm_compute; split; congruence.
    - vm_compute; reflexivity. }
  repeat split; try (vm_compute; reflexivity).
  intros E; apply (f_equal hashbits) in E; vm_compute in E; discriminate E.
Qed.

(** Splits conjunctions only (never an equation) and evaluates. *)
Ltac eval_conj :=
  repeat match goal with |- _ /\ _ => split end; vm_compute; reflexivity.

(* ================================================================== *)
(** * A probe chain of length 256 *)
(* ================================================================== *)

Example hash_inverse_ok :
  u64 (NGHTTP3_MAP_HASHER * NGHTTP3_MAP_FIBO * hash_inverse) = 1 /\
  map_index (mk_map [] [] [] 0 0 9) (colliding_key 200) = 0 /\
  map_index (mk_map [] [] [] 0 0 9) (spread_key 255) = 255.
Proof. eval_conj. Qed.

Lemma chain_reach : reach chain_tr chain_map.
Proof.
  apply (replay_reach 600 (colliding_inserts 255) [] (nghttp3_map_init 0)).
  - apply reach_init; vm_compute; split; congruence.
  - vm_compute; reflexivity.
Qed.

Lemma distinctb_NoDup (l : list Z) : distinctb l = true -> NoDup l.
Proof.
  induction l as [|x t IH]; intros H; [constructor|].
  simpl in H; apply andb_prop in H; destruct H as (H1 & H2).
  constructor; [|apply IH; exact H2].
  intros Hin. apply negb_true_iff in H1.
  assert (existsb (Z.eqb x) t = true).
  { apply existsb_exists; exists x; split; [exact Hin | apply Z.eqb_refl]. }
  congruence.
Qed.

Lemma overflow_reach : reach overflow_tr overflow_map.
Proof.
  apply (replay_reach 600 [OpInsert true (colliding_key 255) 256]
                      chain_tr chain_map).
  - exact chain_reach.
  - vm_compute; reflexivity.
Qed.

(** C1 fails on the code: 256 inserts of pairwise distinct keys with
    non-null values into a fresh table with seed 0 all return 0, and a
    lookup of the last key misses.  The key sits in slot 255 with a
    stored psl of 0 ([(uint8_t)256]). *)
Theorem C1_roundtrip_lost_entry :
  reach overflow_tr overflow_map /\
  length overflow_tr = 256%nat /\
  all_succeeded overflow_tr = true /\
  NoDup (inserted_keys overflow_tr) /\
  In (EvInsert (colliding_key 255) 256 0) overflow_tr /\
  nghttp3_map_find 600 overflow_map (colliding_key 255) = Done 0 /\
  rd (keys overflow_map) 255 = colliding_key 255 /\
  rd (data overflow_map) 255 = 256 /\
  rd (psl overflow_map) 255 = 0.
Proof.
  split; [exact overflow_reach|].
  split; [vm_compute; reflexivity|].
  split; [vm_compute; reflexivity|].
  split; [apply distinctb_NoDup; vm_compute; reflexivity|].
  split; [left; vm_compute; reflexivity|].
  eval_conj.
Qed.

(** C4 fails on the code: in the same table the last key was inserted
    and never removed, yet its removal returns
    [NGHTTP3_ERR_INVALID_ARGUMENT] and changes nothing. *)
Theorem C4_remove_of_inserted_key_fails :
  reach overflow_tr overflow_map /\
  model overflow_tr (colliding_key 255) = 256 /\
  nghttp3_map_remove 600 overflow_map (colliding_key 255)
  = Done (NGHTTP3_ERR_INVALID_ARGUMENT, overflow_map).
Proof.
  split; [exact overflow_reach|].
  eval_conj.
Qed.

(** ** An entry hidden behind a truncated psl

    After the 255 colliding keys, a key with ideal slot 255 is
    inserted, then the 256th colliding key: it swaps with the occupant
    of slot 255 and its psl is stored as 0, so the displaced key, now
    in slot 256, can no longer be found.  Inserting that key again
    succeeds (a second live copy); removing it removes one copy. *)

Lemma shadow_reach : reach shadow_tr shadow_map.
Proof.
  apply (replay_reach 600 shadow_ops chain_tr chain_map).
  - exact chain_reach.
  - vm_compute; reflexivity.
Qed.

(** C5 fails on the code: the last call on [far_key] is a successful
    remove, and a lookup of [far_key] still returns a value. *)
Theorem C5_removed_key_is_found :
  reach (EvRemove far_key 0 :: shadow_tr) removed_map /\
  all_succeeded (EvRemove far_key 0 :: shadow_tr) = true /\
  model (EvRemove far_key 0 :: shadow_tr) far_key = 0 /\
  nghttp3_map_find 600 removed_map far_key = Done 1000.
Proof.
  split.
  { apply (reach_remove shadow_tr shadow_map 600 far_key 0 removed_map).
    - exact shadow_reach.
    - vm_compute; split; congruence.
    - vm_compute; reflexivity. }
  eval_conj.
Qed.

(** ** A failed assertion in [map_resize]

    The table above holds [far_key] in two live slots.  189 more keys,
    each inserted at its ideal slot, bring [size] to 447; the next
    insert starts a growth, and re-inserting the second copy of
    [far_key] returns [NGHTTP3_ERR_INVALID_ARGUMENT]. *)

Lemma crowded_reach : reach crowded_tr crowded_map.
Proof.
  apply (replay_reach 600 filler_ops shadow_tr shadow_map).
  - exact shadow_reach.
  - vm_compute; reflexivity.
Qed.

(** C7 fails on the code: every call so far returned 0, and the growth
    started by the next insert fails [assert(0 == rv)]. *)
Theorem C7_resize_assertion_fails :
  reach crowded_tr crowded_map /\
  all_succeeded crowded_tr = true /\
  size crowded_map = 447 /\ hashbits crowded_map = 9 /\
  map_resize 1100 true crowded_map 10 = AssertFail /\
  nghttp3_map_insert 1100 true crowded_map (spread_key 299) 7777
  = AssertFail.
Proof.
  split; [exact crowded_reach|].
  eval_conj.
Qed.

(* ================================================================== *)
(** * Re-insertion of pairwise distinct keys *)
(* ================================================================== *)

Lemma Inv_core_keys_distinct (m : nghttp3_map) :
  Inv_core m -> keys_distinct m.
Proof. intros Hc; exact (ic_distinct m Hc). Qed.

Lemma holds_set_entry_sub (m : nghttp3_map) (idx key val p k v : Z) :
  wf m -> 0 <= idx < tablelen m ->
  holds (map_set_entry m idx key val p) k v ->
  (k = key /\ v = val) \/ (exists i, i <> idx /\ entry_at m i k v).
Proof.
  intros Hw Hi (i & Hr & Hl & Hk & Hv).
  change (tablelen (map_set_entry m idx key val p)) with (tablelen m) in Hr.
  rewrite psl_set_entry in Hl by (auto; lia).
  rewrite keys_set_entry in Hk by (auto; lia).
  rewrite data_set_entry in Hv by (auto; lia).
  destruct (Z.eqb_spec i idx) as [->|Hne]; [left; auto|].
  right; exists i; repeat split; auto; lia.
Qed.

Lemma keys_distinct_set_entry (m : nghttp3_map) (idx key val p : Z) :
  wf m -> 0 <= idx < tablelen m -> keys_distinct m ->
  (forall v, ~ holds m key v) ->
  keys_distinct (map_set_entry m idx key val p).
Proof.
  intros Hw Hi Hd Habs i j Hri Hrj.
  change (tablelen (map_set_entry m idx key val p)) with (tablelen m) in *.
  rewrite !psl_set_entry, !keys_set_entry by (auto; lia).
  destruct (Z.eqb_spec i idx) as [->|Ni];
    destruct (Z.eqb_spec j idx) as [->|Nj];
    [ auto
    | intros _ Hl E; exfalso; apply (Habs (rd (data m) j));
      exists j; repeat split; auto; lia
    | intros Hl _ E; exfalso; apply (Habs (rd (data m) i));
      exists i; repeat split; auto; lia
    | apply Hd; auto ].
Qed.

(** [map_insert]'s loop never takes the duplicate-key branch when the
    carried key differs from the pairwise distinct live keys of the
    table, whatever the stored probe lengths are. *)
Lemma map_insert_loop_nodup (fuel : nat) :
  forall (m : nghttp3_map) (idx key val p rv : Z) (m' : nghttp3_map),
    wf m -> 0 <= idx < tablelen m -> keys_distinct m ->
    (forall v, ~ holds m key v) ->
    map_insert_loop fuel m (tablelen m - 1) idx key val p = Done (rv, m') ->
    rv = 0 /\ keys_distinct m' /\
    (forall k v, holds m' k v -> holds m k v \/ (k = key /\ v = val)).
Proof.
  induction fuel as [|fuel IH];
    intros m idx key val p rv m' Hw Hi Hd Habs H; [discriminate H|].
  rewrite map_insert_loop_S in H.
  destruct (Z.eqb_spec (rd (psl m) idx) 0) as [E0|N0].
  - inversion H; subst rv m'; clear H. split; [reflexivity|]. split.
    + apply (keys_distinct_set_entry m idx key val p); auto.
    + intros k v Hh.
      change (holds (set_size ?x _) k v) with (holds x k v) in Hh.
      apply holds_set_entry_sub in Hh; auto.
      destruct Hh as [Hh|(i & _ & Hh)]; [right; exact Hh|left; exists i; exact Hh].
  - rewrite step_tablelen in H by auto.
    pose proof (nxt_range _ _ Hi) as Hn.
    assert (Hlive_idx : entry_at m idx (rd (keys m) idx) (rd (data m) idx))
      by (repeat split; auto; lia).
    destruct (p >? rd (psl m) idx).
    + set (m1 := map_set_entry m idx key val p) in *.
      destruct (IH m1 (nxt (tablelen m) idx) (rd (keys m) idx)
                  (rd (data m) idx) (size_t (rd (psl m) idx + 1)) rv m'
                  (wf_set_entry m idx key val p Hw Hi) Hn
                  (keys_distinct_set_entry m idx key val p Hw Hi Hd Habs))
        as (Hrv & Hd' & Hsub); [|exact H|].
      * intros v Hh. apply holds_set_entry_sub in Hh; auto.
        destruct Hh as [(Ek & _)|(i & Hne & Hr & Hl & Hk & _)].
        -- apply (Habs (rd (data m) idx)). rewrite <- Ek.
           exists idx; exact Hlive_idx.
        -- apply Hne. apply Hd; auto.
      * split; [exact Hrv|]. split; [exact Hd'|].
        intros k v Hh. destruct (Hsub k v Hh) as [Hh1|(-> & ->)].
        -- apply holds_set_entry_sub in Hh1; auto.
           destruct Hh1 as [Hh1|(i & _ & Hh1)];
             [right; exact Hh1|left; exists i; exact Hh1].
        -- left; exists idx; exact Hlive_idx.
    + destruct (Z.eqb_spec (rd (keys m) idx) key) as [E|N].
      * exfalso; apply (Habs (rd (data m) idx)).
        exists idx; repeat split; auto; lia.
      * apply (IH m (nxt (tablelen m) idx) key val (size_t (p + 1)) rv m');
          auto.
Qed.

Lemma map_insert_nodup (fuel : nat) (m : nghttp3_map) (key val rv : Z)
    (m' : nghttp3_map) :
  wf m -> keys_distinct m -> (forall v, ~ holds m key v) ->
  map_insert fuel m key val = Done (rv, m') ->
  rv = 0 /\ keys_distinct m' /\
  (forall k v, holds m' k v -> holds m k v \/ (k = key /\ v = val)).
Proof.
  intros Hw Hd Habs H; unfold map_insert in H.
  rewrite mask_tablelen in H by auto.
  apply (map_insert_loop_nodup fuel m (map_index m key) key val 1 rv m');
    auto.
  apply map_index_range, Hw.
Qed.

(** The re-insertion loop of [map_resize] passes every
    [assert(0 == rv)] when the live keys of the old table are pairwise
    distinct. *)
Lemma resize_loop_no_assert (fuel n : nat) :
  forall (old : nghttp3_map) (i : Z) (nm : nghttp3_map),
    keys_distinct old -> wf nm -> keys_distinct nm ->
    (forall k v, holds nm k v ->
                 exists j, 0 <= j < i /\ entry_at old j k v) ->
    0 <= i -> i + Z.of_nat n <= tablelen old ->
    tablelen nm <= Z.of_nat fuel ->
    live_count nm + Z.of_nat n < tablelen nm ->
    0 <= size nm -> size nm + Z.of_nat n < 2 ^ 63 ->
    exists nm', resize_loop fuel n old i nm = Done nm'.
Proof.
  induction n as [|n IH];
    intros old i nm Hdo Hw Hd Hsub Hi Hin Hf Hl Hs0 Hs.
  - exists nm; reflexivity.
  - rewrite resize_loop_S.
    destruct (Z.eqb_spec (rd (psl old) i) 0) as [E0|N0].
    + apply IH; auto; try lia.
      intros k v Hh; destruct (Hsub k v Hh) as (j & Hj & He).
      exists j; split; [lia | exact He].
    + destruct (map_insert_weak fuel nm (rd (keys old) i) (rd (data old) i)
                  Hw ltac:(lia) ltac:(lia) Hf)
        as (rv & m1 & Hr & Hw1 & Hh1 & _ & Hc1).
      assert (Habs : forall v, ~ holds nm (rd (keys old) i) v).
      { intros v Hh. destruct (Hsub _ _ Hh) as (j & Hj & Hr' & Hlv & Hk & _).
        assert (j = i) by (apply Hdo; auto; lia). lia. }
      destruct (map_insert_nodup fuel nm _ _ rv m1 Hw Hd Habs Hr)
        as (-> & Hd1 & Hsub1).
      rewrite Hr; cbn [bind fst snd Z.eqb].
      assert (HT1 : tablelen m1 = tablelen nm) by (unfold tablelen; congruence).
      destruct Hc1 as [(_ & Hz1 & Hl1)|(E & _)]; [|discriminate E].
      apply IH; auto; try lia.
      intros k v Hh. destruct (Hsub1 k v Hh) as [Hh2|(-> & ->)].
      * destruct (Hsub k v Hh2) as (j & Hj & He).
        exists j; split; [lia | exact He].
      * exists i; split; [lia|]. repeat split; auto; lia.
Qed.

(** [map_resize] returns (it does not stop at its assertion) on every
    table built by the public functions whose live keys are pairwise
    distinct. *)
Lemma map_resize_no_assert (fuel : nat) (ok : bool) (m : nghttp3_map)
    (nh : Z) :
  WInv m -> keys_distinct m ->
  nh = (if hashbits m =? 0 then 4 else hashbits m + 1) -> nh <= 63 ->
  2 ^ nh <= Z.of_nat fuel ->
  exists r, map_resize fuel ok m nh = Done r.
Proof.
  intros HW Hd Hnh Hle Hf.
  destruct (map_resize_weak fuel ok m nh HW Hnh Hle Hf)
    as [Hx|[(_ & Hx)|(m' & _ & Hx & _)]]; eauto.
  exfalso. unfold map_resize in Hx.
  destruct (negb ok); [discriminate Hx|].
  destruct HW as [(_ & Hs & _)|(Hw & Hl & Ht)].
  { rewrite Hs in Hx; discriminate Hx. }
  destruct (size m =? 0); [discriminate Hx|].
  pose proof (wf_bits m Hw) as Hb.
  assert (E : nh = hashbits m + 1).
  { destruct (Z.eqb_spec (hashbits m) 0); lia. }
  pose proof (wf_fresh nh (seed m) ltac:(lia)) as Hwn.
  set (fresh := mk_map _ _ _ (seed m) 0 nh) in *.
  rewrite tablelen_eq in Hx by lia. fold (tablelen m) in Hx.
  pose proof (tablelen_bounds m Hw) as HT.
  assert (HT2 : tablelen fresh = 2 * tablelen m).
  { unfold tablelen, fresh; msimpl. rewrite E.
    rewrite Z.pow_add_r by lia. change (2 ^ 1) with 2. lia. }
  assert (HT3 : tablelen m <= 2 ^ 62).
  { unfold tablelen; apply Z.pow_le_mono_r; lia. }
  assert (Hlf : live_count fresh = 0).
  { unfold live_count, fresh; msimpl; apply nonzero_count_calloc. }
  assert (Hdf : keys_distinct fresh).
  { intros i j _ _ Hli; unfold fresh in Hli; msimpl.
    rewrite rd_calloc in Hli; contradiction. }
  assert (Hsf : forall k v, holds fresh k v ->
                            exists j, 0 <= j < 0 /\ entry_at m j k v).
  { intros k v Hh; exfalso; exact (holds_fresh _ _ _ _ k v Hh). }
  assert (Hzf : size fresh + Z.of_nat (Z.to_nat (tablelen m)) < 2 ^ 63).
  { unfold fresh at 1; msimpl.
    change (2 ^ 62) with 4611686018427387904 in HT3.
    change (2 ^ 63) with 9223372036854775808. lia. }
  destruct (resize_loop_no_assert fuel (Z.to_nat (tablelen m)) m 0 fresh
              Hd Hwn Hdf Hsf ltac:(lia) ltac:(lia) Hf ltac:(lia)
              ltac:(unfold fresh; msimpl; lia) Hzf)
    as (nm' & Hn).
  rewrite Hn in Hx; discriminate Hx.
Qed.

(* ================================================================== *)
(** * Small tables are never truncated *)
(* ================================================================== *)

Lemma back_range (T j t : Z) : 0 < T -> 0 <= back T j t < T.
Proof. intros H; unfold back; apply Z.mod_pos_bound; exact H. Qed.

Lemma dist_back (T j t : Z) :
  0 <= j < T -> 0 <= t < T -> dist T (back T j t) j = t.
Proof.
  intros Hj Ht; unfold dist, back.
  rewrite Zminus_mod_idemp_r.
  replace (j - (j - t)) with t by lia. apply Z.mod_small; exact Ht.
Qed.

(** [n] consecutive live slots are [n] live slots. *)
Lemma run_le_count (n : nat) :
  forall (a : list Z) (j : Z),
    0 <= j < Z.of_nat (length a) -> Z.of_nat n <= Z.of_nat (length a) ->
    (forall t, 0 <= t < Z.of_nat n ->
               rd a (back (Z.of_nat (length a)) j t) <> 0) ->
    Z.of_nat n <= nonzero_count a.
Proof.
  induction n as [|n IH]; intros a j Hj Hn Hlive.
  - pose proof (nonzero_count_bounds a); lia.
  - set (T := Z.of_nat (length a)) in *.
    set (i := back T j (Z.of_nat n)).
    assert (Hi : 0 <= i < T) by (apply back_range; lia).
    assert (Hli : rd a i <> 0) by (apply Hlive; lia).
    assert (Hlen : Z.of_nat (length (wr a i 0)) = T)
      by (rewrite length_wr; reflexivity).
    pose proof (IH (wr a i 0) j ltac:(lia) ltac:(lia)) as H.
    rewrite Hlen in H.
    rewrite nonzero_count_wr in H by (fold T; lia).
    rewrite (nz_nonzero _ Hli) in H. change (nz 0) with 0 in H.
    enough (Z.of_nat n <= nonzero_count a - 1 + 0) by lia.
    apply H. intros t Ht.
    assert (Hb : 0 <= back T j t < T) by (apply back_range; lia).
    rewrite rd_wr_other; try lia.
    + apply Hlive; lia.
    + intros E. unfold i in E.
      pose proof (dist_back T j t Hj ltac:(lia)) as D1.
      pose proof (dist_back T j (Z.of_nat n) Hj ltac:(lia)) as D2.
      rewrite E in D2. lia.
Qed.

(** In a table that satisfies the invariant no stored psl exceeds the
    number of live slots: the probe path of an entry is occupied. *)
Lemma psl_le_live (m : nghttp3_map) (j : Z) :
  Inv_core m -> 0 <= j < tablelen m -> rd (psl m) j <= live_count m.
Proof.
  intros Hc Hj.
  pose proof (ic_wf m Hc) as Hw.
  pose proof (tablelen_bounds m Hw) as HT.
  pose proof (wf_psl m Hw) as Hlen.
  pose proof (wf_byte m Hw j Hj) as Hb.
  pose proof (nonzero_count_bounds (psl m)) as Hnb.
  fold (live_count m) in Hnb.
  destruct (Z.eq_dec (rd (psl m) j) 0) as [E|N]; [lia|].
  pose proof (ic_exact m Hc j Hj N) as Hex.
  pose proof (dist_range _ _ _ (map_index_range m (rd (keys m) j)
                                  (wf_bits m Hw)) Hj) as Hd.
  fold (tablelen m) in Hd.
  pose proof (run_le_count (Z.to_nat (rd (psl m) j)) (psl m) j
                ltac:(lia) ltac:(lia)) as H.
  rewrite Z2Nat.id in H by lia. unfold live_count. apply H.
  rewrite Hlen. intros t Ht.
  assert (Hbr : 0 <= back (tablelen m) j t < tablelen m)
    by (apply back_range; lia).
  pose proof (chain_dist m _ j Hc Hbr Hj) as Hch.
  rewrite dist_back in Hch by lia. lia.
Qed.

(** With at most 254 live slots the probing loop of [map_insert] never
    stores a truncated psl: it adds one live slot. *)
Lemma map_insert_loop_fits (fuel : nat) :
  forall (m : nghttp3_map) (idx key val p e rv : Z) (m' : nghttp3_map),
    carried m idx key val p e -> live_count m <= 254 ->
    map_insert_loop fuel m (tablelen m - 1) idx key val p = Done (rv, m') ->
    live_count m' = live_count m + 1.
Proof.
  induction fuel as [|fuel IH]; intros m idx key val p e rv m' HJ Hl Hrun;
    [discriminate Hrun|].
  pose proof (carried_bound _ _ _ _ _ _ HJ) as Hp256.
  pose proof (cr_core _ _ _ _ _ _ HJ) as Hc.
  pose proof (cr_idx _ _ _ _ _ _ HJ) as Hi.
  pose proof (ic_wf m Hc) as Hw.
  pose proof (tablelen_bounds m Hw) as HT.
  pose proof (wf_byte m Hw idx Hi) as Hb.
  assert (Hp : p <= 255).
  { destruct (nxt_surj (tablelen m) idx ltac:(lia) Hi) as (i0 & Hr & E).
    pose proof (cr_prev _ _ _ _ _ _ HJ i0 Hr E).
    pose proof (psl_le_live m i0 Hc Hr). lia. }
  assert (Hu : u8 p <> 0) by (rewrite u8_small; lia).
  rewrite map_insert_loop_S in Hrun.
  destruct (Z.eqb_spec (rd (psl m) idx) 0) as [E0|N0].
  - inversion Hrun; subst rv m'.
    change (live_count (set_size ?x _)) with (live_count x).
    rewrite live_set_entry by auto.
    rewrite (nz_zero _ E0), (nz_nonzero _ Hu). lia.
  - rewrite step_tablelen in Hrun by auto.
    pose proof two63_lt.
    destruct (Z.gtb_spec p (rd (psl m) idx)) as [G|L].
    + rewrite size_t_small in Hrun by lia.
      pose proof (carried_swap _ _ _ _ _ _ HJ N0 ltac:(lia) Hp) as HJ1.
      set (m1 := map_set_entry m idx key val p) in *.
      assert (Hl1 : live_count m1 = live_count m).
      { unfold m1; rewrite live_set_entry by auto.
        rewrite (nz_nonzero _ N0), (nz_nonzero _ Hu). lia. }
      rewrite <- Hl1.
      apply (IH m1 _ _ _ _ e rv m' HJ1 ltac:(lia) Hrun).
    + pose proof (carried_not_dup _ _ _ _ _ _ HJ N0) as Hnd.
      destruct (Z.eqb_spec (rd (keys m) idx) key) as [E|_];
        [contradiction|].
      rewrite size_t_small in Hrun by lia.
      destruct (carried_next _ _ _ _ _ _ HJ N0 L) as (HJ1 & _).
      apply (IH m _ key val _ e rv m' HJ1 Hl Hrun).
Qed.

Lemma map_insert_fits (fuel : nat) (m : nghttp3_map) (key val rv : Z)
    (m' : nghttp3_map) :
  Inv_core m -> live_count m <= 254 -> live_count m < tablelen m ->
  0 <= size m < 2 ^ 63 ->
  (forall v, ~ holds m key v) -> val <> 0 ->
  map_insert fuel m key val = Done (rv, m') ->
  live_count m' = live_count m + 1.
Proof.
  intros Hc Hl Hlt Hs Habs Hval H.
  pose proof (ic_wf m Hc) as Hw.
  pose proof (tablelen_bounds m Hw) as HT.
  unfold map_insert in H. rewrite mask_tablelen in H by auto.
  destruct (nonzero_count_hole (psl m)) as (e & He & Hz).
  { rewrite (wf_psl m Hw); unfold live_count in Hlt; lia. }
  rewrite (wf_psl m Hw) in He.
  pose proof (map_index_range m key (wf_bits m Hw)) as Hi.
  fold (tablelen m) in Hi.
  pose proof (dist_range _ _ _ Hi He) as Hd.
  apply (map_insert_loop_fits fuel m (map_index m key) key val 1 e rv m');
    auto.
  constructor; auto; try lia.
  - rewrite dist_self by auto; reflexivity.
  - intros i0 Hr _. pose proof (wf_byte m Hw i0 Hr); lia.
Qed.

Lemma live_before_mono (old : nghttp3_map) (n : nat) (i : Z) :
  0 <= i -> live_before old i <= live_before old (i + Z.of_nat n).
Proof.
  intros Hi; induction n as [|n IH].
  - replace (i + Z.of_nat 0) with i by lia. lia.
  - replace (i + Z.of_nat (S n)) with (i + Z.of_nat n + 1) by lia.
    rewrite live_before_S by lia.
    pose proof (nz_bounds (rd (psl old) (i + Z.of_nat n))). lia.
Qed.

(** Re-inserting at most 255 entries truncates nothing. *)
Lemma resize_loop_fits (fuel n : nat) :
  forall (old : nghttp3_map) (i : Z) (nm nm' : nghttp3_map),
    Inv_core old -> Inv_core nm -> live_count old <= 255 ->
    0 <= i -> i + Z.of_nat n = tablelen old ->
    tablelen old < tablelen nm ->
    live_count nm = live_before old i -> size nm = live_before old i ->
    (forall k v, holds nm k v <->
                 exists j, 0 <= j < i /\ entry_at old j k v) ->
    resize_loop fuel n old i nm = Done nm' ->
    live_count nm' = live_count old.
Proof.
  induction n as [|n IH];
    intros old i nm nm' Hco Hcn H255 Hi Hin HT Hl Hs Hcont H.
  - inversion H; subst nm'. rewrite Hl.
    replace i with (Z.of_nat (length (psl old)))
      by (rewrite (wf_psl old (ic_wf old Hco)); lia).
    apply live_before_all.
  - rewrite resize_loop_S in H.
    pose proof (ic_wf old Hco) as Hwo.
    pose proof (ic_wf nm Hcn) as Hwn.
    pose proof (tablelen_bounds nm Hwn) as HTn.
    pose proof (live_before_S old i Hi) as HS.
    pose proof (live_before_le old i Hi) as HB.
    assert (Hall : live_before old (i + 1 + Z.of_nat n) = live_count old).
    { replace (i + 1 + Z.of_nat n) with (Z.of_nat (length (psl old)))
        by (rewrite (wf_psl old Hwo); lia).
      apply live_before_all. }
    pose proof (live_before_mono old n (i + 1) ltac:(lia)) as Hmono.
    assert (Hir : 0 <= i < tablelen old) by lia.
    destruct (Z.eqb_spec (rd (psl old) i) 0) as [E0|N0].
    + rewrite (nz_zero _ E0) in HS.
      apply (IH old (i + 1) nm nm'); auto; try lia.
      intros k v; rewrite Hcont; split.
      * intros (j & Hj & He); exists j; split; [lia | exact He].
      * intros (j & Hj & He); exists j; split; [|exact He].
        destruct (Z.eq_dec j i) as [->|]; [|lia].
        destruct He as (_ & Hlv & _); contradiction.
    + rewrite (nz_nonzero _ N0) in HS.
      apply bind_Done in H; destruct H as ((rv & m1) & H1 & H2).
      cbn [fst snd] in H2.
      assert (Habs : forall v, ~ holds nm (rd (keys old) i) v).
      { intros v Hh; apply Hcont in Hh.
        destruct Hh as (j & Hj & Hr & Hlv & Hk & _).
        assert (j = i) by (apply (ic_distinct old Hco); auto). lia. }
      assert (Hlo : live_count old <= tablelen old).
      { pose proof (nonzero_count_bounds (psl old)) as Hnb.
        rewrite (wf_psl old Hwo) in Hnb. unfold live_count; lia. }
      pose proof (map_insert_fits fuel nm _ _ rv m1 Hcn ltac:(lia) ltac:(lia)
                    ltac:(lia) Habs (ic_data old Hco i Hir N0) H1) as Hl1.
      destruct (proj2 (map_insert_new fuel nm _ _ rv m1 Hcn ltac:(lia)
                         ltac:(lia) Habs (ic_data old Hco i Hir N0) H1) Hl1)
        as (-> & Hc1 & Hcont1).
      destruct (map_insert_result fuel nm _ _ 0 m1 Hwn ltac:(lia) ltac:(lia) H1)
        as (Hw1 & Hh1 & Hsd1 & Hc1').
      assert (HT1 : tablelen m1 = tablelen nm) by (unfold tablelen; congruence).
      destruct Hc1' as [(_ & Hz1 & _)|(E & _)]; [|discriminate E].
      cbn [Z.eqb] in H2.
      apply (IH old (i + 1) m1 nm'); auto; try lia.
      intros k v; rewrite Hcont1, Hcont; split.
      * intros [(j & Hj & He)|(-> & ->)].
        -- exists j; split; [lia | exact He].
        -- exists i; split; [lia|]. repeat split; auto; lia.
      * intros (j & Hj & He).
        destruct (Z.eq_dec j i) as [->|].
        -- right. destruct He as (_ & _ & <- & <-); auto.
        -- left; exists j; split; [lia | exact He].
Qed.

Lemma map_resize_fits (fuel : nat) (m : nghttp3_map) (nh rv : Z)
    (m1 : nghttp3_map) :
  Inv m -> live_count m <= 255 ->
  nh = (if hashbits m =? 0 then 4 else hashbits m + 1) -> nh <= 63 ->
  map_resize fuel true m nh = Done (rv, m1) ->
  live_count m1 = live_count m.
Proof.
  intros HI H255 Hnh Hle H; unfold map_resize in H; cbn [negb] in H.
  destruct HI as [Hu|(Hc & Hl & Ht)].
  - destruct Hu as (Hb & Hs & Hk & Hd & Hp).
    rewrite Hs in H; cbn [Z.eqb bind] in H.
    inversion H; subst rv m1; clear H.
    unfold live_count; msimpl. rewrite Hp, nonzero_count_calloc. reflexivity.
  - pose proof (ic_wf m Hc) as Hw.
    pose proof (wf_bits m Hw) as Hb.
    assert (E : nh = hashbits m + 1).
    { destruct (Z.eqb_spec (hashbits m) 0); lia. }
    pose proof (Inv_core_fresh nh (seed m) ltac:(lia)) as Hcf.
    set (fresh := mk_map _ _ _ (seed m) 0 nh) in *.
    assert (Hlf : live_count fresh = 0).
    { unfold live_count, fresh; msimpl; apply nonzero_count_calloc. }
    destruct (Z.eqb_spec (size m) 0) as [E0|N0].
    + cbn [bind] in H. inversion H; subst rv m1; clear H.
      transitivity 0; [|lia].
      unfold live_count; msimpl; apply nonzero_count_calloc.
    + apply bind_Done in H; destruct H as (nm' & H1 & H2).
      inversion H2; subst rv m1; clear H2.
      rewrite tablelen_eq in H1 by lia. fold (tablelen m) in H1.
      pose proof (tablelen_bounds m Hw) as HT.
      assert (HT2 : tablelen fresh = 2 * tablelen m).
      { unfold tablelen, fresh; msimpl. rewrite E.
        rewrite Z.pow_add_r by lia. change (2 ^ 1) with 2. lia. }
      change (live_count (mk_map (keys nm') (data nm') (psl nm') _ _ _))
        with (live_count nm').
      apply (resize_loop_fits fuel (Z.to_nat (tablelen m)) m 0 fresh nm');
        auto; try lia.
      intros k v; split.
      * intros Hh; exfalso; exact (holds_fresh _ _ _ _ k v Hh).
      * intros (j & Hj & _); lia.
Qed.

Lemma Inv_intact (m : nghttp3_map) : Inv m -> intact m.
Proof.
  unfold intact; intros [(_ & Hs & _ & _ & Hp)|(_ & Hl & _)]; [|exact Hl].
  unfold live_count; rewrite Hp, Hs; reflexivity.
Qed.

Lemma map_insert_small (fuel : nat) (m : nghttp3_map) (key val rv : Z)
    (m' : nghttp3_map) :
  Inv_core m -> live_count m = size m ->
  size m + 1 < threshold (tablelen m) -> val <> 0 ->
  map_insert fuel m key val = Done (rv, m') ->
  size m' <= 255 -> live_count m' = size m'.
Proof.
  intros Hc Hl Ht Hval H Hsm.
  pose proof (ic_wf m Hc) as Hw.
  pose proof (tablelen_bounds m Hw) as HT.
  pose proof (threshold_bounds (hashbits m) ltac:(apply Hw)) as Hth.
  fold (tablelen m) in Hth.
  pose proof (nonzero_count_bounds (psl m)) as Hnb. fold (live_count m) in Hnb.
  assert (HI : Inv m) by (right; split; [exact Hc|split; [exact Hl|lia]]).
  destruct (holds_dec m key HI) as [(v0 & Hh)|Habs].
  - set (F := Nat.max fuel (Z.to_nat (tablelen m))).
    apply (map_insert_mono fuel F) in H; [|unfold F; lia].
    rewrite (map_insert_dup F m key v0 val Hc Hh ltac:(unfold F; lia)) in H.
    inversion H; subst. exact Hl.
  - destruct (map_insert_nodup fuel m key val rv m' Hw
                (Inv_core_keys_distinct m Hc) Habs H) as (-> & _).
    destruct (map_insert_result fuel m key val 0 m' Hw ltac:(lia) ltac:(lia) H)
      as (_ & _ & _ & [(_ & Hz & _)|(E & _)]); [|discriminate E].
    rewrite (map_insert_fits fuel m key val 0 m' Hc ltac:(lia) ltac:(lia)
               ltac:(lia) Habs Hval H). lia.
Qed.

(** An insert that leaves [size] at 255 or less has truncated nothing. *)
Lemma nghttp3_map_insert_small (fuel : nat) (ok : bool) (m : nghttp3_map)
    (key val rv : Z) (m' : nghttp3_map) :
  Inv m -> nghttp3_map_insert fuel ok m key val = Done (rv, m') ->
  size m' <= 255 -> intact m'.
Proof.
  intros HI H Hsm. unfold intact.
  pose proof (Inv_intact m HI) as Hlm; unfold intact in Hlm.
  destruct (nghttp3_map_insert_result fuel ok m key val rv m'
              (Inv_WInv m HI) H) as (HW' & Hsd' & Hres).
  assert (Hsz : size m <= 255).
  { destruct Hres as [(_ & ? & _)|[(_ & ->)|(_ & ? & _)]]; lia. }
  unfold nghttp3_map_insert in H.
  destruct (Z.eqb_spec val 0) as [|Hval]; [discriminate H|].
  assert (Grow : forall nh,
    nh = (if hashbits m =? 0 then 4 else hashbits m + 1) -> nh <= 63 ->
    (forall m1, hashbits m1 = nh -> size m1 = size m ->
                size m1 + 1 < threshold (tablelen m1)) ->
    (r <- map_resize fuel ok m nh ;;
     if negb (fst r =? 0) then Done r else map_insert fuel (snd r) key val)
    = Done (rv, m') ->
    live_count m' = size m').
  { intros nh Hnh Hle Hthr Hrun.
    apply bind_Done in Hrun; destruct Hrun as ((rv1 & m1) & H1 & H2).
    cbn [fst snd] in H2.
    destruct (map_resize_result fuel ok m nh rv1 m1 (Inv_WInv m HI) Hnh Hle H1)
      as [(-> & -> & ->)|(-> & -> & Hw1 & Hh1 & Hsd1 & Hz1 & Hl1)].
    - inversion H2; subst. exact Hlm.
    - cbn [Z.eqb negb] in H2.
      pose proof (map_resize_fits fuel m nh 0 m1 HI ltac:(lia) Hnh Hle H1)
        as E.
      destruct (map_resize_strong fuel m nh 0 m1 HI Hnh Hle H1 E)
        as (Hc1 & _).
      apply (map_insert_small fuel m1 key val rv m'); auto; lia. }
  destruct HI as [Hu|(Hc & Hl & Ht)].
  - destruct Hu as (Hb & Hs0 & Hk & Hd & Hp).
    lazymatch type of H with
    | (if ?c then _ else _) = _ => destruct c eqn:G
    end; [|rewrite Hb, Hs0 in G; discriminate G].
    replace (hashbits m =? 0) with true in H by (rewrite Hb; reflexivity).
    change (NGHTTP3_INITIAL_HASHBITS >? NGHTTP3_MAP_MAX_HASHBITS) with false
      in H; cbv iota in H.
    apply (Grow NGHTTP3_INITIAL_HASHBITS); auto.
    + rewrite Hb; reflexivity.
    + unfold NGHTTP3_INITIAL_HASHBITS; lia.
    + intros m1 Hh Hz; unfold tablelen; rewrite Hh, Hz, Hs0. reflexivity.
  - pose proof (ic_wf m Hc) as Hw.
    pose proof (wf_bits m Hw) as Hb.
    pose proof two63_lt.
    assert (Hs : 0 <= size m < 2 ^ 63).
    { apply WInv_size; right; split; [exact Hw|split; [lia|exact Ht]]. }
    rewrite growth_check in H by auto.
    destruct (Z.geb_spec (size m + 1) (threshold (tablelen m))) as [G|L].
    + destruct (Z.eqb_spec (hashbits m) 0) as [E|_]; [lia|].
      rewrite size_t_small in H by lia.
      unfold NGHTTP3_MAP_MAX_HASHBITS in H.
      destruct (Z.gtb_spec (hashbits m + 1) 63) as [G2|L2].
      * inversion H; subst. exact Hl.
      * apply (Grow (hashbits m + 1) eq_refl L2); auto; try lia.
        intros m1 Hh Hz; unfold tablelen; rewrite Hh, Hz.
        rewrite threshold_double by lia.
        unfold tablelen in Ht; lia.
    + apply (map_insert_small fuel m key val rv m'); auto.
Qed.

(** In a history in which [size] never exceeded 255, no stored probe
    length has been truncated: the table satisfies the full invariant
    and holds the bindings of its history. *)
Lemma reach_small (tr : list event) (m : nghttp3_map) :
  reach tr m -> peak tr <= 255 -> intact m.
Proof.
  induction 1 as [s Hs|tr m fuel ok key val rv m' Hr IH Hk Hrun
                 |tr m fuel key rv m' Hr IH Hk Hrun|tr m Hr IH]; intros Hp.
  - reflexivity.
  - pose proof (IH ltac:(cbn [peak] in Hp; lia)) as Hin.
    destruct (reach_sim tr m Hr Hin) as (HI & _).
    apply (nghttp3_map_insert_small fuel ok m key val rv m' HI Hrun).
    destruct (size_accounting _ _ (reach_insert _ _ _ _ _ _ _ _ Hr Hk Hrun))
      as (Hz & _).
    unfold nghttp3_map_size in Hz. cbn [peak] in Hp. lia.
  - apply (intact_remove tr m fuel key rv m' Hr); [|exact Hrun].
    apply IH; cbn [peak] in Hp; lia.
  - apply Inv_intact, Inv_clear. apply (reach_WInv tr m Hr).
Qed.

(* ================================================================== *)
(** * Size accounting *)
(* ================================================================== *)

Lemma net_inserts_since_clear (tr : list event) :
  net_inserts tr = ok_inserts (since_clear tr) - ok_removes (since_clear tr).
Proof.
  induction tr as [|[k v rv|k rv|] tr IH]; cbn; lia.
Qed.

Lemma since_clear_none (tr : list event) :
  ~ In EvClear tr -> since_clear tr = tr.
Proof.
  induction tr as [|[k v rv|k rv|] tr IH]; cbn; intros H;
    [reflexivity| | |tauto]; f_equal; apply IH; tauto.
Qed.

(** C6 (amended): in every table reachable through the public
    operations, [nghttp3_map_size] returns the number of successful
    inserts minus the number of successful removes since the table was
    created or last cleared; the number of slots with nonzero psl never
    exceeds it, and equals it in every history in which [size] never
    exceeded 255. *)
Theorem C6_size_accounting (tr : list event) (m : nghttp3_map) :
  reach tr m ->
  nghttp3_map_size m
  = ok_inserts (since_clear tr) - ok_removes (since_clear tr) /\
  live_count m <= nghttp3_map_size m /\
  (peak tr <= 255 -> live_count m = nghttp3_map_size m).
Proof.
  intros Hr. destruct (size_accounting tr m Hr) as (Hz & Hle).
  rewrite <- net_inserts_since_clear.
  split; [exact Hz|]. split; [exact Hle|].
  intros Hp; exact (reach_small tr m Hr Hp).
Qed.

Lemma C6_size_accounting_witness :
  nghttp3_map_size demo_map
  = ok_inserts (since_clear demo_tr) - ok_removes (since_clear demo_tr) /\
  live_count demo_map <= nghttp3_map_size demo_map /\
  (peak demo_tr <= 255 -> live_count demo_map = nghttp3_map_size demo_map).
Proof.
  apply (C6_size_accounting demo_tr demo_map).
  apply (replay_reach 16 demo_ops [] (nghttp3_map_init 0)).
  - apply reach_init; vm_compute; split; congruence.
  - vm_compute; reflexivity.
Defined.

(** C6 as stated fails twice.  By design: after one successful insert
    and a [nghttp3_map_clear], [nghttp3_map_size] is 0 while successful
    inserts minus successful removes is 1.  By truncation: after the 256
    colliding inserts [size] is 256 and 255 slots have a nonzero psl. *)
Lemma C6_counterexample :
  (reach cleared_tr cleared_map /\
   cleared_tr = [EvClear; EvInsert 1 11 0] /\
   nghttp3_map_size cleared_map = 0 /\
   ok_inserts cleared_tr - ok_removes cleared_tr = 1) /\
  (reach overflow_tr overflow_map /\
   nghttp3_map_size overflow_map = 256 /\
   live_count overflow_map = 255 /\
   ok_inserts overflow_tr - ok_removes overflow_tr = 256).
Proof.
  split; (split; [|eval_conj]).
  - apply (replay_reach 16 cleared_ops [] (nghttp3_map_init 0)).
    + apply reach_init; vm_compute; split; congruence.
    + vm_compute; reflexivity.
  - exact overflow_reach.
Qed.

(* ================================================================== *)
(** * Tables that never held more than 255 entries *)
(* ================================================================== *)

Lemma demo_reach : reach demo_tr demo_map.
Proof.
  apply (replay_reach 16 demo_ops [] (nghttp3_map_init 0)).
  - apply reach_init; vm_compute; split; congruence.
  - vm_compute; reflexivity.
Qed.

(** In every history in which [size] never exceeded 255, a lookup
    returns the value the history binds to the key: the value of the
    last successful insert of the key, or a miss when the key was never
    inserted, or was removed or cleared away since. *)
Theorem find_after_small_history (tr : list event) (m : nghttp3_map)
    (fuel : nat) (key : Z) :
  reach tr m -> peak tr <= 255 -> tablelen m <= Z.of_nat fuel ->
  nghttp3_map_find fuel m key = Done (model tr key).
Proof.
  intros Hr Hp Hf.
  apply find_refines_model; [exact Hr | exact (reach_small tr m Hr Hp) | exact Hf].
Qed.

Lemma find_after_small_history_witness :
  nghttp3_map_find 16 demo_map 2 = Done (model demo_tr 2).
Proof.
  apply (find_after_small_history demo_tr demo_map 16 2).
  - exact demo_reach.
  - vm_compute; congruence.
  - vm_compute; congruence.
Defined.

(** In every such history, removing a key that is not bound fails with
    [NGHTTP3_ERR_INVALID_ARGUMENT] and changes nothing; removing a bound
    key returns 0, decrements [size], and afterwards that key misses
    while every other key is found as before. *)
Theorem remove_after_small_history (tr : list event) (m : nghttp3_map)
    (fuel : nat) (key rv : Z) (m' : nghttp3_map) :
  reach tr m -> peak tr <= 255 ->
  nghttp3_map_remove fuel m key = Done (rv, m') ->
  (model tr key = 0 -> rv = NGHTTP3_ERR_INVALID_ARGUMENT /\ m' = m) /\
  (model tr key <> 0 ->
   rv = 0 /\ size m' = size m - 1 /\
   forall k fuel', tablelen m' <= Z.of_nat fuel' ->
     nghttp3_map_find fuel' m' k
     = Done (if k =? key then 0 else model tr k)).
Proof.
  intros Hr Hp H.
  destruct (reach_sim tr m Hr (reach_small tr m Hr Hp)) as (HI & Hc).
  destruct (nghttp3_map_remove_spec fuel m key rv m' HI H)
    as [(-> & Habs & ->)|(-> & (v0 & Hh) & HI' & Hz & _ & Hc')].
  - split; [auto|]. intros N; exfalso.
    apply (Habs (model tr key)), Hc; auto.
  - split.
    + intros E; exfalso. apply Hc in Hh. destruct Hh as (Hv & E'); congruence.
    + intros _. split; [reflexivity|]. split; [exact Hz|].
      intros k fuel' Hf.
      apply (find_content fuel' m' (fun k => if k =? key then 0 else model tr k));
        auto.
      intros k' v; rewrite Hc'.
      destruct (Z.eqb_spec k' key) as [->|N].
      * split; [intros (_ & N); contradiction | intros (Hv & E); congruence].
      * rewrite (Hc k' v). tauto.
Qed.

Lemma remove_after_small_history_witness :
  (model demo_tr 2 = 0 ->
   0 = NGHTTP3_ERR_INVALID_ARGUMENT /\ demo_map_less = demo_map) /\
  (model demo_tr 2 <> 0 ->
   0 = 0 /\ size demo_map_less = size demo_map - 1 /\
   forall k fuel', tablelen demo_map_less <= Z.of_nat fuel' ->
     nghttp3_map_find fuel' demo_map_less k
     = Done (if k =? 2 then 0 else model demo_tr k)).
Proof.
  apply (remove_after_small_history demo_tr demo_map 16 2 0 demo_map_less).
  - exact demo_reach.
  - vm_compute; congruence.
  - vm_compute; reflexivity.
Defined.

(** In every such history the keys in live slots are pairwise distinct
    and [map_resize] returns: its assertion holds. *)
Theorem resize_after_small_history (tr : list event) (m : nghttp3_map)
    (fuel : nat) (ok : bool) (nh : Z) :
  reach tr m -> peak tr <= 255 ->
  nh = (if hashbits m =? 0 then 4 else hashbits m + 1) -> nh <= 63 ->
  2 ^ nh <= Z.of_nat fuel ->
  exists r, map_resize fuel ok m nh = Done r.
Proof.
  intros Hr Hp Hnh Hle Hf.
  apply map_resize_no_assert; auto; [exact (reach_WInv tr m Hr)|].
  destruct (reach_sim tr m Hr (reach_small tr m Hr Hp)) as ([Hu|(Hc & _)] & _).
  - destruct Hu as (_ & _ & _ & _ & Hpsl).
    intros i j _ _ Hi; rewrite Hpsl in Hi.
    unfold rd in Hi; destruct (Z.to_nat i); simpl in Hi; congruence.
  - exact (Inv_core_keys_distinct m Hc).
Qed.

Lemma resize_after_small_history_witness :
  exists r, map_resize 32 true demo_map 5 = Done r.
Proof.
  apply (resize_after_small_history demo_tr demo_map 32 true 5).
  - exact demo_reach.
  - vm_compute; congruence.
  - vm_compute; reflexivity.
  - lia.
  - vm_compute; congruence.
Defined.

(* ================================================================== *)
(** * The slot index *)
(* ================================================================== *)

Lemma hash_product_unhash (seed0 x : Z) :
  0 <= x < 2 ^ 64 ->
  u64 (u64 (u64 (unhash seed0 x + seed0) * NGHTTP3_MAP_HASHER)
       * NGHTTP3_MAP_FIBO) = x.
Proof.
  intros Hx; unfold unhash, u64.
  rewrite Z.add_mod_idemp_l by lia.
  replace (x * hash_inverse - seed0 + seed0) with (x * hash_inverse) by lia.
  rewrite (Z.mul_mod_idemp_l (x * hash_inverse) NGHTTP3_MAP_HASHER) by lia.
  rewrite Z.mul_mod_idemp_l by lia.
  replace (x * hash_inverse * NGHTTP3_MAP_HASHER * NGHTTP3_MAP_FIBO)
    with (x * (NGHTTP3_MAP_HASHER * NGHTTP3_MAP_FIBO * hash_inverse)) by lia.
  rewrite <- Z.mul_mod_idemp_r by lia.
  replace ((NGHTTP3_MAP_HASHER * NGHTTP3_MAP_FIBO * hash_inverse) mod 2 ^ 64)
    with 1 by (vm_compute; reflexivity).
  rewrite Z.mul_1_r. apply Z.mod_small; exact Hx.
Qed.

(** [map_index] stays inside the table for every key and seed and every
    bit width the shift is defined for. *)
Theorem map_index_in_table (m : nghttp3_map) (key : Z) :
  1 <= hashbits m <= 64 -> 0 <= map_index m key < 2 ^ hashbits m.
Proof.
  intros Hb; unfold map_index, u64.
  set (h := (_ * NGHTTP3_MAP_FIBO) mod 2 ^ 64).
  assert (Hh : 0 <= h < 2 ^ 64) by (apply Z.mod_pos_bound; lia).
  rewrite Z.shiftr_div_pow2 by lia.
  assert (Hp : 0 < 2 ^ (64 - hashbits m)) by (apply Z.pow_pos_nonneg; lia).
  split; [apply Z.div_pos; lia|].
  apply Z.div_lt_upper_bound; [exact Hp|].
  rewrite <- Z.pow_add_r by lia.
  replace (64 - hashbits m + hashbits m) with 64 by lia. lia.
Qed.

Lemma map_index_in_table_witness :
  0 <= map_index demo_map 12345 < 2 ^ hashbits demo_map.
Proof.
  apply (map_index_in_table demo_map 12345). vm_compute; split; congruence.
Defined.

(** The hash can be inverted: for every seed and table width, the key
    [unhash seed x] is a [uint64_t] whose slot is the top [hashbits] bits
    of [x].  Hence every slot [i] is the ideal slot of [2^(64-hashbits)]
    pairwise distinct keys, which anyone who knows the seed can
    compute. *)
Theorem map_index_unhash (m : nghttp3_map) (x : Z) :
  1 <= hashbits m <= 63 -> 0 <= x < 2 ^ 64 ->
  0 <= unhash (seed m) x < 2 ^ 64 /\
  map_index m (unhash (seed m) x) = Z.shiftr x (64 - hashbits m) /\
  (forall i j, 0 <= i < 2 ^ hashbits m -> 0 <= j < 2 ^ (64 - hashbits m) ->
     x = i * 2 ^ (64 - hashbits m) + j ->
     map_index m (unhash (seed m) x) = i) /\
  (forall y, 0 <= y < 2 ^ 64 -> unhash (seed m) y = unhash (seed m) x ->
     y = x).
Proof.
  intros Hb Hx.
  assert (E : map_index m (unhash (seed m) x) = Z.shiftr x (64 - hashbits m)).
  { unfold map_index. rewrite hash_product_unhash by exact Hx. reflexivity. }
  split; [unfold unhash, u64; apply Z.mod_pos_bound; lia|].
  split; [exact E|]. split.
  - intros i j Hi Hj ->. rewrite E.
    rewrite Z.shiftr_div_pow2 by lia.
    assert (Hp : 0 < 2 ^ (64 - hashbits m)) by (apply Z.pow_pos_nonneg; lia).
    rewrite Z.div_add_l by lia.
    rewrite Z.div_small by lia. lia.
  - intros y Hy Eu.
    pose proof (hash_product_unhash (seed m) y Hy) as Ey.
    pose proof (hash_product_unhash (seed m) x Hx) as Ex.
    rewrite Eu in Ey. congruence.
Qed.

Lemma map_index_unhash_witness :
  map_index chain_map (unhash (seed chain_map) (200 * 2 ^ 55 + 77)) = 200.
Proof.
  refine (proj1 (proj2 (proj2 (map_index_unhash chain_map (200 * 2 ^ 55 + 77)
                                  _ _))) 200 77 _ _ _).
  - vm_compute; split; congruence.
  - vm_compute; split; congruence.
  - vm_compute; split; congruence.
  - vm_compute; split; congruence.
  - vm_compute; reflexivity.
Defined.

(* ================================================================== *)
(** * Where live entries come from *)
(* ================================================================== *)

(** Whatever the stored probe lengths are, the probing loop of
    [map_insert] only moves entries around: the live entries of the
    result are live entries of the table or the pair being inserted. *)
Lemma map_insert_loop_sub (fuel : nat) :
  forall (m : nghttp3_map) (idx key val p rv : Z) (m' : nghttp3_map),
    wf m -> 0 <= idx < tablelen m ->
    map_insert_loop fuel m (tablelen m - 1) idx key val p = Done (rv, m') ->
    wf m' /\ hashbits m' = hashbits m /\
    (forall k v, holds m' k v -> holds m k v \/ (k = key /\ v = val)).
Proof.
  induction fuel as [|fuel IH];
    intros m idx key val p rv m' Hw Hi H; [discriminate H|].
  rewrite map_insert_loop_S in H.
  destruct (Z.eqb_spec (rd (psl m) idx) 0) as [E0|N0].
  - inversion H; subst rv m'; clear H.
    split; [apply wf_set_size, wf_set_entry; auto|]. split; [reflexivity|].
    intros k v Hh.
    change (holds (set_size ?x _) k v) with (holds x k v) in Hh.
    apply holds_set_entry_sub in Hh; auto.
    destruct Hh as [Hh|(i & _ & Hh)]; [right; exact Hh|left; exists i; exact Hh].
  - rewrite step_tablelen in H by auto.
    pose proof (nxt_range _ _ Hi) as Hn.
    assert (Hlive_idx : entry_at m idx (rd (keys m) idx) (rd (data m) idx))
      by (repeat split; auto; lia).
    destruct (p >? rd (psl m) idx).
    + set (m1 := map_set_entry m idx key val p) in *.
      destruct (IH m1 (nxt (tablelen m) idx) (rd (keys m) idx)
                  (rd (data m) idx) (size_t (rd (psl m) idx + 1)) rv m'
                  (wf_set_entry m idx key val p Hw Hi) Hn H)
        as (Hw' & Hb' & Hsub).
      split; [exact Hw'|]. split; [exact Hb'|].
      intros k v Hh. destruct (Hsub k v Hh) as [Hh1|(-> & ->)].
      * apply holds_set_entry_sub in Hh1; auto.
        destruct Hh1 as [Hh1|(i & _ & Hh1)];
          [right; exact Hh1|left; exists i; exact Hh1].
      * left; exists idx; exact Hlive_idx.
    + destruct (Z.eqb_spec (rd (keys m) idx) key) as [E|N].
      * inversion H; subst rv m'. split; [exact Hw|]. split; [reflexivity|].
        intros k v Hh; left; exact Hh.
      * apply (IH m (nxt (tablelen m) idx) key val (size_t (p + 1)) rv m');
          auto.
Qed.

Lemma map_insert_sub (fuel : nat) (m : nghttp3_map) (key val rv : Z)
    (m' : nghttp3_map) :
  wf m -> map_insert fuel m key val = Done (rv, m') ->
  wf m' /\ hashbits m' = hashbits m /\
  (forall k v, holds m' k v -> holds m k v \/ (k = key /\ v = val)).
Proof.
  intros Hw H; unfold map_insert in H.
  rewrite mask_tablelen in H by auto.
  apply (map_insert_loop_sub fuel m (map_index m key) key val 1 rv m'); auto.
  apply map_index_range, Hw.
Qed.

Lemma resize_loop_sub (fuel n : nat) :
  forall (old : nghttp3_map) (i : Z) (nm nm' : nghttp3_map),
    wf nm -> 0 <= i -> i + Z.of_nat n <= tablelen old ->
    resize_loop fuel n old i nm = Done nm' ->
    wf nm' /\ hashbits nm' = hashbits nm /\
    (forall k v, holds nm' k v -> holds nm k v \/ holds old k v).
Proof.
  induction n as [|n IH]; intros old i nm nm' Hw Hi Hn H.
  - inversion H; subst nm'. split; [exact Hw|]. split; [reflexivity|].
    intros k v Hh; left; exact Hh.
  - rewrite resize_loop_S in H.
    destruct (Z.eqb_spec (rd (psl old) i) 0) as [E0|N0].
    + apply (IH old (i + 1) nm nm'); auto; lia.
    + apply bind_Done in H; destruct H as ((rv & m1) & H1 & H2).
      cbn [fst snd] in H2.
      destruct (Z.eqb_spec rv 0) as [->|]; [|discriminate H2].
      destruct (map_insert_sub fuel nm _ _ 0 m1 Hw H1) as (Hw1 & Hb1 & Hs1).
      destruct (IH old (i + 1) m1 nm' Hw1 ltac:(lia) ltac:(lia) H2)
        as (Hw' & Hb' & Hs').
      split; [exact Hw'|]. split; [congruence|].
      intros k v Hh. destruct (Hs' k v Hh) as [Hh1|Hh1]; [|right; exact Hh1].
      destruct (Hs1 k v Hh1) as [Hh2|(-> & ->)]; [left; exact Hh2|].
      right; exists i; repeat split; auto; lia.
Qed.

Lemma map_resize_sub (fuel : nat) (ok : bool) (m : nghttp3_map) (nh rv : Z)
    (m1 : nghttp3_map) :
  WInv m -> 4 <= nh <= 63 ->
  map_resize fuel ok m nh = Done (rv, m1) ->
  forall k v, holds m1 k v -> holds m k v.
Proof.
  intros HW Hnh H k v Hh; unfold map_resize in H.
  destruct ok; cbn [negb] in H; [|inversion H; subst; exact Hh].
  pose proof (wf_fresh nh (seed m) Hnh) as Hwf.
  set (fresh := mk_map _ _ _ (seed m) 0 nh) in *.
  destruct (Z.eqb_spec (size m) 0) as [E0|N0].
  - cbn [bind] in H. inversion H; subst rv m1; clear H.
    exfalso; exact (holds_fresh _ _ _ _ k v Hh).
  - apply bind_Done in H; destruct H as (nm' & H1 & H2).
    inversion H2; subst rv m1; clear H2.
    destruct HW as [(_ & Hs & _)|(Hw & _ & _)]; [contradiction|].
    rewrite tablelen_eq in H1 by apply Hw. fold (tablelen m) in H1.
    pose proof (tablelen_bounds m Hw) as HT.
    destruct (resize_loop_sub fuel (Z.to_nat (tablelen m)) m 0 fresh nm'
                Hwf ltac:(lia) ltac:(lia) H1) as (_ & Hb' & Hs').
    assert (Hh' : holds nm' k v).
    { destruct Hh as (i & Hr & Hl); exists i; split; [|exact Hl].
      unfold tablelen in *; rewrite Hb'; exact Hr. }
    destruct (Hs' k v Hh') as [Hf|Ho]; [|exact Ho].
    exfalso; exact (holds_fresh _ _ _ _ k v Hf).
Qed.

(** The backward shift moves live entries and clears one slot. *)
Lemma shift_loop_sub (fuel : nat) :
  forall (m : nghttp3_map) (dest idx : Z) (m' : nghttp3_map),
    wf m -> 0 <= dest < tablelen m -> 0 <= idx < tablelen m ->
    shift_loop fuel m (tablelen m - 1) dest idx = Done m' ->
    forall k v, holds m' k v -> holds m k v.
Proof.
  induction fuel as [|fuel IH]; intros m dest idx m' Hw Hd Hi H;
    [discriminate H|].
  rewrite shift_loop_S in H.
  destruct (Z.leb_spec (rd (psl m) idx) 1) as [L|G].
  - inversion H; subst m'; clear H.
    intros k v (i & Hr & Hl & Hk & Hv).
    change (tablelen (set_psl m _)) with (tablelen m) in Hr. msimpl.
    rewrite rd_wr in Hl by (rewrite ?(wf_psl m Hw); lia).
    destruct (Z.eqb_spec i dest) as [|N]; [congruence|].
    exists i; repeat split; auto; lia.
  - rewrite step_tablelen in H by auto.
    set (m1 := map_set_entry m dest (rd (keys m) idx) (rd (data m) idx)
                             (size_t (rd (psl m) idx - 1))) in *.
    intros k v Hh.
    pose proof (IH m1 idx (nxt (tablelen m) idx) m'
                  (wf_set_entry m dest _ _ _ Hw Hd) Hi
                  (nxt_range _ _ Hi) H k v Hh) as Hh1.
    apply holds_set_entry_sub in Hh1; auto.
    destruct Hh1 as [(-> & ->)|(i & _ & Hh1)]; [|exists i; exact Hh1].
    exists idx; repeat split; auto; lia.
Qed.

Lemma remove_loop_sub (fuel : nat) :
  forall (fuel2 : nat) (m : nghttp3_map) (idx key p rv : Z)
         (m' : nghttp3_map),
    wf m -> 0 <= idx < tablelen m ->
    remove_loop fuel fuel2 m (tablelen m - 1) idx key p = Done (rv, m') ->
    forall k v, holds m' k v -> holds m k v.
Proof.
  induction fuel as [|fuel IH]; intros fuel2 m idx key p rv m' Hw Hi H;
    [discriminate H|].
  rewrite remove_loop_S in H.
  destruct (p >? rd (psl m) idx); [inversion H; subst; auto|].
  rewrite step_tablelen in H by auto.
  pose proof (nxt_range _ _ Hi) as Hn.
  destruct (rd (keys m) idx =? key).
  - apply bind_Done in H; destruct H as (m2 & H1 & H2).
    inversion H2; subst rv m'; clear H2.
    intros k v Hh.
    change (holds (set_size ?x _) k v) with (holds x k v) in Hh.
    exact (shift_loop_sub fuel2 m idx _ m2 Hw Hi Hn H1 k v Hh).
  - exact (IH fuel2 m _ key _ rv m' Hw Hn H).
Qed.

Lemma nghttp3_map_remove_sub (fuel : nat) (m : nghttp3_map) (key rv : Z)
    (m' : nghttp3_map) :
  WInv m -> nghttp3_map_remove fuel m key = Done (rv, m') ->
  forall k v, holds m' k v -> holds m k v.
Proof.
  intros HW H; unfold nghttp3_map_remove in H.
  destruct (Z.eqb_spec (size m) 0) as [E0|N0]; [inversion H; subst; auto|].
  destruct HW as [(_ & Hs & _)|(Hw & _ & _)]; [contradiction|].
  rewrite mask_tablelen in H by auto.
  apply (remove_loop_sub fuel fuel m (map_index m key) key 1 rv m'); auto.
  apply map_index_range, Hw.
Qed.

Lemma nghttp3_map_insert_sub (fuel : nat) (ok : bool) (m : nghttp3_map)
    (key val rv : Z) (m' : nghttp3_map) :
  WInv m -> nghttp3_map_insert fuel ok m key val = Done (rv, m') ->
  (hashbits m' = hashbits m \/
   hashbits m' = (if hashbits m =? 0 then 4 else hashbits m + 1)) /\
  (forall k v, holds m' k v -> holds m k v \/ (k = key /\ v = val)).
Proof.
  intros HW H. pose proof HW as HW0. unfold nghttp3_map_insert in H.
  destruct (Z.eqb_spec val 0) as [|Hval]; [discriminate H|].
  assert (Grow : forall nh,
    nh = (if hashbits m =? 0 then 4 else hashbits m + 1) ->
    (if nh >? NGHTTP3_MAP_MAX_HASHBITS then Done (NGHTTP3_ERR_NOMEM, m)
     else
       r <- map_resize fuel ok m nh ;;
       if negb (fst r =? 0) then Done r else map_insert fuel (snd r) key val)
    = Done (rv, m') ->
    (hashbits m' = hashbits m \/ hashbits m' = nh) /\
    (forall k v, holds m' k v -> holds m k v \/ (k = key /\ v = val))).
  { intros nh Hnh Hrun. unfold NGHTTP3_MAP_MAX_HASHBITS in Hrun.
    destruct (Z.gtb_spec nh 63) as [G|L];
      [inversion Hrun; subst m'; split; [left; reflexivity|];
       intros; left; assumption|].
    assert (H4 : 4 <= nh).
    { rewrite Hnh. destruct (Z.eqb_spec (hashbits m) 0) as [|N]; [lia|].
      destruct HW0 as [(Hb & _)|(Hw & _)]; [contradiction|].
      pose proof (wf_bits m Hw); lia. }
    apply bind_Done in Hrun; destruct Hrun as ((rv1 & m1) & H1 & H2).
    cbn [fst snd] in H2.
    pose proof (map_resize_sub fuel ok m nh rv1 m1 HW0 ltac:(lia) H1) as Hs1.
    destruct (map_resize_result fuel ok m nh rv1 m1 HW0 Hnh L H1)
      as [(-> & -> & ->)|(-> & -> & Hw1 & Hb1 & _)].
    - inversion H2; subst m'. split; [left; reflexivity|].
      intros; left; assumption.
    - cbn [Z.eqb negb] in H2.
      destruct (map_insert_sub fuel m1 key val rv m' Hw1 H2)
        as (_ & Hb2 & Hs2).
      split; [right; congruence|].
      intros k v Hh. destruct (Hs2 k v Hh) as [Hh1|E]; [|right; exact E].
      left; exact (Hs1 k v Hh1). }
  destruct HW as [Hu|(Hw & Hl & Ht)].
  - destruct Hu as (Hb & Hs0 & _).
    rewrite Hb, Hs0 in H. cbn [Z.eqb] in H.
    change (size_t (0 + 1) >=?
            size_t (size_t (Z.shiftl 1 0) - Z.shiftr (size_t (Z.shiftl 1 0)) 3))
      with true in H. cbv iota in H.
    assert (E : (if hashbits m =? 0 then 4 else hashbits m + 1)
                = NGHTTP3_INITIAL_HASHBITS) by (rewrite Hb; reflexivity).
    rewrite E.
    apply (Grow NGHTTP3_INITIAL_HASHBITS); [rewrite Hb; reflexivity|].
    exact H.
  - pose proof (wf_bits m Hw) as Hb. pose proof two63_lt.
    destruct (size_t (size m + 1) >=? _).
    + destruct (Z.eqb_spec (hashbits m) 0) as [E|_]; [lia|].
      rewrite size_t_small in H by lia.
      apply (Grow (hashbits m + 1)); [|exact H].
      destruct (Z.eqb_spec (hashbits m) 0); [lia|reflexivity].
    + destruct (map_insert_sub fuel m key val rv m' Hw H) as (_ & Hb2 & Hs2).
      split; [left; exact Hb2 | exact Hs2].
Qed.

(** Every live entry of a reachable table is a pair that was passed to
    [nghttp3_map_insert] since the table was created or last cleared,
    and its value is not [NULL]. *)
Lemma reach_origin (tr : list event) (m : nghttp3_map) :
  reach tr m ->
  forall k v, holds m k v ->
    v <> 0 /\ exists rv, In (EvInsert k v rv) (since_clear tr).
Proof.
  induction 1 as [s Hs|tr m fuel ok key val rv m' Hr IH Hk Hrun
                 |tr m fuel key rv m' Hr IH Hk Hrun|tr m Hr IH];
    intros k v Hh.
  - exfalso.
    apply (unallocated_no_holds (nghttp3_map_init s) k v);
      [repeat split|exact Hh].
  - cbn [since_clear].
    destruct (proj2 (nghttp3_map_insert_sub fuel ok m key val rv m'
                       (reach_WInv tr m Hr) Hrun) k v Hh) as [Hh1|(-> & ->)].
    + destruct (IH k v Hh1) as (Hv & rv0 & Hin).
      split; [exact Hv|]. exists rv0; right; exact Hin.
    + split; [exact (insert_nonnull _ _ _ _ _ _ Hrun)|].
      exists rv; left; reflexivity.
  - cbn [since_clear].
    pose proof (nghttp3_map_remove_sub fuel m key rv m'
                  (reach_WInv tr m Hr) Hrun k v Hh) as Hh1.
    destruct (IH k v Hh1) as (Hv & rv0 & Hin).
    split; [exact Hv|]. exists rv0; right; exact Hin.
  - exfalso.
    exact (proj2 (Inv_clear m (reach_WInv tr m Hr)) k v Hh).
Qed.

(** In every reachable table, truncated probe lengths or not,
    [nghttp3_map_find] returns [NULL] or a value that was passed to
    [nghttp3_map_insert] together with that key since the table was
    created or last cleared: it never returns a value of another key
    nor a stale one from before a clear. *)
Theorem find_returns_inserted (tr : list event) (m : nghttp3_map)
    (fuel : nat) (key r : Z) :
  reach tr m -> nghttp3_map_find fuel m key = Done r -> r <> 0 ->
  exists rv, In (EvInsert key r rv) (since_clear tr).
Proof.
  intros Hr H Hnz.
  destruct (nghttp3_map_find_result fuel m key r (reach_WInv tr m Hr) H)
    as [E|Hh]; [contradiction|].
  exact (proj2 (reach_origin tr m Hr key r Hh)).
Qed.

Lemma find_returns_inserted_witness :
  exists rv, In (EvInsert far_key 1000 rv)
                (since_clear (EvRemove far_key 0 :: shadow_tr)).
Proof.
  apply (find_returns_inserted (EvRemove far_key 0 :: shadow_tr) removed_map
           600 far_key 1000).
  - apply (reach_remove shadow_tr shadow_map 600 far_key 0 removed_map).
    + exact shadow_reach.
    + vm_compute; split; congruence.
    + vm_compute; reflexivity.
  - vm_compute; reflexivity.
  - congruence.
Defined.

(* ================================================================== *)
(** * The mutating calls in every reachable table *)
(* ================================================================== *)

(** In every reachable table, truncated probe lengths or not, an
    [nghttp3_map_insert] that returns was given a non-null value and
    returns 0, [NGHTTP3_ERR_NOMEM] or [NGHTTP3_ERR_INVALID_ARGUMENT];
    [size] grows by one exactly on 0, the table is untouched on
    [NGHTTP3_ERR_NOMEM]; the seed stays, the bit width stays or takes
    its next value; no live entry appears but the inserted pair. *)
Theorem insert_in_any_state (tr : list event) (m : nghttp3_map) (fuel : nat)
    (ok : bool) (key val rv : Z) (m' : nghttp3_map) :
  reach tr m -> nghttp3_map_insert fuel ok m key val = Done (rv, m') ->
  val <> 0 /\ seed m' = seed m /\
  (hashbits m' = hashbits m \/
   hashbits m' = (if hashbits m =? 0 then 4 else hashbits m + 1)) /\
  ((rv = 0 /\ size m' = size m + 1) \/
   (rv = NGHTTP3_ERR_NOMEM /\ m' = m) \/
   (rv = NGHTTP3_ERR_INVALID_ARGUMENT /\ size m' = size m)) /\
  (forall k v, holds m' k v -> holds m k v \/ (k = key /\ v = val)).
Proof.
  intros Hr H. pose proof (reach_WInv tr m Hr) as HW.
  split; [exact (insert_nonnull _ _ _ _ _ _ H)|].
  destruct (nghttp3_map_insert_result fuel ok m key val rv m' HW H)
    as (_ & Hsd & Hres).
  destruct (nghttp3_map_insert_sub fuel ok m key val rv m' HW H)
    as (Hb & Hsub).
  split; [exact Hsd|]. split; [exact Hb|]. split; [|exact Hsub].
  destruct Hres as [(-> & Hz & _)|[(-> & ->)|(-> & Hz & _)]]; auto.
Qed.

Lemma insert_in_any_state_witness :
  44 <> 0 /\ seed demo_map4 = seed demo_map /\
  (hashbits demo_map4 = hashbits demo_map \/
   hashbits demo_map4
   = (if hashbits demo_map =? 0 then 4 else hashbits demo_map + 1)) /\
  ((0 = 0 /\ size demo_map4 = size demo_map + 1) \/
   (0 = NGHTTP3_ERR_NOMEM /\ demo_map4 = demo_map) \/
   (0 = NGHTTP3_ERR_INVALID_ARGUMENT /\ size demo_map4 = size demo_map)) /\
  (forall k v, holds demo_map4 k v -> holds demo_map k v \/ (k = 4 /\ v = 44)).
Proof.
  apply (insert_in_any_state demo_tr demo_map 16 true 4 44 0 demo_map4).
  - exact demo_reach.
  - vm_compute; reflexivity.
Defined.

(** In every reachable table, truncated probe lengths or not, an
    [nghttp3_map_remove] that returns either fails with
    [NGHTTP3_ERR_INVALID_ARGUMENT] and leaves the table untouched, or
    returns 0 for a key that was in a live slot, and then [size] and
    the number of live slots both drop by exactly one; seed and bit
    width stay, and no live entry appears. *)
Theorem remove_in_any_state (tr : list event) (m : nghttp3_map) (fuel : nat)
    (key rv : Z) (m' : nghttp3_map) :
  reach tr m -> nghttp3_map_remove fuel m key = Done (rv, m') ->
  seed m' = seed m /\ hashbits m' = hashbits m /\
  ((rv = NGHTTP3_ERR_INVALID_ARGUMENT /\ m' = m) \/
   (rv = 0 /\ size m' = size m - 1 /\ live_count m' = live_count m - 1 /\
    exists v, holds m key v)) /\
  (forall k v, holds m' k v -> holds m k v).
Proof.
  intros Hr H. pose proof (reach_WInv tr m Hr) as HW.
  destruct (nghttp3_map_remove_result fuel m key rv m' HW H)
    as (_ & Hsd & Hres).
  split; [exact Hsd|].
  split; [destruct Hres as [(_ & ->)|(_ & Hb & _)]; auto|].
  split; [|exact (nghttp3_map_remove_sub fuel m key rv m' HW H)].
  destruct Hres as [(-> & ->)|(-> & _ & Hz & Hl & Hh)]; auto.
Qed.

Lemma remove_in_any_state_witness :
  seed demo_map_less = seed demo_map /\
  hashbits demo_map_less = hashbits demo_map /\
  ((0 = NGHTTP3_ERR_INVALID_ARGUMENT /\ demo_map_less = demo_map) \/
   (0 = 0 /\ size demo_map_less = size demo_map - 1 /\
    live_count demo_map_less = live_count demo_map - 1 /\
    exists v, holds demo_map 2 v)) /\
  (forall k v, holds demo_map_less k v -> holds demo_map k v).
Proof.
  apply (remove_in_any_state demo_tr demo_map 16 2 0 demo_map_less).
  - exact demo_reach.
  - vm_compute; reflexivity.
Defined.

(* ================================================================== *)
(** * Insertion and growth in small histories *)
(* ================================================================== *)

Lemma net_le_peak (tr : list event) : net_inserts tr <= peak tr.
Proof. destruct tr as [|e tr]; [reflexivity|]. cbn [peak]. lia. Qed.

Lemma peak_cons (e : event) (tr : list event) : peak tr <= peak (e :: tr).
Proof. cbn [peak]. lia. Qed.

Lemma reach_size_small (tr : list event) (m : nghttp3_map) :
  reach tr m -> peak tr <= 255 -> size m <= 255.
Proof.
  intros Hr Hp. destruct (size_accounting tr m Hr) as (Hz & _).
  unfold nghttp3_map_size in Hz. pose proof (net_le_peak tr). lia.
Qed.

(** What an insert in a small history returns. *)
Lemma insert_small_cases (tr : list event) (m : nghttp3_map) (fuel : nat)
    (ok : bool) (key val rv : Z) (m' : nghttp3_map) :
  reach tr m -> 0 <= key < 2 ^ 64 ->
  nghttp3_map_insert fuel ok m key val = Done (rv, m') ->
  peak (EvInsert key val rv :: tr) <= 255 ->
  (rv = 0 /\ model tr key = 0 /\ size m' = size m + 1) \/
  (rv = NGHTTP3_ERR_INVALID_ARGUMENT /\ model tr key <> 0 /\
   size m' = size m) \/
  (rv = NGHTTP3_ERR_NOMEM /\ m' = m).
Proof.
  intros Hr Hk H Hp.
  pose proof (peak_cons (EvInsert key val rv) tr) as Hp0.
  destruct (reach_sim tr m Hr (reach_small tr m Hr ltac:(lia))) as (HI & Hc).
  pose proof (reach_small _ _ (reach_insert _ _ _ _ _ _ _ _ Hr Hk H) Hp) as Hin'.
  unfold intact in Hin'.
  destruct (nghttp3_map_insert_spec fuel ok m key val rv m' HI H)
    as [(-> & ->)|[(_ & Hdef)|[(-> & Habs & _ & Hz & _)
                              |(-> & (v0 & Hh) & _ & Hz & _)]]].
  - right; right; auto.
  - lia.
  - left. split; [reflexivity|]. split; [|exact Hz].
    destruct (Z.eq_dec (model tr key) 0) as [E|N]; [exact E|].
    exfalso; apply (Habs (model tr key)), Hc; auto.
  - right; left. split; [reflexivity|]. split; [|exact Hz].
    apply Hc in Hh. destruct Hh as (Hv & E); congruence.
Qed.

(** In a history in which [size] never exceeds 255, [nghttp3_map_insert]
    returns 0 exactly for a key that is not bound and stores the pair;
    for a bound key it returns [NGHTTP3_ERR_INVALID_ARGUMENT] and
    [NGHTTP3_ERR_NOMEM] only with the table untouched; afterwards every
    lookup returns the inserted value for that key (on success) and what
    it returned before for every other key. *)
Theorem insert_after_small_history (tr : list event) (m : nghttp3_map)
    (fuel : nat) (ok : bool) (key val rv : Z) (m' : nghttp3_map) :
  reach tr m -> 0 <= key < 2 ^ 64 ->
  nghttp3_map_insert fuel ok m key val = Done (rv, m') ->
  peak (EvInsert key val rv :: tr) <= 255 ->
  ((rv = 0 /\ model tr key = 0 /\ size m' = size m + 1) \/
   (rv = NGHTTP3_ERR_INVALID_ARGUMENT /\ model tr key <> 0 /\
    size m' = size m) \/
   (rv = NGHTTP3_ERR_NOMEM /\ m' = m)) /\
  (forall k fuel', tablelen m' <= Z.of_nat fuel' ->
     nghttp3_map_find fuel' m' k
     = Done (if rv =? 0 then (if k =? key then val else model tr k)
             else model tr k)).
Proof.
  intros Hr Hk H Hp. split.
  - exact (insert_small_cases tr m fuel ok key val rv m' Hr Hk H Hp).
  - intros k fuel' Hf.
    pose proof (reach_insert _ _ _ _ _ _ _ _ Hr Hk H) as Hr'.
    rewrite (find_refines_model _ m' fuel' k Hr' (reach_small _ _ Hr' Hp) Hf).
    cbn [model]. destruct (rv =? 0); reflexivity.
Qed.

Lemma insert_after_small_history_witness :
  ((0 = 0 /\ model demo_tr 4 = 0 /\ size demo_map4 = size demo_map + 1) \/
   (0 = NGHTTP3_ERR_INVALID_ARGUMENT /\ model demo_tr 4 <> 0 /\
    size demo_map4 = size demo_map) \/
   (0 = NGHTTP3_ERR_NOMEM /\ demo_map4 = demo_map)) /\
  (forall k fuel', tablelen demo_map4 <= Z.of_nat fuel' ->
     nghttp3_map_find fuel' demo_map4 k
     = Done (if 0 =? 0 then (if k =? 4 then 44 else model demo_tr k)
             else model demo_tr k)).
Proof.
  apply (insert_after_small_history demo_tr demo_map 16 true 4 44 0 demo_map4).
  - exact demo_reach.
  - lia.
  - vm_compute; reflexivity.
  - vm_compute; congruence.
Defined.

(** The probing loop of [map_insert] has no assertion. *)
Lemma map_insert_loop_no_assert (fuel : nat) :
  forall (m : nghttp3_map) (mask idx key val p : Z),
    map_insert_loop fuel m mask idx key val p <> AssertFail.
Proof.
  induction fuel as [|fuel IH]; intros m mask idx key val p;
    [discriminate|].
  rewrite map_insert_loop_S.
  destruct (rd (psl m) idx =? 0); [discriminate|].
  destruct (p >? rd (psl m) idx); [apply IH|].
  destruct (rd (keys m) idx =? key); [discriminate | apply IH].
Qed.

(** In a history in which [size] never exceeded 255,
    [nghttp3_map_insert] with a non-null value returns: neither of its
    assertions fails, and a budget of twice the slot count (16 for the
    first allocation) is enough for its loops. *)
Theorem insert_returns_after_small_history (tr : list event)
    (m : nghttp3_map) (fuel : nat) (ok : bool) (key val : Z) :
  reach tr m -> peak tr <= 255 -> val <> 0 ->
  16 <= Z.of_nat fuel -> 2 * tablelen m <= Z.of_nat fuel ->
  exists rv m', nghttp3_map_insert fuel ok m key val = Done (rv, m').
Proof.
  intros Hr Hp Hval H16 H2.
  pose proof (reach_WInv tr m Hr) as HW.
  destruct (nghttp3_map_insert_weak fuel ok m key val HW H16 H2)
    as [Hx|(rv & m' & Hx & _)]; [|exists rv, m'; exact Hx].
  exfalso. unfold nghttp3_map_insert in Hx.
  destruct (Z.eqb_spec val 0) as [|_]; [contradiction|].
  assert (Hd : keys_distinct m).
  { destruct (reach_sim tr m Hr (reach_small tr m Hr Hp))
      as ([Hu|(Hc & _)] & _); [|exact (Inv_core_keys_distinct m Hc)].
    destruct Hu as (_ & _ & _ & _ & Hpsl).
    intros i j _ _ Hi; rewrite Hpsl in Hi.
    unfold rd in Hi; destruct (Z.to_nat i); simpl in Hi; congruence. }
  assert (Grow : forall nh,
    nh = (if hashbits m =? 0 then 4 else hashbits m + 1) ->
    2 ^ nh <= Z.of_nat fuel ->
    (if nh >? NGHTTP3_MAP_MAX_HASHBITS then Done (NGHTTP3_ERR_NOMEM, m)
     else
       r <- map_resize fuel ok m nh ;;
       if negb (fst r =? 0) then Done r else map_insert fuel (snd r) key val)
    <> AssertFail).
  { intros nh Hnh Hf. unfold NGHTTP3_MAP_MAX_HASHBITS.
    destruct (Z.gtb_spec nh 63) as [G|L]; [discriminate|].
    destruct (map_resize_no_assert fuel ok m nh HW Hd Hnh L Hf) as (r & ->).
    cbn [bind]. destruct (negb (fst r =? 0)); [discriminate|].
    apply map_insert_loop_no_assert. }
  destruct HW as [Hu|(Hw & Hl & Ht)].
  - destruct Hu as (Hb & Hs0 & _).
    rewrite Hb, Hs0 in Hx. cbn [Z.eqb] in Hx.
    change (size_t (0 + 1) >=?
            size_t (size_t (Z.shiftl 1 0) - Z.shiftr (size_t (Z.shiftl 1 0)) 3))
      with true in Hx. cbv iota in Hx.
    apply (Grow NGHTTP3_INITIAL_HASHBITS); [rewrite Hb; reflexivity| |exact Hx].
    unfold NGHTTP3_INITIAL_HASHBITS; change (2 ^ 4) with 16; lia.
  - pose proof (wf_bits m Hw) as Hb. pose proof two63_lt.
    destruct (size_t (size m + 1) >=? _).
    + destruct (Z.eqb_spec (hashbits m) 0) as [E|_]; [lia|].
      rewrite size_t_small in Hx by lia.
      apply (Grow (hashbits m + 1)); [| |exact Hx].
      * destruct (Z.eqb_spec (hashbits m) 0); [lia|reflexivity].
      * rewrite Z.pow_add_r by lia. change (2 ^ 1) with 2.
        unfold tablelen in H2; lia.
    + exact (map_insert_loop_no_assert _ _ _ _ _ _ _ Hx).
Qed.

Lemma insert_returns_after_small_history_witness :
  exists rv m', nghttp3_map_insert 32 false demo_map 4 44 = Done (rv, m').
Proof.
  apply (insert_returns_after_small_history demo_tr demo_map 32 false 4 44).
  - exact demo_reach.
  - vm_compute; congruence.
  - congruence.
  - lia.
  - vm_compute; congruence.
Defined.

(** Growth is transparent in a history in which [size] never exceeded
    255: [map_resize] to the next bit width returns 0, keeps seed,
    [size] and the number of live slots, and afterwards every lookup
    returns what the history binds to the key. *)
Theorem growth_keeps_lookups (tr : list event) (m : nghttp3_map)
    (fuel : nat) (nh rv : Z) (m1 : nghttp3_map) :
  reach tr m -> peak tr <= 255 ->
  nh = (if hashbits m =? 0 then 4 else hashbits m + 1) -> nh <= 63 ->
  map_resize fuel true m nh = Done (rv, m1) ->
  rv = 0 /\ hashbits m1 = nh /\ seed m1 = seed m /\ size m1 = size m /\
  live_count m1 = live_count m /\
  (forall k fuel', 2 ^ nh <= Z.of_nat fuel' ->
     nghttp3_map_find fuel' m1 k = Done (model tr k)).
Proof.
  intros Hr Hp Hnh Hle H.
  pose proof (reach_small tr m Hr Hp) as Hin.
  destruct (reach_sim tr m Hr Hin) as (HI & Hc).
  pose proof (reach_size_small tr m Hr Hp) as Hsz.
  unfold intact in Hin.
  pose proof (map_resize_fits fuel m nh rv m1 HI ltac:(lia) Hnh Hle H) as Hl.
  destruct (map_resize_strong fuel m nh rv m1 HI Hnh Hle H Hl)
    as (Hc1 & Hsame).
  destruct (map_resize_result fuel true m nh rv m1 (Inv_WInv m HI) Hnh Hle H)
    as [(E & _)|(_ & -> & Hw1 & Hb1 & Hsd1 & Hz1 & _)]; [discriminate E|].
  split; [reflexivity|]. split; [exact Hb1|]. split; [exact Hsd1|].
  split; [exact Hz1|]. split; [exact Hl|].
  intros k fuel' Hf.
  apply find_content; [| |unfold tablelen; rewrite Hb1; exact Hf].
  - right. split; [exact Hc1|]. split; [lia|].
    unfold tablelen; rewrite Hb1, Hz1.
    destruct HI as [(Hb & Hs0 & _)|(Hc0 & _ & Ht)].
    + rewrite Hnh, Hb, Hs0. reflexivity.
    + pose proof (wf_bits m (ic_wf m Hc0)) as Hb.
      destruct (Z.eqb_spec (hashbits m) 0) as [|_]; [lia|]. subst nh.
      rewrite threshold_double by lia. unfold tablelen in Ht.
      pose proof (WInv_size m (reach_WInv tr m Hr)). lia.
  - intros k' v; rewrite Hsame. apply Hc.
Qed.

Lemma growth_keeps_lookups_witness :
  0 = 0 /\ hashbits grown_map = 5 /\ seed grown_map = seed full_map /\
  size grown_map = size full_map /\
  live_count grown_map = live_count full_map /\
  (forall k fuel', 2 ^ 5 <= Z.of_nat fuel' ->
     nghttp3_map_find fuel' grown_map k = Done (model full_tr k)).
Proof.
  apply (growth_keeps_lookups full_tr full_map 32 5 0 grown_map).
  - apply (replay_reach 16 full_ops [] (nghttp3_map_init 0)).
    + apply reach_init; vm_compute; split; congruence.
    + vm_compute; reflexivity.
  - vm_compute; congruence.
  - vm_compute; reflexivity.
  - lia.
  - vm_compute; reflexivity.
Defined.

(* ================================================================== *)
(** * The layout of a table in a small history *)
(* ================================================================== *)

(** In a history in which [size] never exceeded 255, every live slot
    stores the exact probe length of its key (its distance from the
    slot [map_index] gives, plus one) and a non-null value, the value
    the history binds to the key; no other live slot holds the same
    key; and every slot on the way from the key's ideal slot is live,
    so that no empty slot cuts a probe sequence short. *)
Theorem layout_after_small_history (tr : list event) (m : nghttp3_map)
    (i : Z) :
  reach tr m -> peak tr <= 255 ->
  0 <= i < tablelen m -> rd (psl m) i <> 0 ->
  rd (psl m) i = dist (tablelen m) (map_index m (rd (keys m) i)) i + 1 /\
  rd (data m) i <> 0 /\
  model tr (rd (keys m) i) = rd (data m) i /\
  (forall j, 0 <= j < tablelen m -> rd (psl m) j <> 0 ->
     rd (keys m) j = rd (keys m) i -> j = i) /\
  (forall t, 0 <= t < rd (psl m) i ->
     rd (psl m) (back (tablelen m) i t) <> 0).
Proof.
  intros Hr Hp Hi Hl.
  destruct (reach_sim tr m Hr (reach_small tr m Hr Hp)) as (HI & Hc).
  assert (Hh : holds m (rd (keys m) i) (rd (data m) i))
    by (exists i; repeat split; auto; lia).
  destruct (Inv_holds_core m _ _ HI Hh) as (Hcore & _).
  pose proof (ic_wf m Hcore) as Hw.
  pose proof (tablelen_bounds m Hw) as HT.
  pose proof (wf_byte m Hw i Hi) as Hb.
  split; [exact (ic_exact m Hcore i Hi Hl)|].
  split; [exact (ic_data m Hcore i Hi Hl)|].
  split; [exact (proj2 (proj1 (Hc _ _) Hh))|].
  split; [intros j Hj Hlj E; exact (ic_distinct m Hcore j i Hj Hi Hlj Hl E)|].
  intros t Ht.
  assert (Hbr : 0 <= back (tablelen m) i t < tablelen m)
    by (apply back_range; lia).
  pose proof (chain_dist m _ i Hcore Hbr Hi) as Hch.
  pose proof (ic_exact m Hcore i Hi Hl) as Hex.
  pose proof (dist_range _ _ _ (map_index_range m (rd (keys m) i)
                                  (wf_bits m Hw)) Hi) as Hd.
  fold (tablelen m) in Hd.
  rewrite dist_back in Hch by lia. lia.
Qed.

Lemma layout_after_small_history_witness :
  rd (psl demo_map) 3
  = dist (tablelen demo_map) (map_index demo_map (rd (keys demo_map) 3)) 3 + 1 /\
  rd (data demo_map) 3 <> 0 /\
  model demo_tr (rd (keys demo_map) 3) = rd (data demo_map) 3 /\
  (forall j, 0 <= j < tablelen demo_map -> rd (psl demo_map) j <> 0 ->
     rd (keys demo_map) j = rd (keys demo_map) 3 -> j = 3) /\
  (forall t, 0 <= t < rd (psl demo_map) 3 ->
     rd (psl demo_map) (back (tablelen demo_map) 3 t) <> 0).
Proof.
  apply (layout_after_small_history demo_tr demo_map 3).
  - exact demo_reach.
  - vm_compute; congruence.
  - vm_compute; split; congruence.
  - vm_compute; congruence.
Defined.

(* ================================================================== *)
(** * Insert, then remove *)
(* ================================================================== *)

(** In a history in which [size] never exceeds 255, removing a key
    right after it was inserted succeeds and undoes the insert: [size]
    is back to what it was and every lookup returns what it returned
    before, although the table may have grown in between. *)
Theorem insert_then_remove (tr : list event) (m : nghttp3_map)
    (fuel fuel1 : nat) (ok : bool) (key val rv : Z) (m1 m2 : nghttp3_map) :
  reach tr m -> 0 <= key < 2 ^ 64 ->
  peak (EvInsert key val 0 :: tr) <= 255 ->
  nghttp3_map_insert fuel ok m key val = Done (0, m1) ->
  nghttp3_map_remove fuel1 m1 key = Done (rv, m2) ->
  rv = 0 /\ size m2 = size m /\
  (forall k fuel', tablelen m <= Z.of_nat fuel' ->
     tablelen m2 <= Z.of_nat fuel' ->
     nghttp3_map_find fuel' m2 k = nghttp3_map_find fuel' m k).
Proof.
  intros Hr Hk Hp Hins Hrem.
  pose proof (peak_cons (EvInsert key val 0) tr) as Hp0.
  pose proof (reach_small tr m Hr ltac:(lia)) as Hin.
  destruct (insert_small_cases tr m fuel ok key val 0 m1 Hr Hk Hins Hp)
    as [(_ & Hunb & Hz1)|[(E & _)|(E & _)]]; try discriminate E.
  pose proof (reach_insert _ _ _ _ _ _ _ _ Hr Hk Hins) as Hr1.
  destruct (reach_sim _ m1 Hr1 (reach_small _ m1 Hr1 Hp)) as (HI1 & Hc1).
  pose proof (insert_nonnull _ _ _ _ _ _ Hins) as Hval.
  destruct (nghttp3_map_remove_spec fuel1 m1 key rv m2 HI1 Hrem)
    as [(-> & Habs & ->)|(-> & _ & HI2 & Hz2 & _ & Hc2)].
  - exfalso. apply (Habs val), Hc1. split; [exact Hval|].
    cbn [model Z.eqb]. unfold aset. rewrite Z.eqb_refl. reflexivity.
  - split; [reflexivity|]. split; [lia|].
    intros k fuel' Hf Hf2.
    rewrite (find_refines_model tr m fuel' k Hr Hin Hf).
    apply find_content; auto.
    intros k' v; rewrite Hc2, (Hc1 k' v).
    cbn [model Z.eqb]. unfold aset.
    destruct (Z.eqb_spec k' key) as [->|N].
    + split; [intros (_ & N); contradiction|].
      intros (Hv & E); congruence.
    + tauto.
Qed.

Lemma insert_then_remove_witness :
  0 = 0 /\ size demo_map_back = size demo_map /\
  (forall k fuel', tablelen demo_map <= Z.of_nat fuel' ->
     tablelen demo_map_back <= Z.of_nat fuel' ->
     nghttp3_map_find fuel' demo_map_back k = nghttp3_map_find fuel' demo_map k).
Proof.
  apply (insert_then_remove demo_tr demo_map 16 16 true 4 44 0 demo_map4
           demo_map_back).
  - exact demo_reach.
  - lia.
  - vm_compute; congruence.
  - vm_compute; reflexivity.
  - vm_compute; reflexivity.
Defined.

(* ================================================================== *)
(** * The first insert *)
(* ================================================================== *)

Lemma first_insert_unfold (fuel : nat) (ok : bool) (seed0 key val : Z) :
  nghttp3_map_insert fuel ok (nghttp3_map_init seed0) key val
  = if val =? 0 then AssertFail
    else
      r <- map_resize fuel ok (nghttp3_map_init seed0) 4 ;;
      if negb (fst r =? 0) then Done r else map_insert fuel (snd r) key val.
Proof. reflexivity. Qed.

Lemma first_resize (fuel : nat) (ok : bool) (seed0 : Z) :
  map_resize fuel ok (nghttp3_map_init seed0) 4
  = if ok then Done (0, first_table seed0)
    else Done (NGHTTP3_ERR_NOMEM, nghttp3_map_init seed0).
Proof. destruct ok; reflexivity. Qed.

Lemma first_insert_eq (fuel : nat) (ok : bool) (seed0 key val : Z) :
  val <> 0 ->
  nghttp3_map_insert (S fuel) ok (nghttp3_map_init seed0) key val
  = if ok then
      Done (0, set_size (map_set_entry (first_table seed0)
                           (map_index (first_table seed0) key) key val 1) 1)
    else Done (NGHTTP3_ERR_NOMEM, nghttp3_map_init seed0).
Proof.
  intros Hval. rewrite first_insert_unfold, first_resize.
  destruct (Z.eqb_spec val 0) as [|_]; [contradiction|].
  destruct ok; [|reflexivity].
  cbn [bind fst snd Z.eqb negb]. unfold map_insert.
  rewrite map_insert_loop_S.
  replace (rd (psl (first_table seed0)) (map_index (first_table seed0) key))
    with 0 by (symmetry; apply rd_calloc).
  reflexivity.
Qed.

(** The first insert into a freshly initialised map: it allocates 16
    slots and stores the pair, whatever the seed and the key; if the
    allocation fails it returns [NGHTTP3_ERR_NOMEM] and the map stays
    unallocated.  After a successful first insert the key is found with
    its value and every other key misses. *)
Theorem first_insert (fuel : nat) (ok : bool) (seed0 key val : Z) :
  0 <= seed0 < 2 ^ 64 -> 0 <= key < 2 ^ 64 -> val <> 0 ->
  (ok = false ->
   nghttp3_map_insert (S fuel) ok (nghttp3_map_init seed0) key val
   = Done (NGHTTP3_ERR_NOMEM, nghttp3_map_init seed0)) /\
  (ok = true ->
   exists m',
     nghttp3_map_insert (S fuel) ok (nghttp3_map_init seed0) key val
     = Done (0, m') /\
     hashbits m' = 4 /\ size m' = 1 /\ live_count m' = 1 /\ seed m' = seed0 /\
     Z.of_nat (length (psl m')) = 16 /\
     forall k fuel', 16 <= Z.of_nat fuel' ->
       nghttp3_map_find fuel' m' k = Done (if k =? key then val else 0)).
Proof.
  intros Hs Hk Hval.
  split; intros ->; rewrite first_insert_eq by exact Hval; [reflexivity|].
  eexists; split; [reflexivity|].
  set (m' := set_size _ 1).
  assert (Hr : reach [EvInsert key val 0] m').
  { apply (reach_insert [] (nghttp3_map_init seed0) (S fuel) true key val 0 m').
    - apply reach_init; exact Hs.
    - exact Hk.
    - rewrite first_insert_eq by exact Hval; reflexivity. }
  assert (Hp : peak [EvInsert key val 0] <= 255) by (vm_compute; congruence).
  pose proof (reach_small _ _ Hr Hp) as Hin. unfold intact in Hin.
  split; [reflexivity|]. split; [reflexivity|].
  split; [rewrite Hin; reflexivity|]. split; [reflexivity|].
  split.
  - unfold m'; msimpl. rewrite length_wr. reflexivity.
  - intros k fuel' Hf.
    exact (find_refines_model _ m' fuel' k Hr (reach_small _ _ Hr Hp) Hf).
Qed.

Lemma first_insert_witness :
  exists m',
    nghttp3_map_insert 1 true (nghttp3_map_init 7) 42 4242 = Done (0, m') /\
    hashbits m' = 4 /\ size m' = 1 /\ live_count m' = 1 /\ seed m' = 7 /\
    Z.of_nat (length (psl m')) = 16 /\
    forall k fuel', 16 <= Z.of_nat fuel' ->
      nghttp3_map_find fuel' m' k = Done (if k =? 42 then 4242 else 0).
Proof.
  apply (proj2 (first_insert 0 true 7 42 4242 ltac:(lia) ltac:(lia)
                  ltac:(congruence)) eq_refl).
Defined.

(* ================================================================== *)
(** * Clear *)
(* ================================================================== *)

Lemma net_since_clear (tr : list event) :
  net_inserts (since_clear tr) = net_inserts tr.
Proof.
  induction tr as [|[k v rv|k rv|] tr IH]; cbn [since_clear net_inserts];
    lia.
Qed.

(** What happened before the last [nghttp3_map_clear] does not matter:
    if [size] has not exceeded 255 since, no stored probe length is
    truncated. *)
Lemma reach_small_since (tr : list event) (m : nghttp3_map) :
  reach tr m -> peak (since_clear tr) <= 255 -> intact m.
Proof.
  induction 1 as [s Hs|tr m fuel ok key val rv m' Hr IH Hk Hrun
                 |tr m fuel key rv m' Hr IH Hk Hrun|tr m Hr IH]; intros Hp.
  - reflexivity.
  - cbn [since_clear peak] in Hp.
    pose proof (IH ltac:(lia)) as Hin.
    destruct (reach_sim tr m Hr Hin) as (HI & _).
    apply (nghttp3_map_insert_small fuel ok m key val rv m' HI Hrun).
    destruct (size_accounting _ _ (reach_insert _ _ _ _ _ _ _ _ Hr Hk Hrun))
      as (Hz & _).
    unfold nghttp3_map_size in Hz.
    cbn [net_inserts] in Hp, Hz. rewrite net_since_clear in Hp. lia.
  - cbn [since_clear peak] in Hp.
    apply (intact_remove tr m fuel key rv m' Hr); [|exact Hrun].
    apply IH; lia.
  - apply Inv_intact, Inv_clear. apply (reach_WInv tr m Hr).
Qed.

(** [nghttp3_map_clear] on any reachable table, truncated probe lengths
    or not: [size] and the number of live slots are 0, the bit width
    (capacity), the seed and the key and value arrays are kept, the psl
    array keeps its length; clearing again changes nothing, every
    lookup misses and every removal fails without touching the table. *)
Theorem clear_in_any_state (tr : list event) (m : nghttp3_map) :
  reach tr m ->
  size (nghttp3_map_clear m) = 0 /\
  live_count (nghttp3_map_clear m) = 0 /\
  hashbits (nghttp3_map_clear m) = hashbits m /\
  seed (nghttp3_map_clear m) = seed m /\
  keys (nghttp3_map_clear m) = keys m /\
  data (nghttp3_map_clear m) = data m /\
  length (psl (nghttp3_map_clear m)) = length (psl m) /\
  nghttp3_map_clear (nghttp3_map_clear m) = nghttp3_map_clear m /\
  (forall fuel k, nghttp3_map_find fuel (nghttp3_map_clear m) k = Done 0) /\
  (forall fuel k,
     nghttp3_map_remove fuel (nghttp3_map_clear m) k
     = Done (NGHTTP3_ERR_INVALID_ARGUMENT, nghttp3_map_clear m)).
Proof.
  intros Hr. pose proof (reach_WInv tr m Hr) as HW.
  assert (Hz : size (nghttp3_map_clear m) = 0).
  { unfold nghttp3_map_clear.
    destruct (Z.eqb_spec (size m) 0) as [E|N]; [exact E | reflexivity]. }
  assert (Hidem : nghttp3_map_clear (nghttp3_map_clear m)
                  = nghttp3_map_clear m).
  { unfold nghttp3_map_clear at 1. rewrite Hz. reflexivity. }
  split; [exact Hz|]. split.
  { pose proof (Inv_intact _ (proj1 (Inv_clear m HW))) as Hin.
    unfold intact in Hin. lia. }
  assert (Hshape :
    hashbits (nghttp3_map_clear m) = hashbits m /\
    seed (nghttp3_map_clear m) = seed m /\
    keys (nghttp3_map_clear m) = keys m /\
    data (nghttp3_map_clear m) = data m /\
    length (psl (nghttp3_map_clear m)) = length (psl m)).
  { unfold nghttp3_map_clear.
    destruct (Z.eqb_spec (size m) 0) as [E|N]; [repeat split|].
    msimpl. repeat split.
    destruct HW as [(_ & Hs & _)|(Hw & _)]; [contradiction|].
    rewrite tablelen_eq by apply Hw.
    apply Nat2Z.inj. rewrite length_calloc, (wf_psl m Hw); [reflexivity|].
    pose proof (tablelen_bounds m Hw); unfold tablelen in *; lia. }
  destruct Hshape as (H1 & H2 & H3 & H4 & H5).
  repeat (split; [assumption|]).
  split; intros fuel k.
  - unfold nghttp3_map_find. rewrite Hz. reflexivity.
  - unfold nghttp3_map_remove. rewrite Hz. reflexivity.
Qed.

Lemma clear_in_any_state_witness :
  size (nghttp3_map_clear overflow_map) = 0 /\
  live_count (nghttp3_map_clear overflow_map) = 0 /\
  hashbits (nghttp3_map_clear overflow_map) = hashbits overflow_map /\
  seed (nghttp3_map_clear overflow_map) = seed overflow_map /\
  keys (nghttp3_map_clear overflow_map) = keys overflow_map /\
  data (nghttp3_map_clear overflow_map) = data overflow_map /\
  length (psl (nghttp3_map_clear overflow_map)) = length (psl overflow_map) /\
  nghttp3_map_clear (nghttp3_map_clear overflow_map)
  = nghttp3_map_clear overflow_map /\
  (forall fuel k,
     nghttp3_map_find fuel (nghttp3_map_clear overflow_map) k = Done 0) /\
  (forall fuel k,
     nghttp3_map_remove fuel (nghttp3_map_clear overflow_map) k
     = Done (NGHTTP3_ERR_INVALID_ARGUMENT, nghttp3_map_clear overflow_map)).
Proof.
  apply (clear_in_any_state overflow_tr overflow_map). exact overflow_reach.
Defined.

(** [nghttp3_map_clear] repairs a table: in every history in which
    [size] has not exceeded 255 since the last clear, whatever happened
    before it, a lookup returns the value of the last successful insert
    of the key since that clear, and a miss for every other key. *)
Theorem lookups_since_clear (tr : list event) (m : nghttp3_map)
    (fuel : nat) (key : Z) :
  reach tr m -> peak (since_clear tr) <= 255 ->
  tablelen m <= Z.of_nat fuel ->
  nghttp3_map_find fuel m key = Done (model tr key) /\
  model tr key = model (since_clear tr) key /\
  nghttp3_map_size m = live_count m.
Proof.
  intros Hr Hp Hf.
  pose proof (reach_small_since tr m Hr Hp) as Hin.
  split; [exact (find_refines_model tr m fuel key Hr Hin Hf)|].
  split; [|unfold nghttp3_map_size; symmetry; exact Hin].
  clear. induction tr as [|[k v rv|k rv|] tr IH];
    cbn [since_clear model]; try reflexivity.
  - destruct (rv =? 0); [unfold aset; rewrite IH; reflexivity | exact IH].
  - destruct (rv =? 0); [unfold aset; rewrite IH; reflexivity | exact IH].
Qed.

Lemma lookups_since_clear_witness :
  nghttp3_map_find 600 repaired_map (colliding_key 255)
  = Done (model repaired_tr (colliding_key 255)) /\
  model repaired_tr (colliding_key 255)
  = model (since_clear repaired_tr) (colliding_key 255) /\
  nghttp3_map_size repaired_map = live_count repaired_map.
Proof.
  apply (lookups_since_clear repaired_tr repaired_map 600 (colliding_key 255)).
  - apply (replay_reach 600 repaired_ops overflow_tr overflow_map).
    + exact overflow_reach.
    + vm_compute; reflexivity.
  - vm_compute; congruence.
  - vm_compute; congruence.
Defined.

(* ================================================================== *)
(** * Enumerating the values *)
(* ================================================================== *)

Lemma each_is_visit {St : Type} (func : Z -> St -> Z * St)
    (m : nghttp3_map) (s : St) :
  WInv m ->
  nghttp3_map_each func m s = visit func (live_values (psl m) (data m)) s.
Proof.
  intros HW; unfold nghttp3_map_each.
  destruct HW as [(Hb & Hs & Hk & Hd & Hp)|(Hw & Hl & Ht)].
  - rewrite Hs, Hp; reflexivity.
  - destruct (Z.eqb_spec (size m) 0) as [E|N].
    + rewrite live_values_zero; [reflexivity|].
      unfold live_count in Hl; lia.
    + rewrite tablelen_eq by apply Hw. fold (tablelen m).
      pose proof (tablelen_bounds m Hw).
      pose proof (wf_psl m Hw) as Hp. pose proof (wf_data m Hw) as Hd.
      rewrite (each_loop_visit func m (Z.to_nat (tablelen m)) 0 s);
        try lia.
      reflexivity.
Qed.

Lemma visit_collect (vals s : list Z) :
  visit collect vals s = (0, rev vals ++ s).
Proof.
  revert s; induction vals as [|v vals IH]; intros s; [reflexivity|].
  cbn [visit collect Z.eqb]. rewrite IH. cbn [rev].
  rewrite <- app_assoc. reflexivity.
Qed.

Lemma live_values_length (ps : list Z) :
  forall ds, length ps = length ds ->
    Z.of_nat (length (live_values ps ds)) = nonzero_count ps.
Proof.
  induction ps as [|p ps IH]; intros [|d ds] Hlen; try discriminate Hlen;
    [reflexivity|].
  cbn [live_values nonzero_count]. injection Hlen as Hlen.
  destruct (p =? 0); cbn [length]; rewrite <- (IH ds Hlen); lia.
Qed.

Lemma live_values_In (ps : list Z) :
  forall ds v, length ps = length ds ->
    (In v (live_values ps ds) <->
     exists i, 0 <= i < Z.of_nat (length ps) /\ rd ps i <> 0 /\ rd ds i = v).
Proof.
  induction ps as [|p ps IH]; intros [|d ds] v Hlen; try discriminate Hlen.
  - cbn; split; [tauto | intros (i & Hi & _); lia].
  - injection Hlen as Hlen. cbn [live_values].
    assert (Hsplit :
      (exists i, 0 <= i < Z.of_nat (length (p :: ps)) /\
                 rd (p :: ps) i <> 0 /\ rd (d :: ds) i = v) <->
      (p <> 0 /\ d = v) \/
      (exists i, 0 <= i < Z.of_nat (length ps) /\ rd ps i <> 0 /\ rd ds i = v)).
    { split.
      - intros (i & Hi & Hp & Hd).
        destruct (Z.eq_dec i 0) as [->|N]; [left; auto|].
        right; exists (i - 1). cbn [length] in Hi.
        unfold rd in *.
        replace (Z.to_nat i) with (S (Z.to_nat (i - 1))) in Hp, Hd by lia.
        cbn [nth] in Hp, Hd. repeat split; auto; lia.
      - intros [(Hp & Hd)|(i & Hi & Hp & Hd)].
        + exists 0; cbn [length]; repeat split; auto; lia.
        + exists (i + 1); cbn [length]. unfold rd in *.
          replace (Z.to_nat (i + 1)) with (S (Z.to_nat i)) by lia.
          cbn [nth]. repeat split; auto; lia. }
    rewrite Hsplit, <- (IH ds v Hlen).
    destruct (Z.eqb_spec p 0) as [->|N]; cbn [In]; intuition congruence.
Qed.

(** [nghttp3_map_each] with a callback that never fails visits the
    value of every live slot and returns 0.  In every reachable table,
    truncated probe lengths or not, every value visited is a non-null
    value that was passed to [nghttp3_map_insert] since the last clear;
    and in every history in which [size] has not exceeded 255 since the
    last clear, the number of visits is [size] and the values visited
    are exactly the values the history binds to some key. *)
Theorem each_collects (tr : list event) (m : nghttp3_map) :
  reach tr m ->
  exists l,
    nghttp3_map_each collect m [] = (0, l) /\
    Z.of_nat (length l) = live_count m /\
    (forall v, In v l ->
       v <> 0 /\ exists k rv, In (EvInsert k v rv) (since_clear tr)) /\
    (peak (since_clear tr) <= 255 ->
     Z.of_nat (length l) = nghttp3_map_size m /\
     forall v, In v l <-> (v <> 0 /\ exists k, model tr k = v)).
Proof.
  intros Hr. pose proof (reach_WInv tr m Hr) as HW.
  exists (rev (live_values (psl m) (data m))).
  assert (Hlen : length (psl m) = length (data m)).
  { destruct HW as [(_ & _ & _ & -> & ->)|(Hw & _)]; [reflexivity|].
    apply Nat2Z.inj. rewrite (wf_psl m Hw), (wf_data m Hw). reflexivity. }
  assert (Hholds : forall v,
    In v (live_values (psl m) (data m)) <-> exists k, holds m k v).
  { intros v. rewrite (live_values_In (psl m) (data m) v Hlen).
    destruct HW as [Hu|(Hw & _)].
    - split.
      + intros (i & Hi & _). destruct Hu as (_ & _ & _ & _ & Hp).
        rewrite Hp in Hi; cbn in Hi; lia.
      + intros (k & Hh). exfalso; exact (unallocated_no_holds m k v Hu Hh).
    - rewrite (wf_psl m Hw). split.
      + intros (i & Hi & Hp & Hd). exists (rd (keys m) i), i.
        repeat split; auto; lia.
      + intros (k & i & Hi & Hp & _ & Hd). exists i; auto. }
  split; [|split; [|split]].
  - rewrite (each_is_visit collect m [] HW), visit_collect.
    rewrite app_nil_r. reflexivity.
  - rewrite length_rev. apply live_values_length; exact Hlen.
  - intros v Hin. apply in_rev, Hholds in Hin. destruct Hin as (k & Hh).
    destruct (reach_origin tr m Hr k v Hh) as (Hv & rv & Hi).
    split; [exact Hv|]. exists k, rv; exact Hi.
  - intros Hp. pose proof (reach_small_since tr m Hr Hp) as Hin.
    destruct (reach_sim tr m Hr Hin) as (_ & Hc).
    split.
    + rewrite length_rev, (live_values_length _ _ Hlen).
      unfold nghttp3_map_size. exact Hin.
    + intros v. rewrite <- in_rev, Hholds. split.
      * intros (k & Hh). apply Hc in Hh. destruct Hh as (Hv & E).
        split; [exact Hv|]. exists k; exact E.
      * intros (Hv & k & E). exists k. apply Hc; auto.
Qed.

Lemma each_collects_witness :
  exists l,
    nghttp3_map_each collect demo_map [] = (0, l) /\
    Z.of_nat (length l) = live_count demo_map /\
    (forall v, In v l ->
       v <> 0 /\ exists k rv, In (EvInsert k v rv) (since_clear demo_tr)) /\
    (peak (since_clear demo_tr) <= 255 ->
     Z.of_nat (length l) = nghttp3_map_size demo_map /\
     forall v, In v l <-> (v <> 0 /\ exists k, model demo_tr k = v)).
Proof.
  apply (each_collects demo_tr demo_map). exact demo_reach.
Defined.

(* ================================================================== *)
(** * Printing the distances *)
(* ================================================================== *)

Lemma print_distance_loop_map (n : nat) (m : nghttp3_map) :
  forall (i : Z) (out : list string),
    print_distance_loop n m i out = out ++ map (slot_line m) (slots_from i n).
Proof.
  induction n as [|n IH]; intros i out; cbn [print_distance_loop slots_from].
  - cbn [map]. rewrite app_nil_r; reflexivity.
  - rewrite map_cons.
    destruct (rd (psl m) i =? 0) eqn:G; rewrite IH, <- app_assoc;
      cbn [app]; unfold slot_line at 2; rewrite G; reflexivity.
Qed.

Lemma slots_from_length (n : nat) (i : Z) : length (slots_from i n) = n.
Proof. revert i; induction n as [|n IH]; intros i; cbn; auto. Qed.

Lemma slots_from_nth (n : nat) :
  forall (i : Z) (k : nat), (k < n)%nat ->
    nth k (slots_from i n) 0 = i + Z.of_nat k.
Proof.
  induction n as [|n IH]; intros i [|k] Hk; cbn [slots_from nth]; try lia.
  rewrite IH by lia. lia.
Qed.

(** [nghttp3_map_print_distance] writes nothing for a table with [size]
    0; otherwise it writes one line per slot, in slot order, after what
    was written before.  The line of a slot with psl 0 is the
    [<EMPTY>] line.  In every history in which [size] has not exceeded
    255 since the last clear, the line of any other slot shows its
    key, the slot [map_index] gives for the key, and as distance the
    number of slots between the two. *)
Theorem print_distance_lines (tr : list event) (m : nghttp3_map)
    (out : list string) :
  reach tr m ->
  (size m = 0 -> nghttp3_map_print_distance m out = out) /\
  (size m <> 0 ->
   exists lines,
     nghttp3_map_print_distance m out = out ++ lines /\
     Z.of_nat (length lines) = tablelen m /\
     (forall i, 0 <= i < tablelen m -> rd (psl m) i = 0 ->
        nth (Z.to_nat i) lines EmptyString = empty_line i) /\
     (peak (since_clear tr) <= 255 ->
      forall i, 0 <= i < tablelen m -> rd (psl m) i <> 0 ->
        nth (Z.to_nat i) lines EmptyString
        = entry_line i (rd (keys m) i) (map_index m (rd (keys m) i))
            (dist (tablelen m) (map_index m (rd (keys m) i)) i))).
Proof.
  intros Hr. pose proof (reach_WInv tr m Hr) as HW.
  unfold nghttp3_map_print_distance. split.
  - intros ->; reflexivity.
  - intros N. destruct (Z.eqb_spec (size m) 0) as [|_]; [contradiction|].
    destruct HW as [(_ & Hs & _)|(Hw & _)]; [contradiction|].
    rewrite tablelen_eq by apply Hw. fold (tablelen m).
    pose proof (tablelen_bounds m Hw) as HT.
    rewrite print_distance_loop_map.
    exists (map (slot_line m) (slots_from 0 (Z.to_nat (tablelen m)))).
    split; [reflexivity|].
    split; [rewrite length_map, slots_from_length; lia|].
    assert (Hnth : forall i, 0 <= i < tablelen m ->
      nth (Z.to_nat i)
          (map (slot_line m) (slots_from 0 (Z.to_nat (tablelen m))))
          EmptyString = slot_line m i).
    { intros i Hi.
      rewrite (nth_indep _ EmptyString (slot_line m 0))
        by (rewrite length_map, slots_from_length; lia).
      rewrite map_nth, slots_from_nth by lia.
      f_equal; lia. }
    split.
    + intros i Hi Hz. rewrite (Hnth i Hi). unfold slot_line.
      rewrite Hz. reflexivity.
    + intros Hp i Hi Hl. rewrite (Hnth i Hi). unfold slot_line.
      destruct (Z.eqb_spec (rd (psl m) i) 0) as [|_]; [contradiction|].
      destruct (reach_sim tr m Hr (reach_small_since tr m Hr Hp))
        as (HI & _).
      assert (Hh : holds m (rd (keys m) i) (rd (data m) i))
        by (exists i; repeat split; auto; lia).
      destruct (Inv_holds_core m _ _ HI Hh) as (Hcore & _).
      pose proof (ic_exact m Hcore i Hi Hl) as Hex.
      pose proof (wf_byte m Hw i Hi) as Hb.
      rewrite Z.mod_small by lia.
      f_equal. lia.
Qed.

Lemma print_distance_lines_witness :
  exists lines,
    nghttp3_map_print_distance demo_map [] = [] ++ lines /\
    Z.of_nat (length lines) = tablelen demo_map /\
    (forall i, 0 <= i < tablelen demo_map -> rd (psl demo_map) i = 0 ->
       nth (Z.to_nat i) lines EmptyString = empty_line i) /\
    (peak (since_clear demo_tr) <= 255 ->
     forall i, 0 <= i < tablelen demo_map -> rd (psl demo_map) i <> 0 ->
       nth (Z.to_nat i) lines EmptyString
       = entry_line i (rd (keys demo_map) i)
           (map_index demo_map (rd (keys demo_map) i))
           (dist (tablelen demo_map)
                 (map_index demo_map (rd (keys demo_map) i)) i)).
Proof.
  apply (proj2 (print_distance_lines demo_tr demo_map [] demo_reach)).
  vm_compute; congruence.
Defined.

(** On the demo table: slot 2 is empty, slot 3 holds key 2 at its ideal
    slot. *)
Example print_distance_demo :
  nth 2 (nghttp3_map_print_distance demo_map []) EmptyString
  = ("@2 <EMPTY>" ++ newline)%string /\
  nth 3 (nghttp3_map_print_distance demo_map []) EmptyString
  = ("@3 key=2 base=3 distance=0" ++ newline)%string.
Proof. vm_compute. split; reflexivity. Qed.

(* ================================================================== *)
(** * Capacity *)
(* ================================================================== *)

(** The table is allocated on the first successful growth and never
    shrinks; its capacity is bounded by the largest [size] of the
    history: a table of more than 16 slots was needed, that is, 7/8 of
    half its slot count is at most the largest [size] ever reached plus
    one.  [size] itself stays below 7/8 of the slot count. *)
Theorem capacity_follows_peak (tr : list event) (m : nghttp3_map) :
  reach tr m ->
  (hashbits m = 0 \/ 4 <= hashbits m <= 63) /\
  (4 < hashbits m -> threshold (2 ^ (hashbits m - 1)) <= peak tr + 1) /\
  (hashbits m <> 0 -> size m < threshold (2 ^ hashbits m)) /\
  (forall fuel ok key val rv m',
     nghttp3_map_insert fuel ok m key val = Done (rv, m') ->
     hashbits m <= hashbits m') /\
  (forall fuel key rv m',
     nghttp3_map_remove fuel m key = Done (rv, m') ->
     hashbits m' = hashbits m) /\
  hashbits (nghttp3_map_clear m) = hashbits m.
Proof.
  intros Hr.
  assert (Hbits : forall tr m, reach tr m ->
            hashbits m = 0 \/ 4 <= hashbits m <= 63).
  { intros tr0 m0 H0.
    destruct (reach_WInv tr0 m0 H0) as [(Hb & _)|(Hw & _)];
      [left; exact Hb | right; exact (wf_bits m0 Hw)]. }
  split; [exact (Hbits tr m Hr)|].
  split; [|split; [|split; [|split]]].
  - induction Hr as [s Hs|tr m fuel ok key val rv m' Hr IH Hk Hrun
                    |tr m fuel key rv m' Hr IH Hk Hrun|tr m Hr IH];
      intros H4.
    + cbn in H4; lia.
    + pose proof (reach_WInv tr m Hr) as HW.
      pose proof (peak_cons (EvInsert key val rv) tr) as Hpk.
      destruct (proj1 (nghttp3_map_insert_sub fuel ok m key val rv m' HW Hrun))
        as [E|E].
      * rewrite E in *. specialize (IH H4). lia.
      * destruct (Z.eqb_spec (hashbits m) 0) as [E0|N0]; [lia|].
        destruct HW as [(Hb & _)|(Hw & Hl & Ht)]; [contradiction|].
        pose proof (wf_bits m Hw) as Hb.
        rewrite E. replace (hashbits m + 1 - 1) with (hashbits m) by lia.
        destruct (Z.lt_ge_cases (size m + 1) (threshold (tablelen m)))
          as [Lt|Ge].
        -- exfalso.
           rewrite (nghttp3_map_insert_no_growth fuel ok m key val
                      (reach_WInv tr m Hr)
                      (insert_nonnull _ _ _ _ _ _ Hrun) Lt) in Hrun.
           destruct (map_insert_sub fuel m key val rv m' Hw Hrun)
             as (_ & Hb' & _). lia.
        -- destruct (size_accounting tr m Hr) as (Hz & _).
           unfold nghttp3_map_size in Hz.
           pose proof (net_le_peak tr). unfold tablelen in Ge. lia.
    + pose proof (peak_cons (EvRemove key rv) tr) as Hpk.
      destruct (nghttp3_map_remove_result fuel m key rv m'
                  (reach_WInv tr m Hr) Hrun)
        as (_ & _ & [(_ & ->)|(_ & Hb & _)]).
      * specialize (IH H4). lia.
      * rewrite Hb in *. specialize (IH H4). lia.
    + pose proof (peak_cons EvClear tr) as Hpk.
      assert (Hb : hashbits (nghttp3_map_clear m) = hashbits m).
      { unfold nghttp3_map_clear. destruct (size m =? 0); reflexivity. }
      rewrite Hb in *. specialize (IH H4). lia.
  - intros N. destruct (reach_WInv tr m Hr) as [(Hb & _)|(_ & _ & Ht)];
      [contradiction | exact Ht].
  - intros fuel ok key val rv m' Hrun.
    destruct (Hbits tr m Hr) as [Hb|Hb];
      destruct (proj1 (nghttp3_map_insert_sub fuel ok m key val rv m'
                         (reach_WInv tr m Hr) Hrun)) as [E|E];
      rewrite E; try lia;
      destruct (Z.eqb_spec (hashbits m) 0); lia.
  - intros fuel key rv m' Hrun.
    destruct (nghttp3_map_remove_result fuel m key rv m'
                (reach_WInv tr m Hr) Hrun)
      as (_ & _ & [(_ & ->)|(_ & Hb & _)]); auto.
  - unfold nghttp3_map_clear. destruct (size m =? 0); reflexivity.
Qed.

Lemma capacity_follows_peak_witness :
  (hashbits chain_map = 0 \/ 4 <= hashbits chain_map <= 63) /\
  (4 < hashbits chain_map ->
   threshold (2 ^ (hashbits chain_map - 1)) <= peak chain_tr + 1) /\
  (hashbits chain_map <> 0 -> size chain_map < threshold (2 ^ hashbits chain_map)) /\
  (forall fuel ok key val rv m',
     nghttp3_map_insert fuel ok chain_map key val = Done (rv, m') ->
     hashbits chain_map <= hashbits m') /\
  (forall fuel key rv m',
     nghttp3_map_remove fuel chain_map key = Done (rv, m') ->
     hashbits m' = hashbits chain_map) /\
  hashbits (nghttp3_map_clear chain_map) = hashbits chain_map.
Proof.
  apply (capacity_follows_peak chain_tr chain_map). exact chain_reach.
Defined.

(* ================================================================== *)
(** * Growth never truncates a probe length *)
(* ================================================================== *)

(** With one more bit the slot of a key is twice its old slot, or one
    more. *)
Lemma map_index_half (old nm : nghttp3_map) (k : Z) :
  4 <= hashbits old <= 62 -> hashbits nm = hashbits old + 1 ->
  seed nm = seed old ->
  map_index old k = map_index nm k / 2.
Proof.
  intros Hb Hn Hs. unfold map_index. rewrite Hn, Hs.
  set (x := u64 (_ * NGHTTP3_MAP_FIBO)).
  replace (64 - hashbits old) with ((64 - (hashbits old + 1)) + 1) by lia.
  rewrite <- Z.shiftr_shiftr by lia.
  rewrite (Z.shiftr_div_pow2 _ 1) by lia. reflexivity.
Qed.

Lemma back_back (T j r t : Z) :
  0 < T -> back T (back T j r) t = back T j (r + t).
Proof.
  intros HT; unfold back. rewrite Zminus_mod_idemp_l. f_equal; lia.
Qed.

Lemma back_0 (T j : Z) : 0 <= j < T -> back T j 0 = j.
Proof. intros H; unfold back. rewrite Z.sub_0_r. apply Z.mod_small; exact H. Qed.

Lemma back_of_dist (T a i : Z) :
  0 <= a < T -> 0 <= i < T -> back T i (dist T a i) = a.
Proof.
  intros Ha Hi; unfold back.
  destruct (dist_spec T a i Ha Hi) as [[-> ?]|[-> ?]].
  - replace (i - (i - a)) with a by lia. apply Z.mod_small; exact Ha.
  - replace (i - (i - a + T)) with (a + (-1) * T) by lia.
    rewrite Z.mod_add by lia. apply Z.mod_small; exact Ha.
Qed.

Lemma back_inj (T j r r' : Z) :
  0 <= r < T -> 0 <= r' < T -> back T j r = back T j r' -> r = r'.
Proof.
  intros Hr Hr' E; unfold back in E.
  assert (H : (r' - r) mod T = 0).
  { replace (r' - r) with ((j - r) - (j - r')) by lia.
    rewrite Zminus_mod, E, Z.sub_diag. apply Z.mod_0_l; lia. }
  apply Z.mod_divide in H; [|lia]. destruct H as (c & Hc).
  assert (c = 0) by nia. lia.
Qed.

Lemma dist_back_back (T j r r' : Z) :
  0 <= j < T -> 0 <= r' <= r -> r - r' < T ->
  dist T (back T j r) (back T j r') = r - r'.
Proof.
  intros Hj Hr HT.
  rewrite <- (back_0 T (back T j r')) at 1 by (apply back_range; lia).
  replace (back T j r) with (back T (back T j r') (r - r'))
    by (rewrite back_back by lia; f_equal; lia).
  rewrite back_0 by (apply back_range; lia).
  apply dist_back; [apply back_range|]; lia.
Qed.

Lemma dist_triangle (T a b c : Z) :
  0 <= a < T -> 0 <= b < T -> 0 <= c < T ->
  dist T a c <= dist T a b + dist T b c.
Proof.
  intros Ha Hb Hc.
  destruct (dist_spec T a c Ha Hc) as [[-> ?]|[-> ?]];
    destruct (dist_spec T a b Ha Hb) as [[-> ?]|[-> ?]];
    destruct (dist_spec T b c Hb Hc) as [[-> ?]|[-> ?]]; lia.
Qed.

Lemma dist_inj (T a i j : Z) :
  0 <= a < T -> 0 <= i < T -> 0 <= j < T ->
  dist T a i = dist T a j -> i = j.
Proof.
  intros Ha Hi Hj.
  destruct (dist_spec T a i Ha Hi) as [[-> ?]|[-> ?]];
    destruct (dist_spec T a j Ha Hj) as [[-> ?]|[-> ?]]; lia.
Qed.

(** Distances between the halves of two slots of the doubled table. *)
Lemma half_dist (T a h : Z) :
  0 < T -> 0 <= a < 2 * T -> 0 <= h < 2 * T ->
  dist T (a / 2) (h / 2) <= (dist (2 * T) a h + 1) / 2.
Proof.
  intros HT Ha Hh.
  assert (Ha2 : 0 <= a / 2 < T) by (split; [apply Z.div_pos|apply Z.div_lt_upper_bound]; lia).
  assert (Hh2 : 0 <= h / 2 < T) by (split; [apply Z.div_pos|apply Z.div_lt_upper_bound]; lia).
  pose proof (Z.div_mod a 2 ltac:(lia)) as Ea.
  pose proof (Z.div_mod h 2 ltac:(lia)) as Eh.
  pose proof (Z.mod_pos_bound a 2 ltac:(lia)).
  pose proof (Z.mod_pos_bound h 2 ltac:(lia)).
  destruct (dist_spec (2 * T) a h Ha Hh) as [[-> ?]|[-> ?]];
    destruct (dist_spec T (a / 2) (h / 2) Ha2 Hh2) as [[-> ?]|[-> ?]];
    apply Z.div_le_lower_bound; lia.
Qed.

(** A list of pairwise distinct numbers below [M] has at most [M]
    elements. *)
Lemma pigeonhole (l : list Z) (M : Z) :
  0 <= M -> NoDup l -> (forall x, In x l -> 0 <= x < M) ->
  Z.of_nat (length l) <= M.
Proof.
  intros HM Hnd Hr.
  assert (Hm : NoDup (map Z.to_nat l)).
  { clear HM. induction l as [|x l IH]; [constructor|].
    inversion Hnd; subst. cbn [map]. constructor.
    - intros Hin. apply in_map_iff in Hin. destruct Hin as (y & Ey & Hy).
      assert (y = x).
      { pose proof (Hr x (or_introl eq_refl)).
        pose proof (Hr y (or_intror Hy)). lia. }
      subst y; contradiction.
    - apply IH; auto. intros y Hy; apply Hr; right; exact Hy. }
  assert (Hi : incl (map Z.to_nat l) (seq 0 (Z.to_nat M))).
  { intros n Hn. apply in_map_iff in Hn. destruct Hn as (y & <- & Hy).
    apply in_seq. pose proof (Hr y Hy). lia. }
  pose proof (NoDup_incl_length Hm Hi) as Hlen.
  rewrite length_map, length_seq in Hlen. lia.
Qed.

Lemma first_zero (f : nat -> Z) (R : nat) :
  f R = 0 ->
  exists n, (n <= R)%nat /\ f n = 0 /\ forall r, (r < n)%nat -> f r <> 0.
Proof.
  intros HR.
  assert (H : forall B,
    (exists n, (n < B)%nat /\ f n = 0 /\ forall r, (r < n)%nat -> f r <> 0) \/
    (forall r, (r < B)%nat -> f r <> 0)).
  { induction B as [|B [IH|IH]].
    - right; intros r Hr; lia.
    - left. destruct IH as (n & Hn & Hz & Hf). exists n; repeat split; auto.
    - destruct (Z.eq_dec (f B) 0) as [E|N].
      + left; exists B; repeat split; auto.
      + right; intros r Hr.
        destruct (Nat.eq_dec r B) as [->|]; [exact N | apply IH; lia]. }
  destruct (H (S R)) as [(n & Hn & Hz & Hf)|Hall].
  - exists n; repeat split; auto; lia.
  - exfalso; apply (Hall R); [lia | exact HR].
Qed.

(** Behind every slot there is a last empty slot: the live run that
    ends just before [idx] and the empty slot before it. *)
Lemma backward_run (a : list Z) (T idx : Z) :
  0 <= idx < T -> (exists e, 0 <= e < T /\ rd a e = 0) ->
  exists n, 0 <= n < T /\
    (forall r, 1 <= r <= n -> rd a (back T idx r) <> 0) /\
    rd a (back T idx (n + 1)) = 0.
Proof.
  intros Hi (e & He & Hz).
  set (f := fun r : nat => rd a (back T idx (Z.of_nat r + 1))).
  assert (HR : exists R, (R < Z.to_nat T)%nat /\ f R = 0).
  { pose proof (dist_range T e idx He Hi) as Hd.
    destruct (Z.eq_dec (dist T e idx) 0) as [E|N].
    - exists (Z.to_nat (T - 1)). split; [lia|]. unfold f.
      rewrite Z2Nat.id by lia. replace (T - 1 + 1) with (0 + 1 * T) by lia.
      unfold back. rewrite Z.sub_add_distr, Z.sub_0_r.
      replace (idx - 1 * T) with (idx + (-1) * T) by lia.
      rewrite Z.mod_add by lia. rewrite Z.mod_small by lia.
      rewrite <- (dist_zero T e idx He Hi E). exact Hz.
    - exists (Z.to_nat (dist T e idx - 1)). split; [lia|]. unfold f.
      rewrite Z2Nat.id by lia.
      replace (dist T e idx - 1 + 1) with (dist T e idx) by lia.
      rewrite back_of_dist by auto. exact Hz. }
  destruct HR as (R & HRT & HR).
  destruct (first_zero f R HR) as (n & Hn & Hfn & Hlt).
  exists (Z.of_nat n). split; [lia|]. split.
  - intros r Hr. specialize (Hlt (Z.to_nat (r - 1)) ltac:(lia)).
    unfold f in Hlt. rewrite Z2Nat.id in Hlt by lia.
    replace (r - 1 + 1) with r in Hlt by lia. exact Hlt.
  - exact Hfn.
Qed.

Lemma nxt_back (T idx : Z) :
  2 <= T -> 0 <= idx < T -> nxt T (back T idx 1) = idx.
Proof.
  intros HT Hi.
  pose proof (back_range T idx 1 ltac:(lia)) as Hb.
  pose proof (dist_back T idx 1 Hi ltac:(lia)) as Hd.
  destruct (nxt_spec T (back T idx 1) Hb) as [[-> ?]|[-> ?]];
    destruct (dist_spec T (back T idx 1) idx Hb Hi) as [[E ?]|[E ?]]; lia.
Qed.

Lemma list_choice {A B : Type} (P : A -> B -> Prop) (l : list A) :
  (forall x, In x l -> exists y, P x y) -> exists l', Forall2 P l l'.
Proof.
  induction l as [|x l IH]; intros H; [exists []; constructor|].
  destruct (H x (or_introl eq_refl)) as (y & Hy).
  destruct (IH (fun z Hz => H z (or_intror Hz))) as (l' & Hl').
  exists (y :: l'); constructor; auto.
Qed.

Lemma Forall2_NoDup {A B : Type} (P : A -> B -> Prop) (l : list A)
    (l' : list B) :
  Forall2 P l l' -> NoDup l ->
  (forall x x' y, In x l -> In x' l -> P x y -> P x' y -> x = x') ->
  NoDup l'.
Proof.
  induction 1 as [|x y l l' Hxy Hf IH]; intros Hnd Hinj; [constructor|].
  inversion Hnd; subst. constructor.
  - intros Hin.
    assert (Hex : exists x', In x' l /\ P x' y).
    { clear - Hf Hin. induction Hf as [|x0 y0 l l' H0 Hf IH];
        [contradiction|].
      destruct Hin as [->|Hin]; [exists x0; split; [left|]; auto|].
      destruct (IH Hin) as (x' & Hx' & Hp). exists x'; split; [right|]; auto. }
    destruct Hex as (x' & Hx' & Hp).
    assert (x = x') by (apply (Hinj x x' y); auto; [left|right]; auto).
    subst x'; contradiction.
  - apply IH; auto. intros a b c Ha Hb; apply Hinj; right; auto.
Qed.

Lemma Forall2_In_r {A B : Type} (P : A -> B -> Prop) (l : list A)
    (l' : list B) (y : B) :
  Forall2 P l l' -> In y l' -> exists x, In x l /\ P x y.
Proof.
  induction 1 as [|x0 y0 l l' H0 Hf IH]; intros Hin; [contradiction|].
  destruct Hin as [->|Hin]; [exists x0; split; [left|]; auto|].
  destruct (IH Hin) as (x & Hx & Hp). exists x; split; [right|]; auto.
Qed.

(** A key whose slot in the doubled table is [rho] steps behind [idx]
    sits, in the old table, close behind the half of the slot [n]
    steps behind [idx]. *)
Lemma old_offset (old nm : nghttp3_map) (k rho n idx : Z) :
  Inv_core old -> wf nm -> hashbits nm = hashbits old + 1 ->
  seed nm = seed old -> 0 <= idx < tablelen nm ->
  255 <= rho <= n -> n < tablelen nm ->
  map_index nm k = back (tablelen nm) idx rho ->
  (exists v, holds old k v) ->
  exists j, 0 <= j < tablelen old /\ rd (psl old) j <> 0 /\
            rd (keys old) j = k /\
            0 <= dist (tablelen old) (back (tablelen nm) idx n / 2) j
              < (n - 254) / 2 + 255.
Proof.
  intros Hco Hw Hbits Hseed Hi Hrho Hn Hhome (v & j & Hj & Hl & Hk & _).
  pose proof (ic_wf old Hco) as Hwo.
  pose proof (tablelen_bounds old Hwo) as HT.
  pose proof (wf_bits nm Hw) as Hb'.
  assert (HT2 : tablelen nm = 2 * tablelen old).
  { unfold tablelen. rewrite Hbits, Z.pow_add_r by (pose proof (wf_bits old Hwo); lia).
    change (2 ^ 1) with 2. lia. }
  exists j. split; [exact Hj|]. split; [exact Hl|]. split; [exact Hk|].
  pose proof (back_range (tablelen nm) idx n ltac:(lia)) as Hbn.
  pose proof (back_range (tablelen nm) idx rho ltac:(lia)) as Hbr.
  set (b := back (tablelen nm) idx n / 2).
  assert (Hb : 0 <= b < tablelen old).
  { unfold b; split; [apply Z.div_pos|apply Z.div_lt_upper_bound]; lia. }
  pose proof (ic_exact old Hco j Hj Hl) as Hex.
  pose proof (wf_byte old Hwo j Hj) as Hbyte.
  rewrite Hk in Hex.
  rewrite (map_index_half old nm k) in Hex
    by (auto; pose proof (wf_bits old Hwo); lia).
  rewrite Hhome in Hex.
  set (h := back (tablelen nm) idx rho / 2) in *.
  assert (Hh : 0 <= h < tablelen old).
  { unfold h; split; [apply Z.div_pos|apply Z.div_lt_upper_bound]; lia. }
  pose proof (half_dist (tablelen old) (back (tablelen nm) idx n)
                (back (tablelen nm) idx rho) ltac:(lia)
                ltac:(lia) ltac:(lia)) as Hhalf.
  fold b h in Hhalf. rewrite <- HT2 in Hhalf.
  rewrite dist_back_back in Hhalf by lia.
  pose proof (dist_triangle (tablelen old) b h j Hb Hh Hj) as Htri.
  pose proof (dist_range (tablelen old) b j Hb Hj) as Hr.
  assert ((n - rho + 1) / 2 <= (n - 254) / 2)
    by (apply Z.div_le_mono; lia).
  lia.
Qed.

(** While an old table that satisfies the invariant is re-inserted
    into a table of twice the size, no probe length reaches 256:
    otherwise more entries than fit would sit, in the old table, within
    254 slots behind their ideal slots. *)
Lemma no_overflow_in_growth (old nm : nghttp3_map) (idx key val e : Z) :
  carried nm idx key val 256 e ->
  Inv_core old -> hashbits nm = hashbits old + 1 -> seed nm = seed old ->
  (exists v, holds old key v) ->
  (forall k v, holds nm k v -> exists v', holds old k v') -> False.
Proof.
  intros [Hc Hi Hex Habs Hval Hprev (He & Hz) Hroom Hs]
         Hco Hbits Hseed Hkey Hsub.
  pose proof (ic_wf nm Hc) as Hw. pose proof (ic_wf old Hco) as Hwo.
  pose proof (tablelen_bounds nm Hw) as HT'.
  pose proof (tablelen_bounds old Hwo) as HT.
  pose proof (map_index_range nm key (wf_bits nm Hw)) as Hhc.
  fold (tablelen nm) in Hhc.
  pose proof (dist_range _ _ _ Hhc Hi) as Hd.
  assert (Hd255 : dist (tablelen nm) (map_index nm key) idx = 255) by lia.
  destruct (backward_run (psl nm) (tablelen nm) idx Hi
              (ex_intro _ e (conj He Hz))) as (n & Hn & Hrun & Hg).
  set (s := fun r => back (tablelen nm) idx r).
  assert (Hsr : forall r, 0 <= s r < tablelen nm)
    by (intros r; apply back_range; lia).
  assert (Hs1 : 255 <= rd (psl nm) (s 1)).
  { pose proof (Hprev (s 1) (Hsr 1)
                  (nxt_back (tablelen nm) idx ltac:(lia) Hi)). lia. }
  assert (Hge : forall r, 1 <= r <= 255 -> 256 - r <= rd (psl nm) (s r)).
  { intros r Hr.
    pose proof (chain_dist nm (s r) (s 1) Hc (Hsr r) (Hsr 1)) as Hch.
    unfold s in Hch at 2 3. rewrite dist_back_back in Hch by lia.
    fold (s 1) in Hch. lia. }
  assert (Hn255 : 255 <= n).
  { destruct (Z.lt_ge_cases n 255) as [L|G]; [|lia].
    pose proof (Hge (n + 1) ltac:(lia)). fold (s (n + 1)) in Hg. lia. }
  assert (Hhomes : forall r, 1 <= r <= n ->
    exists rho, 255 <= rho <= n /\
      map_index nm (rd (keys nm) (s r)) = back (tablelen nm) idx rho).
  { intros r Hr.
    pose proof (Hrun r Hr) as Hl. fold (s r) in Hl.
    pose proof (ic_exact nm Hc (s r) (Hsr r) Hl) as Hq.
    pose proof (wf_byte nm Hw (s r) (Hsr r)) as Hbyte.
    pose proof (map_index_range nm (rd (keys nm) (s r)) (wf_bits nm Hw))
      as Hh. fold (tablelen nm) in Hh.
    pose proof (dist_range _ _ _ Hh (Hsr r)) as Hdr.
    exists (r + (rd (psl nm) (s r) - 1)). split; [split|].
    - destruct (Z.le_gt_cases r 255) as [L|G]; [|lia].
      pose proof (Hge r ltac:(lia)). lia.
    - destruct (Z.le_gt_cases (r + (rd (psl nm) (s r) - 1)) n) as [L|G];
        [exact L|exfalso].
      pose proof (chain_dist nm (s (n + 1)) (s r) Hc (Hsr _) (Hsr r)) as Hch.
      unfold s in Hch at 2 3. rewrite dist_back_back in Hch by lia.
      fold (s r) in Hch. fold (s (n + 1)) in Hg. lia.
    - rewrite <- back_back by lia. fold (s r).
      rewrite Hq.
      replace (dist (tablelen nm) (map_index nm (rd (keys nm) (s r))) (s r)
               + 1 - 1)
        with (dist (tablelen nm) (map_index nm (rd (keys nm) (s r))) (s r))
        by lia.
      symmetry. apply back_of_dist; auto. }
  assert (Hhome0 : map_index nm key = back (tablelen nm) idx 255).
  { rewrite <- Hd255. symmetry. apply back_of_dist; auto. }
  set (M := (n - 254) / 2 + 255).
  set (b := back (tablelen nm) idx n / 2).
  set (kx := fun x : nat =>
               if Nat.eqb x 0 then key else rd (keys nm) (s (Z.of_nat x))).
  set (P := fun (x : nat) (o : Z) =>
    exists j, 0 <= j < tablelen old /\ rd (psl old) j <> 0 /\
              rd (keys old) j = kx x /\ o = dist (tablelen old) b j /\
              0 <= o < M).
  assert (Hall : forall x, In x (seq 0 (S (Z.to_nat n))) ->
                           exists o, P x o).
  { intros x Hx. apply in_seq in Hx.
    assert (Hk : exists rho, 255 <= rho <= n /\
              map_index nm (kx x) = back (tablelen nm) idx rho /\
              exists v, holds old (kx x) v).
    { unfold kx. destruct (Nat.eqb_spec x 0) as [->|N].
      - exists 255. split; [lia|]. split; [exact Hhome0 | exact Hkey].
      - destruct (Hhomes (Z.of_nat x) ltac:(lia)) as (rho & Hrho & Hh).
        exists rho. split; [exact Hrho|]. split; [exact Hh|].
        apply (Hsub _ (rd (data nm) (s (Z.of_nat x)))).
        exists (s (Z.of_nat x)). split; [apply Hsr|].
        split; [apply Hrun; lia|]. split; reflexivity. }
    destruct Hk as (rho & Hrho & Hh & Hold).
    destruct (old_offset old nm (kx x) rho n idx Hco Hw Hbits Hseed Hi
                Hrho ltac:(lia) Hh Hold) as (j & Hj & Hl & Hkj & Ho).
    exists (dist (tablelen old) b j), j.
    split; [exact Hj|]. split; [exact Hl|]. split; [exact Hkj|].
    split; [reflexivity | exact Ho]. }
  destruct (list_choice P _ Hall) as (os & Hos).
  assert (Hb : 0 <= b < tablelen old).
  { pose proof (Hsr n) as Hsn. unfold s in Hsn.
    assert (tablelen nm = 2 * tablelen old).
    { unfold tablelen. rewrite Hbits, Z.pow_add_r
        by (pose proof (wf_bits old Hwo); lia).
      change (2 ^ 1) with 2. lia. }
    unfold b; split; [apply Z.div_pos|apply Z.div_lt_upper_bound]; lia. }
  assert (Hnd : NoDup os).
  { apply (Forall2_NoDup P _ os Hos (seq_NoDup _ _)).
    intros x x' o Hx Hx' (j & Hj & Hl & Hkj & Ho & _)
           (j' & Hj' & Hl' & Hkj' & Ho' & _).
    apply in_seq in Hx, Hx'.
    assert (j = j') by (apply (dist_inj (tablelen old) b); auto; congruence).
    subst j'. assert (Ek : kx x = kx x') by congruence.
    unfold kx in Ek.
    assert (Hlive : forall y : nat, y <> 0%nat -> (y < S (Z.to_nat n))%nat ->
              holds nm (rd (keys nm) (s (Z.of_nat y)))
                    (rd (data nm) (s (Z.of_nat y)))).
    { intros y Hy Hyn. exists (s (Z.of_nat y)). split; [apply Hsr|].
      split; [apply Hrun; lia|]. split; reflexivity. }
    destruct (Nat.eqb_spec x 0) as [->|N];
      destruct (Nat.eqb_spec x' 0) as [->|N']; [reflexivity| | |].
    - exfalso. apply (Habs _ ltac:(rewrite Ek; apply (Hlive x' N'); lia)).
    - exfalso. apply (Habs _ ltac:(rewrite <- Ek; apply (Hlive x N); lia)).
    - assert (Es : s (Z.of_nat x) = s (Z.of_nat x')).
      { apply (ic_distinct nm Hc); auto; try apply Hrun; try lia. }
      apply back_inj in Es; lia. }
  assert (Hlen : length os = S (Z.to_nat n)).
  { rewrite <- (Forall2_length Hos), length_seq. reflexivity. }
  assert (HM : 0 <= M).
  { unfold M. pose proof (Z.div_pos (n - 254) 2 ltac:(lia) ltac:(lia)). lia. }
  pose proof (pigeonhole os M HM Hnd) as Hp.
  rewrite Hlen in Hp.
  assert (Hbound : forall o, In o os -> 0 <= o < M).
  { intros o Ho. destruct (Forall2_In_r P _ os o Hos Ho)
      as (x & _ & j & _ & _ & _ & _ & Hr). exact Hr. }
  specialize (Hp Hbound).
  pose proof (Z.div_lt (n - 254) 2 ltac:(lia) ltac:(lia)).
  unfold M in Hp. lia.
Qed.

(** The probing loop of [map_insert] while an old table is re-inserted
    into one of twice the size: it adds one live slot. *)
Lemma map_insert_loop_grow (fuel : nat) :
  forall (old m : nghttp3_map) (idx key val p e rv : Z) (m' : nghttp3_map),
    carried m idx key val p e ->
    Inv_core old -> hashbits m = hashbits old + 1 -> seed m = seed old ->
    (exists v, holds old key v) ->
    (forall k v, holds m k v -> exists v', holds old k v') ->
    map_insert_loop fuel m (tablelen m - 1) idx key val p = Done (rv, m') ->
    live_count m' = live_count m + 1.
Proof.
  induction fuel as [|fuel IH];
    intros old m idx key val p e rv m' HJ Hco Hbits Hseed Hkey Hsub Hrun;
    [discriminate Hrun|].
  pose proof (carried_bound _ _ _ _ _ _ HJ) as Hp256.
  pose proof (cr_core _ _ _ _ _ _ HJ) as Hc.
  pose proof (cr_idx _ _ _ _ _ _ HJ) as Hi.
  pose proof (ic_wf m Hc) as Hw.
  pose proof (tablelen_bounds m Hw) as HT.
  pose proof (wf_byte m Hw idx Hi) as Hb.
  assert (Hp : p <= 255).
  { destruct (Z.eq_dec p 256) as [->|]; [exfalso|lia].
    exact (no_overflow_in_growth old m idx key val e HJ Hco Hbits Hseed
             Hkey Hsub). }
  assert (Hu : u8 p <> 0) by (rewrite u8_small; lia).
  rewrite map_insert_loop_S in Hrun.
  destruct (Z.eqb_spec (rd (psl m) idx) 0) as [E0|N0].
  - inversion Hrun; subst rv m'.
    change (live_count (set_size ?x _)) with (live_count x).
    rewrite live_set_entry by auto.
    rewrite (nz_zero _ E0), (nz_nonzero _ Hu). lia.
  - rewrite step_tablelen in Hrun by auto.
    pose proof two63_lt.
    assert (Hlive : holds m (rd (keys m) idx) (rd (data m) idx))
      by (exists idx; repeat split; auto; lia).
    destruct (Z.gtb_spec p (rd (psl m) idx)) as [G|L].
    + rewrite size_t_small in Hrun by lia.
      pose proof (carried_swap _ _ _ _ _ _ HJ N0 ltac:(lia) Hp) as HJ1.
      set (m1 := map_set_entry m idx key val p) in *.
      assert (Hl1 : live_count m1 = live_count m).
      { unfold m1; rewrite live_set_entry by auto.
        rewrite (nz_nonzero _ N0), (nz_nonzero _ Hu). lia. }
      rewrite <- Hl1.
      apply (IH old m1 _ _ _ _ e rv m' HJ1 Hco Hbits Hseed); auto.
      * exact (Hsub _ _ Hlive).
      * intros k v Hh. apply holds_set_entry_sub in Hh; auto.
        destruct Hh as [(-> & ->)|(i & _ & Hh)]; [exact Hkey|].
        apply (Hsub k v). exists i; exact Hh.
    + pose proof (carried_not_dup _ _ _ _ _ _ HJ N0) as Hnd.
      destruct (Z.eqb_spec (rd (keys m) idx) key) as [E|_];
        [contradiction|].
      rewrite size_t_small in Hrun by lia.
      destruct (carried_next _ _ _ _ _ _ HJ N0 L) as (HJ1 & _).
      apply (IH old m _ key val _ e rv m' HJ1 Hco Hbits Hseed Hkey Hsub Hrun).
Qed.

Lemma map_insert_grow (fuel : nat) (old m : nghttp3_map) (key val rv : Z)
    (m' : nghttp3_map) :
  Inv_core m -> live_count m < tablelen m -> 0 <= size m < 2 ^ 63 ->
  (forall v, ~ holds m key v) -> val <> 0 ->
  Inv_core old -> hashbits m = hashbits old + 1 -> seed m = seed old ->
  (exists v, holds old key v) ->
  (forall k v, holds m k v -> exists v', holds old k v') ->
  map_insert fuel m key val = Done (rv, m') ->
  live_count m' = live_count m + 1.
Proof.
  intros Hc Hlt Hs Habs Hval Hco Hbits Hseed Hkey Hsub H.
  pose proof (ic_wf m Hc) as Hw.
  pose proof (tablelen_bounds m Hw) as HT.
  unfold map_insert in H. rewrite mask_tablelen in H by auto.
  destruct (nonzero_count_hole (psl m)) as (e & He & Hz).
  { rewrite (wf_psl m Hw); unfold live_count in Hlt; lia. }
  rewrite (wf_psl m Hw) in He.
  pose proof (map_index_range m key (wf_bits m Hw)) as Hi.
  fold (tablelen m) in Hi.
  pose proof (dist_range _ _ _ Hi He) as Hd.
  apply (map_insert_loop_grow fuel old m (map_index m key) key val 1 e rv m');
    auto.
  constructor; auto; try lia.
  - rewrite dist_self by auto; reflexivity.
  - intros i0 Hr _. pose proof (wf_byte m Hw i0 Hr); lia.
Qed.

(** Re-inserting a table that satisfies the invariant into one of
    twice the size truncates nothing, however many entries it has. *)
Lemma resize_loop_grow (fuel n : nat) :
  forall (old : nghttp3_map) (i : Z) (nm nm' : nghttp3_map),
    Inv_core old -> Inv_core nm ->
    hashbits nm = hashbits old + 1 -> seed nm = seed old ->
    0 <= i -> i + Z.of_nat n = tablelen old ->
    live_count nm = live_before old i -> size nm = live_before old i ->
    (forall k v, holds nm k v <->
                 exists j, 0 <= j < i /\ entry_at old j k v) ->
    resize_loop fuel n old i nm = Done nm' ->
    live_count nm' = live_count old.
Proof.
  induction n as [|n IH];
    intros old i nm nm' Hco Hcn Hbits Hseed Hi Hin Hl Hs Hcont H.
  - inversion H; subst nm'. rewrite Hl.
    replace i with (Z.of_nat (length (psl old)))
      by (rewrite (wf_psl old (ic_wf old Hco)); lia).
    apply live_before_all.
  - rewrite resize_loop_S in H.
    pose proof (ic_wf old Hco) as Hwo.
    pose proof (ic_wf nm Hcn) as Hwn.
    pose proof (tablelen_bounds nm Hwn) as HTn.
    pose proof (tablelen_bounds old Hwo) as HTo.
    assert (HT : tablelen nm = 2 * tablelen old).
    { unfold tablelen. rewrite Hbits, Z.pow_add_r
        by (pose proof (wf_bits old Hwo); lia).
      change (2 ^ 1) with 2. lia. }
    pose proof (live_before_S old i Hi) as HS.
    pose proof (live_before_le old i Hi) as HB.
    assert (Hir : 0 <= i < tablelen old) by lia.
    destruct (Z.eqb_spec (rd (psl old) i) 0) as [E0|N0].
    + rewrite (nz_zero _ E0) in HS.
      apply (IH old (i + 1) nm nm'); auto; try lia.
      intros k v; rewrite Hcont; split.
      * intros (j & Hj & He); exists j; split; [lia | exact He].
      * intros (j & Hj & He); exists j; split; [|exact He].
        destruct (Z.eq_dec j i) as [->|]; [|lia].
        destruct He as (_ & Hlv & _); contradiction.
    + rewrite (nz_nonzero _ N0) in HS.
      apply bind_Done in H; destruct H as ((rv & m1) & H1 & H2).
      cbn [fst snd] in H2.
      assert (Habs : forall v, ~ holds nm (rd (keys old) i) v).
      { intros v Hh; apply Hcont in Hh.
        destruct Hh as (j & Hj & Hr & Hlv & Hk & _).
        assert (j = i) by (apply (ic_distinct old Hco); auto). lia. }
      assert (Hkey : exists v, holds old (rd (keys old) i) v).
      { exists (rd (data old) i), i. repeat split; auto; lia. }
      assert (Hsub : forall k v, holds nm k v -> exists v', holds old k v').
      { intros k v Hh. apply Hcont in Hh. destruct Hh as (j & Hj & He).
        exists v, j. destruct He as (Hr & Hrest). split; [lia | exact Hrest]. }
      pose proof (map_insert_grow fuel old nm _ _ rv m1 Hcn ltac:(lia)
                    ltac:(lia) Habs (ic_data old Hco i Hir N0) Hco Hbits
                    Hseed Hkey Hsub H1) as Hl1.
      destruct (proj2 (map_insert_new fuel nm _ _ rv m1 Hcn ltac:(lia)
                         ltac:(lia) Habs (ic_data old Hco i Hir N0) H1) Hl1)
        as (-> & Hc1 & Hcont1).
      destruct (map_insert_result fuel nm _ _ 0 m1 Hwn ltac:(lia) ltac:(lia) H1)
        as (Hw1 & Hh1 & Hsd1 & Hc1').
      destruct Hc1' as [(_ & Hz1 & _)|(E & _)]; [|discriminate E].
      cbn [Z.eqb] in H2.
      apply (IH old (i + 1) m1 nm'); auto; try lia; try congruence.
      intros k v; rewrite Hcont1, Hcont; split.
      * intros [(j & Hj & He)|(-> & ->)].
        -- exists j; split; [lia | exact He].
        -- exists i; split; [lia|]. repeat split; auto; lia.
      * intros (j & Hj & He).
        destruct (Z.eq_dec j i) as [->|].
        -- right. destruct He as (_ & _ & <- & <-); auto.
        -- left; exists j; split; [lia | exact He].
Qed.

(** [map_resize] of a table that satisfies the invariant keeps the
    number of live slots. *)
Lemma map_resize_grow (fuel : nat) (m : nghttp3_map) (nh rv : Z)
    (m1 : nghttp3_map) :
  Inv m ->
  nh = (if hashbits m =? 0 then 4 else hashbits m + 1) -> nh <= 63 ->
  map_resize fuel true m nh = Done (rv, m1) ->
  live_count m1 = live_count m.
Proof.
  intros HI Hnh Hle H; unfold map_resize in H; cbn [negb] in H.
  destruct HI as [Hu|(Hc & Hl & Ht)].
  - destruct Hu as (Hb & Hs & Hk & Hd & Hp).
    rewrite Hs in H; cbn [Z.eqb bind] in H.
    inversion H; subst rv m1; clear H.
    unfold live_count; msimpl. rewrite Hp, nonzero_count_calloc. reflexivity.
  - pose proof (ic_wf m Hc) as Hw.
    pose proof (wf_bits m Hw) as Hb.
    assert (E : nh = hashbits m + 1).
    { destruct (Z.eqb_spec (hashbits m) 0); lia. }
    pose proof (Inv_core_fresh nh (seed m) ltac:(lia)) as Hcf.
    set (fresh := mk_map _ _ _ (seed m) 0 nh) in *.
    assert (Hlf : live_count fresh = 0).
    { unfold live_count, fresh; msimpl; apply nonzero_count_calloc. }
    destruct (Z.eqb_spec (size m) 0) as [E0|N0].
    + cbn [bind] in H. inversion H; subst rv m1; clear H.
      transitivity 0; [|lia].
      unfold live_count; msimpl; apply nonzero_count_calloc.
    + apply bind_Done in H; destruct H as (nm' & H1 & H2).
      inversion H2; subst rv m1; clear H2.
      rewrite tablelen_eq in H1 by lia. fold (tablelen m) in H1.
      pose proof (tablelen_bounds m Hw) as HT.
      change (live_count (mk_map (keys nm') (data nm') (psl nm') _ _ _))
        with (live_count nm').
      apply (resize_loop_grow fuel (Z.to_nat (tablelen m)) m 0 fresh nm');
        auto; try lia.
      intros k v; split.
      * intros Hh; exfalso; exact (holds_fresh _ _ _ _ k v Hh).
      * intros (j & Hj & _); lia.
Qed.

(** [map_resize] of a table that satisfies the invariant: the rebuilt
    table satisfies it too and holds the same entries. *)
Lemma map_resize_Inv (fuel : nat) (m : nghttp3_map) (nh rv : Z)
    (m1 : nghttp3_map) :
  Inv m ->
  nh = (if hashbits m =? 0 then 4 else hashbits m + 1) -> nh <= 63 ->
  map_resize fuel true m nh = Done (rv, m1) ->
  rv = 0 /\ Inv m1 /\ hashbits m1 = nh /\ seed m1 = seed m /\
  size m1 = size m /\ live_count m1 = live_count m /\
  (forall k v, holds m1 k v <-> holds m k v).
Proof.
  intros HI Hnh Hle H.
  pose proof (map_resize_grow fuel m nh rv m1 HI Hnh Hle H) as Hl.
  destruct (map_resize_strong fuel m nh rv m1 HI Hnh Hle H Hl)
    as (Hc1 & Hsame).
  destruct (map_resize_result fuel true m nh rv m1 (Inv_WInv m HI) Hnh Hle H)
    as [(E & _)|(_ & -> & Hw1 & Hb1 & Hsd1 & Hz1 & _)]; [discriminate E|].
  pose proof (Inv_intact m HI) as Hin. unfold intact in Hin.
  split; [reflexivity|]. split; [|auto].
  right. split; [exact Hc1|]. split; [lia|].
  unfold tablelen; rewrite Hb1, Hz1.
  destruct HI as [(Hb & Hs0 & _)|(Hc0 & _ & Ht)].
  - rewrite Hnh, Hb, Hs0. reflexivity.
  - pose proof (wf_bits m (ic_wf m Hc0)) as Hb.
    destruct (Z.eqb_spec (hashbits m) 0) as [|_]; [lia|]. subst nh.
    rewrite threshold_double by lia. unfold tablelen in Ht.
    pose proof (WInv_size m (Inv_WInv m (or_intror (conj Hc0 (conj Hin Ht))))).
    lia.
Qed.

(** Inserting a key that is in a table satisfying the invariant: the
    call fails, and the table it leaves satisfies the invariant and
    holds the same entries, also when the table was rebuilt first. *)
Lemma nghttp3_map_insert_bound (fuel : nat) (ok : bool) (m : nghttp3_map)
    (key val v0 rv : Z) (m' : nghttp3_map) :
  Inv m -> holds m key v0 ->
  nghttp3_map_insert fuel ok m key val = Done (rv, m') ->
  (rv = NGHTTP3_ERR_INVALID_ARGUMENT \/ (rv = NGHTTP3_ERR_NOMEM /\ m' = m)) /\
  Inv m' /\ size m' = size m /\
  (forall k v, holds m' k v <-> holds m k v) /\
  (size m + 1 < threshold (tablelen m) ->
   rv = NGHTTP3_ERR_INVALID_ARGUMENT /\ m' = m).
Proof.
  intros HI Hh H.
  destruct (Inv_holds_core m key v0 HI Hh) as (Hc & Hnz).
  pose proof (ic_wf m Hc) as Hw.
  pose proof (wf_bits m Hw) as Hb.
  pose proof (WInv_size m (Inv_WInv m HI)) as Hs.
  pose proof two63_lt.
  assert (Dup : forall m1,
    Inv m1 -> (forall k v, holds m1 k v <-> holds m k v) ->
    map_insert fuel m1 key val = Done (rv, m') ->
    rv = NGHTTP3_ERR_INVALID_ARGUMENT /\ m' = m1).
  { intros m1 HI1 Hsame H1.
    assert (Hh1 : holds m1 key v0) by (apply Hsame; exact Hh).
    destruct (Inv_holds_core m1 key v0 HI1 Hh1) as (Hc1 & _).
    pose proof (tablelen_bounds m1 (ic_wf m1 Hc1)).
    set (F := Nat.max fuel (Z.to_nat (tablelen m1))).
    apply (map_insert_mono fuel F) in H1; [|unfold F; lia].
    rewrite (map_insert_dup F m1 key v0 val Hc1 Hh1 ltac:(unfold F; lia))
      in H1.
    inversion H1; subst; auto. }
  unfold nghttp3_map_insert in H.
  destruct (Z.eqb_spec val 0) as [|Hval]; [discriminate H|].
  rewrite growth_check in H by auto.
  destruct (Z.geb_spec (size m + 1) (threshold (tablelen m))) as [G|L].
  - destruct (Z.eqb_spec (hashbits m) 0) as [E|_]; [lia|].
    rewrite size_t_small in H by lia.
    unfold NGHTTP3_MAP_MAX_HASHBITS in H.
    destruct (Z.gtb_spec (hashbits m + 1) 63) as [G2|L2].
    + inversion H; subst rv m'.
      split; [right; auto|]. split; [exact HI|]. split; [reflexivity|].
      split; [intros; reflexivity | intros; lia].
    + apply bind_Done in H; destruct H as ((rv1 & m1) & H1 & H2).
      cbn [fst snd] in H2.
      assert (Hnh : hashbits m + 1
                    = (if hashbits m =? 0 then 4 else hashbits m + 1)).
      { destruct (Z.eqb_spec (hashbits m) 0); [lia|reflexivity]. }
      destruct ok.
      * destruct (map_resize_Inv fuel m _ rv1 m1 HI Hnh L2 H1)
          as (-> & HI1 & _ & _ & Hz1 & _ & Hsame).
        cbn [Z.eqb negb] in H2.
        destruct (Dup m1 HI1 Hsame H2) as (-> & ->).
        split; [left; reflexivity|]. split; [exact HI1|].
        split; [exact Hz1|]. split; [exact Hsame | intros; lia].
      * destruct (map_resize_result fuel false m _ rv1 m1 (Inv_WInv m HI)
                    Hnh L2 H1)
          as [(_ & -> & ->)|(E & _)]; [|discriminate E].
        inversion H2; subst rv m'.
        split; [right; auto|]. split; [exact HI|]. split; [reflexivity|].
        split; [intros; reflexivity | intros; lia].
  - destruct (Dup m HI (fun k v => iff_refl _) H) as (-> & ->).
    split; [left; reflexivity|]. split; [exact HI|]. split; [reflexivity|].
    split; [intros; reflexivity | intros; auto].
Qed.

(* ================================================================== *)
(** * The growth policy of [nghttp3_map_insert] *)
(* ================================================================== *)

(** C3: [nghttp3_map_insert] grows the table before placing the key
    exactly when [size + 1] reaches [tablelen - (tablelen >> 3)] (with
    [tablelen = 1 << hashbits]); the new bit width is 4 for an
    unallocated table and [hashbits + 1] otherwise; when the new width
    exceeds 63 or the allocator fails, the call returns
    [NGHTTP3_ERR_NOMEM] and the table is the one it was.  Otherwise
    [map_resize] returns a table of the new width with the same seed
    and [size] that holds no entry the old table did not hold and, when
    no probe length of the old table was truncated, all of its entries:
    every lookup returns what it returned before; the key is then
    placed in that table. *)
Theorem C3_growth_policy (tr : list event) (m : nghttp3_map) (fuel : nat)
    (ok : bool) (key val rv : Z) (m' : nghttp3_map) :
  reach tr m ->
  nghttp3_map_insert fuel ok m key val = Done (rv, m') ->
  (size m + 1 < threshold (tablelen m) ->
   hashbits m' = hashbits m /\ map_insert fuel m key val = Done (rv, m')) /\
  (threshold (tablelen m) <= size m + 1 ->
   (if hashbits m =? 0 then 4 else hashbits m + 1) > 63 \/ ok = false ->
   rv = NGHTTP3_ERR_NOMEM /\ m' = m) /\
  (threshold (tablelen m) <= size m + 1 ->
   (if hashbits m =? 0 then 4 else hashbits m + 1) <= 63 -> ok = true ->
   exists m1,
     map_resize fuel true m (if hashbits m =? 0 then 4 else hashbits m + 1)
     = Done (0, m1) /\
     hashbits m1 = (if hashbits m =? 0 then 4 else hashbits m + 1) /\
     seed m1 = seed m /\ size m1 = size m /\
     Z.of_nat (length (psl m1)) = 2 ^ hashbits m1 /\
     (forall k v, holds m1 k v -> holds m k v) /\
     (intact m ->
      live_count m1 = live_count m /\
      (forall k v, holds m k v -> holds m1 k v) /\
      (forall k fuel', 2 ^ hashbits m1 <= Z.of_nat fuel' ->
         nghttp3_map_find fuel' m1 k = Done (model tr k))) /\
     hashbits m' = hashbits m1 /\
     map_insert fuel m1 key val = Done (rv, m')).
Proof.
  intros Hr H.
  pose proof (reach_WInv tr m Hr) as HW.
  pose proof (WInv_size m HW) as Hs.
  unfold nghttp3_map_insert in H.
  destruct (Z.eqb_spec val 0) as [|Hval]; [discriminate H|].
  assert (Hcheck :
    (size_t (size m + 1) >=?
     size_t (size_t (Z.shiftl 1 (hashbits m))
             - Z.shiftr (size_t (Z.shiftl 1 (hashbits m))) 3))
    = (size m + 1 >=? threshold (tablelen m))).
  { destruct HW as [(Hb & Hs0 & _)|(Hw & _)].
    - unfold tablelen; rewrite Hb, Hs0; reflexivity.
    - apply growth_check; auto. }
  rewrite Hcheck in H; clear Hcheck.
  assert (Hnh : (if hashbits m =? 0 then NGHTTP3_INITIAL_HASHBITS
                 else size_t (hashbits m + 1))
                = (if hashbits m =? 0 then 4 else hashbits m + 1)).
  { destruct (Z.eqb_spec (hashbits m) 0); [reflexivity|].
    pose proof (WInv_bits m HW). pose proof two63_lt.
    apply size_t_small.
    destruct HW as [(Hb & _)|(Hw & _)]; [contradiction|].
    pose proof (wf_bits m Hw).
    change (2 ^ 64) with 18446744073709551616. lia. }
  rewrite Hnh in H; clear Hnh.
  set (nh := if hashbits m =? 0 then 4 else hashbits m + 1) in *.
  assert (H4 : 4 <= nh).
  { unfold nh. destruct (Z.eqb_spec (hashbits m) 0) as [|N]; [lia|].
    destruct HW as [(Hb & _)|(Hw & _)]; [contradiction|].
    pose proof (wf_bits m Hw); lia. }
  unfold NGHTTP3_MAP_MAX_HASHBITS in H.
  assert (Hafter : forall m1,
            wf m1 -> live_count m1 <= size m1 ->
            size m1 + 1 < threshold (tablelen m1) ->
            map_insert fuel m1 key val = Done (rv, m') ->
            hashbits m' = hashbits m1).
  { intros m1 Hw1 Hl1 Ht1 H1.
    pose proof (tablelen_bounds m1 Hw1).
    pose proof (threshold_bounds (hashbits m1) ltac:(apply Hw1)) as Hth.
    fold (tablelen m1) in Hth.
    pose proof (nonzero_count_bounds (psl m1)) as Hnb.
    fold (live_count m1) in Hnb.
    destruct (map_insert_result fuel m1 key val rv m' Hw1 ltac:(lia)
                ltac:(lia) H1) as (_ & Hh & _). exact Hh. }
  destruct (Z.geb_spec (size m + 1) (threshold (tablelen m))) as [G|L].
  - split; [intros; lia|].
    destruct (Z.gtb_spec nh 63) as [G2|L2].
    + inversion H; subst rv m'.
      split; [intros; auto | intros; lia].
    + apply bind_Done in H; destruct H as ((rv1 & m1) & H1 & H2).
      cbn [fst snd] in H2.
      pose proof (map_resize_sub fuel ok m nh rv1 m1 HW ltac:(lia) H1)
        as Hsub.
      destruct (map_resize_result fuel ok m nh rv1 m1 HW eq_refl L2 H1)
        as [(-> & -> & ->)|(-> & -> & Hw1 & Hh1 & Hsd1 & Hz1 & Hl1)].
      * inversion H2; subst rv m'. split; [intros; auto|].
        intros _ _ E; discriminate E.
      * cbn [Z.eqb negb] in H2.
        split; [intros _ [?|E]; [lia | discriminate E]|].
        intros _ _ _. exists m1. split; [exact H1|]. split; [exact Hh1|].
        split; [exact Hsd1|]. split; [exact Hz1|].
        split; [exact (wf_psl m1 Hw1)|]. split; [exact Hsub|].
        split; [|split; [|exact H2]].
        -- intros Hin. destruct (reach_sim tr m Hr Hin) as (HI & Hc).
           destruct (map_resize_Inv fuel m nh 0 m1 HI eq_refl L2 H1)
             as (_ & HI1 & _ & _ & _ & Hlive & Hsame).
           split; [exact Hlive|]. split; [intros k v; apply Hsame|].
           intros k fuel' Hf. apply find_content; auto.
           intros k' v; rewrite Hsame. apply Hc.
        -- apply (Hafter m1); auto.
           ++ destruct HW as [(_ & Hs0 & _ & _ & Hp)|(_ & Hl & _)].
              ** unfold live_count in *; rewrite Hp in Hl1; simpl in Hl1; lia.
              ** lia.
           ++ unfold tablelen; rewrite Hh1, Hz1.
              destruct HW as [(Hb & Hs0 & _)|(Hw & _ & Ht)].
              ** unfold nh; rewrite Hb, Hs0; reflexivity.
              ** pose proof (wf_bits m Hw).
                 unfold nh. destruct (Z.eqb_spec (hashbits m) 0); [lia|].
                 rewrite threshold_double by lia. unfold tablelen in Ht; lia.
  - split; [|split; intros; lia].
    intros _. split; [|exact H].
    destruct HW as [(Hb & Hs0 & _)|(Hw & Hl & _)].
    + unfold tablelen in L; rewrite Hb, Hs0 in L. simpl in L. lia.
    + apply (Hafter m); auto.
Qed.

Lemma full_reach : reach full_tr full_map.
Proof.
  apply (replay_reach 16 full_ops [] (nghttp3_map_init 0)).
  - apply reach_init; vm_compute; split; congruence.
  - vm_compute; reflexivity.
Qed.

Lemma C3_growth_policy_witness :
  (hashbits demo_map4 = hashbits demo_map /\
   map_insert 16 demo_map 4 44 = Done (0, demo_map4)) /\
  (NGHTTP3_ERR_NOMEM = NGHTTP3_ERR_NOMEM /\ full_map = full_map) /\
  (exists m1,
     map_resize 32 true full_map
       (if hashbits full_map =? 0 then 4 else hashbits full_map + 1)
     = Done (0, m1) /\
     hashbits m1
     = (if hashbits full_map =? 0 then 4 else hashbits full_map + 1) /\
     seed m1 = seed full_map /\ size m1 = size full_map /\
     Z.of_nat (length (psl m1)) = 2 ^ hashbits m1 /\
     (forall k v, holds m1 k v -> holds full_map k v) /\
     (live_count m1 = live_count full_map /\
      (forall k v, holds full_map k v -> holds m1 k v) /\
      (forall k fuel', 2 ^ hashbits m1 <= Z.of_nat fuel' ->
         nghttp3_map_find fuel' m1 k = Done (model full_tr k))) /\
     hashbits full_map_more = hashbits m1 /\
     map_insert 32 m1 14 114 = Done (0, full_map_more)).
Proof.
  split; [|split].
  - refine (proj1 (C3_growth_policy demo_tr demo_map 16 true 4 44 0 demo_map4
                     _ _) _).
    + exact demo_reach.
    + vm_compute; reflexivity.
    + vm_compute; reflexivity.
  - refine (proj1 (proj2 (C3_growth_policy full_tr full_map 32 false 14 114
                            NGHTTP3_ERR_NOMEM full_map _ _)) _ _).
    + exact full_reach.
    + vm_compute; reflexivity.
    + vm_compute; congruence.
    + right; reflexivity.
  - assert (Hrun : nghttp3_map_insert 32 true full_map 14 114
                   = Done (0, full_map_more)) by (vm_compute; reflexivity).
    assert (Hdue : threshold (tablelen full_map) <= size full_map + 1)
      by (vm_compute; congruence).
    assert (Hwidth : (if hashbits full_map =? 0 then 4
                      else hashbits full_map + 1) <= 63)
      by (vm_compute; congruence).
    destruct (proj2 (proj2 (C3_growth_policy full_tr full_map 32 true 14 114
                              0 full_map_more full_reach Hrun))
                Hdue Hwidth eq_refl)
      as (m1 & H1 & H2 & H3 & H4 & H5 & H6 & H7 & H8 & H9).
    exists m1.
    split; [exact H1|]. split; [exact H2|]. split; [exact H3|].
    split; [exact H4|]. split; [exact H5|]. split; [exact H6|].
    split; [apply H7; vm_compute; reflexivity|].
    split; [exact H8 | exact H9].
Defined.

(* ================================================================== *)
(** * Calls that fail *)
(* ================================================================== *)

(** C2 (amended): a failed call that changes the table at all is a
    rejected duplicate insert that first grew the table.  In every
    reachable table, an insert that returns [NGHTTP3_ERR_NOMEM] and a
    remove that fails leave the table exactly as it was.  Inserting a
    key that is bound fails ([NGHTTP3_ERR_INVALID_ARGUMENT], or
    [NGHTTP3_ERR_NOMEM] when a growth was due and failed); [size] and
    the value found for every key are as before, also when the table
    was rebuilt at twice the size before the duplicate was detected;
    when no growth was due the table is exactly as it was.  (The part
    on bound keys is for tables in which no stored probe length has
    been truncated, and the table after the call is again such a
    table.) *)
Theorem C2_failed_calls (tr : list event) (m : nghttp3_map) :
  reach tr m ->
  (forall fuel ok key val m',
     nghttp3_map_insert fuel ok m key val = Done (NGHTTP3_ERR_NOMEM, m') ->
     m' = m) /\
  (forall fuel key rv m',
     nghttp3_map_remove fuel m key = Done (rv, m') -> rv <> 0 ->
     rv = NGHTTP3_ERR_INVALID_ARGUMENT /\ m' = m) /\
  (intact m ->
   forall fuel ok key val rv m',
     model tr key <> 0 ->
     nghttp3_map_insert fuel ok m key val = Done (rv, m') ->
     (rv = NGHTTP3_ERR_INVALID_ARGUMENT \/ rv = NGHTTP3_ERR_NOMEM) /\
     size m' = size m /\ intact m' /\
     (forall k fuel', tablelen m' <= Z.of_nat fuel' ->
        nghttp3_map_find fuel' m' k = Done (model tr k)) /\
     (size m + 1 < threshold (tablelen m) ->
      rv = NGHTTP3_ERR_INVALID_ARGUMENT /\ m' = m)).
Proof.
  intros Hr. pose proof (reach_WInv tr m Hr) as HW.
  split; [|split].
  - intros fuel ok key val m' H.
    destruct (nghttp3_map_insert_result fuel ok m key val _ m' HW H)
      as (_ & _ & [(E & _)|[(_ & E)|(E & _)]]); try discriminate E.
    exact E.
  - intros fuel key rv m' H Hrv.
    destruct (nghttp3_map_remove_result fuel m key rv m' HW H)
      as (_ & _ & [(E & E')|(E & _)]); [auto | contradiction].
  - intros Hin fuel ok key val rv m' Hb H.
    destruct (reach_sim tr m Hr Hin) as (HI & Hc).
    assert (Hh : holds m key (model tr key)) by (apply Hc; auto).
    destruct (nghttp3_map_insert_bound fuel ok m key val _ rv m' HI Hh H)
      as (Hrv & HI' & Hz & Hsame & Hng).
    split; [destruct Hrv as [?|(? & _)]; auto|].
    split; [exact Hz|]. split; [exact (Inv_intact m' HI')|].
    split; [|exact Hng].
    intros k fuel' Hf. apply find_content; auto.
    intros k' v; rewrite Hsame. apply Hc.
Qed.

Lemma C2_failed_calls_witness :
  full_map = full_map /\
  (NGHTTP3_ERR_INVALID_ARGUMENT = NGHTTP3_ERR_INVALID_ARGUMENT /\
   full_map = full_map) /\
  ((NGHTTP3_ERR_INVALID_ARGUMENT = NGHTTP3_ERR_INVALID_ARGUMENT \/
    NGHTTP3_ERR_INVALID_ARGUMENT = NGHTTP3_ERR_NOMEM) /\
   size grown_map = size full_map /\ intact grown_map /\
   (forall k fuel', tablelen grown_map <= Z.of_nat fuel' ->
      nghttp3_map_find fuel' grown_map k = Done (model full_tr k)) /\
   (size full_map + 1 < threshold (tablelen full_map) ->
    NGHTTP3_ERR_INVALID_ARGUMENT = NGHTTP3_ERR_INVALID_ARGUMENT /\
    grown_map = full_map)).
Proof.
  split; [|split].
  - apply (proj1 (C2_failed_calls full_tr full_map full_reach)
             32%nat false 14 114 full_map).
    vm_compute; reflexivity.
  - apply (proj1 (proj2 (C2_failed_calls full_tr full_map full_reach))
             16%nat 99 NGHTTP3_ERR_INVALID_ARGUMENT full_map).
    + vm_compute; reflexivity.
    + vm_compute; congruence.
  - refine (proj2 (proj2 (C2_failed_calls full_tr full_map full_reach)) _
                  32%nat true 1 999 NGHTTP3_ERR_INVALID_ARGUMENT grown_map
                  _ _).
    + vm_compute; reflexivity.
    + vm_compute; congruence.
    + vm_compute; reflexivity.
Defined.
